(** * zpack: the package store of [src/zpack/zpPackage.cpp]

    A shallow embedding of [zp::Package]: the header, the entry table, the
    parallel name table and the open-addressing hash index, together with the
    operations that read and mutate them ([Package::Package], [addFile],
    [removeFile], [flush], [defrag], [buildHashTable], [getFileIndex],
    [insertFile], [fixHashTable], [stringHash]).

    What is modelled and how:
    - unsigned integers are [Z] with the wrap-around written out ([wrap32],
      [wrap64]);
    - [std::vector] members are lists, indexed with stdpp's lookup; an access
      outside a vector, a division by zero and a loop that never leaves are
      the three ways a call can fail to return, and are kept apart in
      [fault];
    - the bytes of the stream are not modelled: what the constructor reads
      from it is an input ([Archive]), and what [addFile], [flush] and
      [defrag] write to it is left out, since nothing below observes the
      written bytes.  [countFragmentSize] takes the length of the stream as
      an input, and of the buffer [getFilenameByIndex] fills the model keeps
      the string it holds on return.  [closeFile], which only deletes a
      [File], and the destructor are left out;
    - [stringHash] reads the bytes of a name as numbers from 0 to 255 and
      lower-cases the ASCII capitals, as [tolower] does in the "C" locale;
    - [size_t] is taken to be 64 bits wide. *)

From stdpp Require Import base numbers list strings sorting.
From Stdlib Require Import ZArith Lia.

Local Open Scope Z_scope.

(** ** Fixed-width arithmetic *)

Definition wrap32 (z : Z) : Z := z mod 2 ^ 32.
Definition wrap64 (z : Z) : Z := z mod 2 ^ 64.

(** ** Constants of [zpPackage.cpp] *)

Definition MIN_HASH_TABLE_SIZE : Z := 256.
Definition MAX_HASH_TABLE_SIZE : Z := 524288. (* 0x80000 *)
Definition HASH_SEED0 : Z := 31.
Definition HASH_SEED1 : Z := 131.
Definition HASH_SEED2 : Z := 1313.

(** ** Declarations of [zpPackage.h]

    The header file is not among the sources.  The constants it declares and
    the sizes of its two structures are taken as parameters. *)

Record Declarations := {
  sizeof_PackageHeader : Z;
  sizeof_FileEntry : Z;
  PACKAGE_FILE_SIGN : Z;
  CURRENT_VERSION : Z;
  FILE_FLAG_DELETED : Z;
  FLAG_REPLACE : Z
}.

(** Modelled from the spec: the fields of [PackageHeader], declared in
    [zpPackage.h].  Section 6 of the specification lists them; the widths
    follow the way [zpPackage.cpp] uses them (offsets meet [u64] locals,
    counts and sizes meet [u32] ones). *)
Record PackageHeader := mkPackageHeader {
  sign : Z;            (* u32 *)
  version : Z;         (* u32 *)
  headerSize : Z;      (* u32 *)
  fileEntryOffset : Z; (* u64 *)
  fileEntrySize : Z;   (* u32 *)
  fileCount : Z;       (* u32 *)
  filenameOffset : Z;  (* u64 *)
  filenameSize : Z     (* u32 *)
}.

(** Modelled from the spec: the fields of [FileEntry], declared in
    [zpPackage.h]: three 32-bit name hashes, 32-bit flags, a byte offset
    ([u64], as the locals [lastEnd], [nextOffset] and [nextPos] that receive
    it) and a byte length ([u32], as the cast in [addFile]). *)
Record FileEntry := mkFileEntry {
  hash0 : Z;
  hash1 : Z;
  hash2 : Z;
  flag : Z;
  byteOffset : Z;
  fileSize : Z
}.

Definition set_byteOffset (e : FileEntry) (v : Z) : FileEntry :=
  mkFileEntry (hash0 e) (hash1 e) (hash2 e) (flag e) v (fileSize e).
Definition set_flag (e : FileEntry) (v : Z) : FileEntry :=
  mkFileEntry (hash0 e) (hash1 e) (hash2 e) v (byteOffset e) (fileSize e).

Definition set_fileEntryOffset (h : PackageHeader) (v : Z) : PackageHeader :=
  mkPackageHeader (sign h) (version h) (headerSize h) v (fileEntrySize h)
                  (fileCount h) (filenameOffset h) (filenameSize h).
Definition set_fileCount (h : PackageHeader) (v : Z) : PackageHeader :=
  mkPackageHeader (sign h) (version h) (headerSize h) (fileEntryOffset h)
                  (fileEntrySize h) v (filenameOffset h) (filenameSize h).
Definition set_filenameOffset (h : PackageHeader) (v : Z) : PackageHeader :=
  mkPackageHeader (sign h) (version h) (headerSize h) (fileEntryOffset h)
                  (fileEntrySize h) (fileCount h) v (filenameSize h).
Definition set_filenameSize (h : PackageHeader) (v : Z) : PackageHeader :=
  mkPackageHeader (sign h) (version h) (headerSize h) (fileEntryOffset h)
                  (fileEntrySize h) (fileCount h) (filenameOffset h) v.

(** ** The members of [Package] *)

Record Package := mkPackage {
  m_stream_is_open : bool;
  m_readonly : bool;
  m_dirty : bool;
  m_header : PackageHeader;
  m_fileEntries : list FileEntry;
  m_filenames : list string;
  m_hashTable : list Z
}.

Definition with_stream (p : Package) (b : bool) : Package :=
  mkPackage b (m_readonly p) (m_dirty p) (m_header p) (m_fileEntries p)
            (m_filenames p) (m_hashTable p).
Definition with_readonly (p : Package) (b : bool) : Package :=
  mkPackage (m_stream_is_open p) b (m_dirty p) (m_header p) (m_fileEntries p)
            (m_filenames p) (m_hashTable p).
Definition with_dirty (p : Package) (b : bool) : Package :=
  mkPackage (m_stream_is_open p) (m_readonly p) b (m_header p)
            (m_fileEntries p) (m_filenames p) (m_hashTable p).
Definition with_header (p : Package) (h : PackageHeader) : Package :=
  mkPackage (m_stream_is_open p) (m_readonly p) (m_dirty p) h
            (m_fileEntries p) (m_filenames p) (m_hashTable p).
Definition with_fileEntries (p : Package) (es : list FileEntry) : Package :=
  mkPackage (m_stream_is_open p) (m_readonly p) (m_dirty p) (m_header p) es
            (m_filenames p) (m_hashTable p).
Definition with_filenames (p : Package) (ns : list string) : Package :=
  mkPackage (m_stream_is_open p) (m_readonly p) (m_dirty p) (m_header p)
            (m_fileEntries p) ns (m_hashTable p).
Definition with_hashTable (p : Package) (t : list Z) : Package :=
  mkPackage (m_stream_is_open p) (m_readonly p) (m_dirty p) (m_header p)
            (m_fileEntries p) (m_filenames p) t.

(** ** Calls that may fail to return *)

Inductive fault : Type :=
| DivisionByZero  (* [x % 0] *)
| OutOfRange      (* a vector or iterator used outside its range *)
| Diverges.       (* a loop that is never left *)

Inductive outcome (A : Type) : Type :=
| Done (a : A)
| Fault (f : fault).
Arguments Done {A} a.
Arguments Fault {A} f.

Global Instance outcome_ret : MRet outcome := fun A a => Done a.
Global Instance outcome_bind : MBind outcome := fun A B k c =>
  match c with
  | Done a => k a
  | Fault f => Fault f
  end.

Definition returns {A : Type} (c : outcome A) : Prop := exists a, c = Done a.

(** ** What the constructor reads from the stream

    [a_tellg_end] is the stream position after seeking to the end,
    [a_header] the bytes at offset 0 read as a [PackageHeader],
    [a_fileEntry i] the [i]-th record the loop of [readFileEntries] reads,
    and [a_getline i] the [i]-th line [readFilenames] reads. *)
Record Archive := mkArchive {
  a_is_open : bool;
  a_tellg_end : Z;
  a_header : PackageHeader;
  a_fileEntry : Z -> FileEntry;
  a_getline : Z -> string
}.

(** ** [Package::stringHash] *)

Definition tolower (c : Z) : Z :=
  if (65 <=? c) && (c <=? 90) then c + 32 else c.

Fixpoint stringHash_loop (out : Z) (str : string) (seed : Z) : Z :=
  match str with
  | EmptyString => out
  | String c rest =>
      let ch := Z.of_N (Ascii.N_of_ascii c) in
      if ch =? 0 then out
      else stringHash_loop (wrap32 (out * seed + tolower ch)) rest seed
  end.

Definition stringHash (str : string) (seed : Z) : Z := stringHash_loop 0 str seed.

(** The [std::string] built from a [const char*]: the characters before the
    first NUL. *)
Fixpoint c_str (s : string) : string :=
  match s with
  | EmptyString => EmptyString
  | String c rest =>
      if Z.of_N (Ascii.N_of_ascii c) =? 0 then EmptyString else String c (c_str rest)
  end.

(** ** The operations of [Package] *)

Section Operations.

Context (D : Declarations).

(** [(entry.flag & FILE_FLAG_DELETED) != 0] *)
Definition isDeleted (e : FileEntry) : bool :=
  negb (Z.land (flag e) (FILE_FLAG_DELETED D) =? 0).

(** [if (++index >= size) index = 0;] on a [u32] index. *)
Definition nextSlot (size index : Z) : Z :=
  let index' := wrap32 (index + 1) in
  if index' >=? size then 0 else index'.

(** *** [Package::getFileIndex] *)

Definition hashesMatch (e : FileEntry) (h0 h1 h2 : Z) : bool :=
  (hash0 e =? h0) && (hash1 e =? h1) && (hash2 e =? h2).

(** The [while (fileIndex >= 0)] loop, entered with the slot [hashIndex]
    about to be read.  The fuel is the number of slots: a walk that has read
    every slot without leaving reads the same slots again for ever. *)
Fixpoint getFileIndex_loop (fuel : nat) (table : list Z) (es : list FileEntry)
    (h0 h1 h2 : Z) (hashIndex : Z) : outcome Z :=
  match fuel with
  | O => Fault Diverges
  | S fuel' =>
      match table !! Z.to_nat hashIndex with
      | None => Fault OutOfRange
      | Some fileIndex =>
          if fileIndex <? 0 then Done (-1)
          else
            match es !! Z.to_nat fileIndex with
            | None => Fault OutOfRange
            | Some entry =>
                if hashesMatch entry h0 h1 h2 then
                  if isDeleted entry then Done (-1) else Done fileIndex
                else
                  getFileIndex_loop fuel' table es h0 h1 h2
                    (nextSlot (Z.of_nat (length table)) hashIndex)
            end
      end
  end.

Definition getFileIndex (p : Package) (filename : string) : outcome Z :=
  let h0 := stringHash filename HASH_SEED0 in
  let h1 := stringHash filename HASH_SEED1 in
  let h2 := stringHash filename HASH_SEED2 in
  let size := Z.of_nat (length (m_hashTable p)) in
  if size =? 0 then Fault DivisionByZero
  else
    getFileIndex_loop (length (m_hashTable p)) (m_hashTable p) (m_fileEntries p)
      h0 h1 h2 (h0 mod size).

(** *** [Package::fixHashTable] *)

Definition fixHashTable (index : Z) (table : list Z) : list Z :=
  (fun v => if v >=? index then v + 1 else v) <$> table.

(** *** [Package::insertFile] *)

(** The gap scan: [Some (fileIndex, lastEnd)] when the loop reaches the
    splice, [None] when it runs to the end of the table. *)
Fixpoint insertFile_scan (es : list FileEntry) (fileIndex : nat)
    (lastEnd size : Z) : option (nat * Z) :=
  match es with
  | [] => None
  | thisEntry :: rest =>
      if isDeleted thisEntry then insertFile_scan rest (S fileIndex) lastEnd size
      else if wrap64 (byteOffset thisEntry - lastEnd) >=? size
           then Some (fileIndex, lastEnd)
           else insertFile_scan rest (S fileIndex)
                  (wrap64 (byteOffset thisEntry + fileSize thisEntry)) size
  end.

(** [v.insert(v.begin() + i, x)] *)
Definition vector_insert {A : Type} (i : nat) (x : A) (v : list A) : outcome (list A) :=
  if (i <=? length v)%nat then Done (take i v ++ x :: drop i v)
  else Fault OutOfRange.

(** Returns the package and the entry as [insertFile] leaves it (the entry
    is passed by reference and receives its [byteOffset]). *)
Definition insertFile (p : Package) (entry : FileEntry) (filename : string)
    : outcome (Package * FileEntry) :=
  match insertFile_scan (m_fileEntries p) 0 (headerSize (m_header p)) (fileSize entry) with
  | Some (fileIndex, lastEnd) =>
      let entry' := set_byteOffset entry lastEnd in
      es ← vector_insert fileIndex entry' (m_fileEntries p);
      ns ← vector_insert fileIndex (c_str filename) (m_filenames p);
      let p1 := with_filenames (with_fileEntries p es) ns in
      Done (with_hashTable p1 (fixHashTable (Z.of_nat fileIndex) (m_hashTable p1)), entry')
  | None =>
      let entry' :=
        match last (m_fileEntries p) with
        | None => set_byteOffset entry (sizeof_PackageHeader D)
        | Some l => set_byteOffset entry (wrap64 (byteOffset l + fileSize l))
        end in
      let p1 := with_filenames (with_fileEntries p (m_fileEntries p ++ [entry']))
                  (m_filenames p ++ [c_str filename]) in
      let h := set_fileEntryOffset (m_header p1)
                 (wrap64 (byteOffset entry' + fileSize entry')) in
      Done (with_header p1 h, entry')
  end.

(** *** [Package::removeFile] *)

Definition recountFilenameOffset (h : PackageHeader) : PackageHeader :=
  set_filenameOffset h (wrap64 (fileEntryOffset h + sizeof_FileEntry D * fileCount h)).

(** [entry.flag |= FILE_FLAG_DELETED] *)
Definition markDeleted (e : FileEntry) : FileEntry :=
  set_flag e (Z.lor (flag e) (FILE_FLAG_DELETED D)).

Definition removeFile (p : Package) (filename : string) : outcome (bool * Package) :=
  if m_readonly p then Done (false, p)
  else
    fileIndex ← getFileIndex p filename;
    if fileIndex <? 0 then Done (false, p)
    else
      let es := alter markDeleted (Z.to_nat fileIndex) (m_fileEntries p) in
      let h := set_fileCount (m_header p) (wrap32 (fileCount (m_header p) - 1)) in
      Done (true, with_dirty (with_header (with_fileEntries p es)
                                (recountFilenameOffset h)) true).

(** *** [Package::addFile]

    [source] is what opening [externalFilename] gives: [None] when the
    stream does not open, [Some n] when it does and [tellg] at its end is
    [n]. *)
Definition addFile (p : Package) (source : option Z) (filename : string)
    (flags : Z) : outcome (bool * Package) :=
  if m_readonly p then Done (false, p)
  else
    match source with
    | None => Done (false, p)
    | Some n =>
        fileIndex ← getFileIndex p filename;
        r ← (if fileIndex >=? 0 then
               if Z.land flags (FLAG_REPLACE D) =? 0 then Done None
               else '(_, p1) ← removeFile p filename; Done (Some p1)
             else Done (Some p));
        match r with
        | None => Done (false, p)
        | Some p1 =>
            let entry :=
              mkFileEntry (stringHash filename HASH_SEED0)
                          (stringHash filename HASH_SEED1)
                          (stringHash filename HASH_SEED2)
                          0 0 (wrap32 n) in
            '(p2, _) ← insertFile p1 entry filename;
            let h := set_fileCount (m_header p2) (wrap32 (fileCount (m_header p2) + 1)) in
            Done (true, with_dirty (with_header p2 (recountFilenameOffset h)) true)
        end
    end.

(** *** [Package::buildHashTable] *)

(** The first loop.  [Done None] is [return false].  A [u32] is zero after
    32 doublings and stays zero, so 34 rounds that do not leave the loop
    mean that it is never left. *)
Fixpoint growTableSize (fuel : nat) (tableSize count : Z) : outcome (option Z) :=
  match fuel with
  | O => Fault Diverges
  | S fuel' =>
      if tableSize <? count then
        if tableSize >=? MAX_HASH_TABLE_SIZE then Done None
        else growTableSize fuel' (wrap32 (tableSize * 2)) count
      else Done (Some tableSize)
  end.

(** [while (m_hashTable[index] != -1) { if (++index >= tableSize) index = 0; }] *)
Fixpoint probeEmpty (fuel : nat) (table : list Z) (index : Z) : outcome Z :=
  match fuel with
  | O => Fault Diverges
  | S fuel' =>
      match table !! Z.to_nat index with
      | None => Fault OutOfRange
      | Some v =>
          if v =? -1 then Done index
          else probeEmpty fuel' table (nextSlot (Z.of_nat (length table)) index)
      end
  end.

(** The second loop: [n] rounds, starting at entry index [i]. *)
Fixpoint fillHashTable (es : list FileEntry) (n : nat) (i : Z) (table : list Z)
    : outcome (list Z) :=
  match n with
  | O => Done table
  | S n' =>
      match es !! Z.to_nat i with
      | None => Fault OutOfRange
      | Some e =>
          index ← probeEmpty (length table) table
                    (hash0 e mod Z.of_nat (length table));
          fillHashTable es n' (i + 1) (<[Z.to_nat index := i]> table)
      end
  end.

Definition buildHashTable (p : Package) : outcome (bool * Package) :=
  let count := fileCount (m_header p) in
  r ← growTableSize 34 (MIN_HASH_TABLE_SIZE / 2) count;
  match r with
  | None => Done (false, p)
  | Some half =>
      let tableSize := wrap32 (half * 2) in
      let table := replicate (Z.to_nat tableSize) (-1) in
      t ← fillHashTable (m_fileEntries p) (Z.to_nat count) 0 table;
      Done (true, with_hashTable p t)
  end.

(** *** [Package::flush] *)

(** The loop over [m_fileEntries] with the parallel iterator on
    [m_filenames]: erasing or stepping the name iterator at the end of the
    name table is out of range. *)
Fixpoint flush_entries (es : list FileEntry) (ns : list string)
    : outcome (list FileEntry * list string) :=
  match es with
  | [] => Done ([], ns)
  | entry :: es' =>
      match ns with
      | [] => Fault OutOfRange
      | name :: ns' =>
          '(es2, ns2) ← flush_entries es' ns';
          if isDeleted entry then Done (es2, ns2)
          else Done (entry :: es2, name :: ns2)
      end
  end.

Definition countFilenameSize (ns : list string) : Z :=
  fold_left (fun acc name => wrap32 (acc + wrap32 (wrap32 (Z.of_nat (String.length name)) + 1)))
            ns 0.

Definition flush (p : Package) : outcome Package :=
  if m_readonly p || negb (m_dirty p) then Done p
  else
    '(es, ns) ← flush_entries (m_fileEntries p) (m_filenames p);
    let h := set_filenameSize (m_header p) (countFilenameSize ns) in
    let p1 := with_header (with_filenames (with_fileEntries p es) ns) h in
    '(_, p2) ← buildHashTable p1;
    Done (with_dirty p2 false).

(** *** [Package::defrag] *)

(** The relocation loop; returns the entries and the final [nextPos]. *)
Fixpoint defrag_pack (es : list FileEntry) (nextPos : Z) : list FileEntry * Z :=
  match es with
  | [] => ([], nextPos)
  | entry :: rest =>
      let entry' := if negb (byteOffset entry =? nextPos)
                    then set_byteOffset entry nextPos else entry in
      let '(rest', endPos) := defrag_pack rest (wrap64 (nextPos + fileSize entry')) in
      (entry' :: rest', endPos)
  end.

(** [reopened] tells whether [fopen] on the package name succeeds. *)
Definition defrag (p : Package) (reopened : bool) : outcome (bool * Package) :=
  if m_readonly p || m_dirty p then Done (false, p)
  else
    let '(es, nextPos) := defrag_pack (m_fileEntries p) (headerSize (m_header p)) in
    let h := recountFilenameOffset (set_fileEntryOffset (m_header p) nextPos) in
    let p1 := with_dirty (with_header (with_fileEntries p es) h) true in
    p2 ← flush p1;
    if reopened then Done (true, with_stream p2 true)
    else Done (false, with_stream p2 false).

(** *** [Package::readHeader], [readFileEntries], [readFilenames] *)

Definition readHeader (a : Archive) (p : Package) : bool * Package :=
  let packageSize := a_tellg_end a in
  if packageSize <? sizeof_PackageHeader D then (false, p)
  else
    let h := a_header a in
    let p1 := with_header p h in
    if negb (sign h =? PACKAGE_FILE_SIGN D)
       || (headerSize h <? sizeof_PackageHeader D)
       || (fileEntrySize h <? sizeof_FileEntry D)
       || (fileEntryOffset h <? headerSize h)
       || (wrap64 (wrap32 (fileCount h * fileEntrySize h) + fileEntryOffset h) >? packageSize)
       || (wrap64 (filenameOffset h + filenameSize h) >? packageSize)
    then (false, p1)
    else if negb (version h =? CURRENT_VERSION D) then (true, with_readonly p1 true)
    else (true, p1).

(** A value-initialised [FileEntry], as [resize] makes them. *)
Definition zeroFileEntry : FileEntry := mkFileEntry 0 0 0 0 0 0.

(** The loop of [readFileEntries]: [n] rounds are left, the next record is
    the [i]-th.  Returns the result and the table as the loop leaves it. *)
Fixpoint readFileEntries_loop (a : Archive) (h : PackageHeader) (n : nat) (i : Z)
    (nextOffset : Z) : bool * list FileEntry :=
  match n with
  | O => (true, [])
  | S n' =>
      if nextOffset >=? fileEntryOffset h then (false, replicate n zeroFileEntry)
      else
        let entry := a_fileEntry a i in
        if byteOffset entry <? nextOffset then (false, entry :: replicate n' zeroFileEntry)
        else
          let '(ok, rest) :=
            readFileEntries_loop a h n' (i + 1) (wrap64 (byteOffset entry + fileSize entry)) in
          (ok, entry :: rest)
  end.

Definition readFileEntries (a : Archive) (p : Package) : bool * Package :=
  let h := m_header p in
  let '(ok, es) := readFileEntries_loop a h (Z.to_nat (fileCount h)) 0 (headerSize h) in
  (ok, with_fileEntries p es).

(** The loop of [readFilenames]: [n] rounds are left, the next line is the
    [i]-th. *)
Fixpoint readFilenames_loop (a : Archive) (n : nat) (i : Z) : list string :=
  match n with
  | O => []
  | S n' => a_getline a i :: readFilenames_loop a n' (i + 1)
  end.

Definition readFilenames (a : Archive) (p : Package) : bool * Package :=
  match m_fileEntries p with
  | [] => (true, p)
  | _ :: _ =>
      if m_readonly p then (true, p)
      else (true, with_filenames p
                    (readFilenames_loop a (length (m_fileEntries p)) 0))
  end.

(** *** [Package::Package] and the small accessors *)

(** The header before anything is read into it is indeterminate; nothing
    below depends on the value chosen here. *)
Definition indeterminateHeader : PackageHeader := mkPackageHeader 0 0 0 0 0 0 0 0.

Definition Package_ctor (a : Archive) (readonly : bool) : outcome Package :=
  let p0 := mkPackage (a_is_open a) readonly false indeterminateHeader [] [] [] in
  if negb (a_is_open a) then Done p0
  else
    let '(ok1, p1) := readHeader a p0 in
    if negb ok1 then Done (with_stream p1 false)
    else
      let '(ok2, p2) := readFileEntries a p1 in
      if negb ok2 then Done (with_stream p2 false)
      else
        let '(_, p3) := readFilenames a p2 in
        '(_, p4) ← buildHashTable p3;
        Done p4.

Definition valid (p : Package) : bool := m_stream_is_open p.

Definition dirty (p : Package) : bool := m_dirty p.

Definition hasFile (p : Package) (filename : string) : outcome bool :=
  if m_dirty p then Done false
  else fileIndex ← getFileIndex p filename; Done (fileIndex >=? 0).

(** [openFile] returns a [File] on the stream; of that object the model
    keeps the window [(byteOffset, fileSize)] it is made with. *)
Definition openFile (p : Package) (filename : string) : outcome (option (Z * Z)) :=
  if m_dirty p then Done None
  else
    fileIndex ← getFileIndex p filename;
    if fileIndex <? 0 then Done None
    else
      match m_fileEntries p !! Z.to_nat fileIndex with
      | None => Fault OutOfRange
      | Some entry => Done (Some (byteOffset entry, fileSize entry))
      end.

Definition getFileCount (p : Package) : Z := wrap32 (Z.of_nat (length (m_fileEntries p))).

(** *** [Package::getFilenameByIndex]

    The buffer is taken to be [bufferSize] bytes long, as the caller says it
    is; a write past that length is out of range.  Of the buffer the model
    keeps the C string it holds when the call returns. *)

(** [strncpy(buffer, src, n); buffer[n] = 0;], read back up to the first
    NUL. *)
Fixpoint strncpy (n : nat) (src : string) : string :=
  match n, src with
  | O, _ => EmptyString
  | S _, EmptyString => EmptyString
  | S n', String c rest =>
      if Z.of_N (Ascii.N_of_ascii c) =? 0 then EmptyString
      else String c (strncpy n' rest)
  end.

Definition getFilenameByIndex (p : Package) (bufferSize index : Z)
    : outcome (bool * string) :=
  if index <? Z.of_nat (length (m_filenames p)) then
    match m_filenames p !! Z.to_nat index with
    | None => Fault OutOfRange
    | Some name =>
        (* [bufferSize - 1] is 0xFFFFFFFF when [bufferSize] is 0 *)
        if bufferSize =? 0 then Fault OutOfRange
        else Done (true, strncpy (Z.to_nat (wrap32 (bufferSize - 1))) name)
    end
  else
    (* [buffer[0] = 0] *)
    if bufferSize =? 0 then Fault OutOfRange
    else Done (false, EmptyString).

(** *** [Package::countFragmentSize] *)

(** The loop over the entry table; returns [bytesToMove], [nextPos] and
    [totalSize] as the loop leaves them. *)
Fixpoint countFragmentSize_loop (es : list FileEntry) (moving : bool)
    (bytesToMove nextPos totalSize : Z) : Z * Z * Z :=
  match es with
  | [] => (bytesToMove, nextPos, totalSize)
  | entry :: rest =>
      let moving' :=
        if negb moving && negb (byteOffset entry =? nextPos) then true else moving in
      let bytesToMove' :=
        if moving' then wrap64 (bytesToMove + fileSize entry) else bytesToMove in
      countFragmentSize_loop rest moving' bytesToMove'
        (wrap64 (nextPos + fileSize entry)) (wrap64 (totalSize + fileSize entry))
  end.

(** [currentSize] is the position of the stream after seeking to its end.
    Returns the result and [bytesToMove]. *)
Definition countFragmentSize (p : Package) (currentSize : Z) : Z * Z :=
  if m_dirty p then (0, 0)
  else
    let h := m_header p in
    let tables := wrap32 (wrap32 (fileCount h * fileEntrySize h) + filenameSize h) in
    let '(bytesToMove, nextPos, totalSize) :=
      countFragmentSize_loop (m_fileEntries p) false 0 (headerSize h)
        (wrap32 (headerSize h + wrap32 (fileCount h * fileEntrySize h) + filenameSize h)) in
    let bytesToMove' :=
      if (bytesToMove >? 0) || negb (nextPos =? fileEntryOffset h)
      then wrap64 (bytesToMove + tables) else bytesToMove in
    (wrap64 (currentSize - totalSize), bytesToMove').

End Operations.


(** * Notions the properties are stated with *)

(** The slot a probe chain that starts at [start] reads in its [k]-th round. *)
Definition slotAt (size start : Z) (k : nat) : Z := (start + Z.of_nat k) mod size.

(** Number of slots of a hash table that hold an entry index. *)
Fixpoint occupied (table : list Z) : nat :=
  match table with
  | [] => O
  | v :: rest => if v =? -1 then occupied rest else S (occupied rest)
  end.

Definition entryEnd (e : FileEntry) : Z := byteOffset e + fileSize e.

Section Notions.

Context (D : Declarations).

(** A slot of the chain that the walk steps over: occupied, by an entry whose
    hashes differ from the query's. *)
Definition steppedOver (table : list Z) (es : list FileEntry) (h0 h1 h2 slot : Z) : Prop :=
  exists fileIndex entry,
    table !! Z.to_nat slot = Some fileIndex /\ 0 <= fileIndex /\
    es !! Z.to_nat fileIndex = Some entry /\ hashesMatch entry h0 h1 h2 = false.

(** *** Live entries and the gap scan *)

Definition liveEntries (es : list FileEntry) : list FileEntry :=
  filter (fun e => isDeleted D e = false) es.

(** The names of the live entries, for a name table read in step with the
    entry table. *)
Fixpoint liveNames (es : list FileEntry) (ns : list string) : list string :=
  match es, ns with
  | e :: es', n :: ns' =>
      if isDeleted D e then liveNames es' ns' else n :: liveNames es' ns'
  | _, _ => []
  end.

(** [lastEnd] once the scan of [insertFile] has passed the entries [pre]:
    the end of the last live one, or [start] when none of them is live. *)
Definition lastEndAfter (start : Z) (pre : list FileEntry) : Z :=
  match last (liveEntries pre) with
  | Some l => wrap64 (byteOffset l + fileSize l)
  | None => start
  end.

(** The entry at index [k] is live and the gap in front of it takes [size]
    bytes. *)
Definition fitsAt (start size : Z) (es : list FileEntry) (k : nat) : bool :=
  match es !! k with
  | Some e =>
      negb (isDeleted D e)
      && (size <=? wrap64 (byteOffset e - lastEndAfter start (take k es)))
  | None => false
  end.

(** The hash index is the one [buildHashTable] builds from the entry table
    and the entry count as they are. *)
Definition indexCurrent (p : Package) : Prop :=
  buildHashTable p = Done (true, p).

(** The package as the three readers of the constructor leave it, before
    the hash table is built. *)
Definition initialPackage (a : Archive) (readonly : bool) : Package :=
  mkPackage (a_is_open a) readonly false indeterminateHeader [] [] [].
Definition afterHeader (a : Archive) (readonly : bool) : bool * Package :=
  readHeader D a (initialPackage a readonly).
Definition afterEntries (a : Archive) (readonly : bool) : bool * Package :=
  readFileEntries a (snd (afterHeader a readonly)).
Definition afterNames (a : Archive) (readonly : bool) : Package :=
  snd (readFilenames a (snd (afterEntries a readonly))).

(** The three readers accept the archive. *)
Definition loads (a : Archive) (readonly : bool) : bool :=
  a_is_open a && fst (afterHeader a readonly) && fst (afterEntries a readonly).

(** The hash index can be walked: it has slots, at least one of them free,
    and every index it holds is inside the entry table. *)
Definition indexUsable (p : Package) : Prop :=
  0 < Z.of_nat (length (m_hashTable p)) <= 2 ^ 32
  /\ (occupied (m_hashTable p) < length (m_hashTable p))%nat
  /\ Forall (fun v => v < Z.of_nat (length (m_fileEntries p))) (m_hashTable p).

(** *** Layout of the entry table *)

(** The fields of an entry are in the range of their types, and the end of
    its byte range is a [u64]. *)
Definition inRange (e : FileEntry) : Prop :=
  0 <= byteOffset e /\ 0 <= fileSize e /\ entryEnd e < 2 ^ 64.

Definition allBefore (a b : FileEntry) : Prop := entryEnd a <= byteOffset b.

Definition liveBefore (a b : FileEntry) : Prop :=
  isDeleted D a = false -> isDeleted D b = false -> entryEnd a <= byteOffset b.

(** [e'] lies where [e] does, and is live only if [e] is. *)
Definition sameExtent (e e' : FileEntry) : Prop :=
  byteOffset e' = byteOffset e /\ fileSize e' = fileSize e
  /\ (isDeleted D e' = false -> isDeleted D e = false).

(** Where [insertFile] appends. *)
Definition tableEnd (es : list FileEntry) : Z :=
  match last es with
  | Some l => entryEnd l
  | None => sizeof_PackageHeader D
  end.

(** The header is as large as [PackageHeader], and no entry reaches past
    the range of a [u64]. *)
Definition wellSized (p : Package) : Prop :=
  headerSize (m_header p) = sizeof_PackageHeader D
  /\ 0 <= headerSize (m_header p)
  /\ Forall inRange (m_fileEntries p).

(** The layout every operation keeps: a live entry ends at or before the
    offset of every live entry behind it, no entry begins inside the header,
    and no live entry ends past the place where [insertFile] appends. *)
Definition layoutCore (hs : Z) (es : list FileEntry) : Prop :=
  StronglySorted liveBefore es
  /\ Forall (fun e => hs <= byteOffset e) es
  /\ Forall (fun e => isDeleted D e = false -> entryEnd e <= tableEnd es) es.

(** Between a mutation and the next [flush] only the live entries are in
    order; a package that is not dirty has its whole table in order. *)
Definition layoutInv (p : Package) : Prop :=
  layoutCore (headerSize (m_header p)) (m_fileEntries p)
  /\ (m_dirty p = false -> StronglySorted allBefore (m_fileEntries p)).

(** [m_fileEntries[i].byteOffset <= m_fileEntries[j].byteOffset] for all
    [i < j]. *)
Definition sortedByOffset (es : list FileEntry) : Prop :=
  forall (i j : nat) (ei ej : FileEntry),
    (i < j)%nat -> es !! i = Some ei -> es !! j = Some ej ->
    byteOffset ei <= byteOffset ej.

(** The same, for the live entries only. *)
Definition liveSortedByOffset (es : list FileEntry) : Prop :=
  forall (i j : nat) (ei ej : FileEntry),
    (i < j)%nat -> es !! i = Some ei -> es !! j = Some ej ->
    isDeleted D ei = false -> isDeleted D ej = false ->
    byteOffset ei <= byteOffset ej.

(** Some byte lies in both [[offset, offset + size)] ranges. *)
Definition rangesOverlap (a b : FileEntry) : Prop :=
  exists x, (byteOffset a <= x < entryEnd a) /\ (byteOffset b <= x < entryEnd b).

Definition liveDisjoint (es : list FileEntry) : Prop :=
  forall (i j : nat) (ei ej : FileEntry),
    i <> j -> es !! i = Some ei -> es !! j = Some ej ->
    isDeleted D ei = false -> isDeleted D ej = false ->
    ~ rangesOverlap ei ej.

(** *** Names *)

(** [n] is a name of [e]: the three hashes of [n] are the ones [e] stores. *)
Definition named (e : FileEntry) (n : string) : Prop :=
  hash0 e = stringHash n HASH_SEED0
  /\ hash1 e = stringHash n HASH_SEED1
  /\ hash2 e = stringHash n HASH_SEED2.

(** Every record of the archive stores the hashes of the line that names
    it. *)
Definition archiveNamed (a : Archive) : Prop :=
  forall i, 0 <= i -> named (a_fileEntry a i) (a_getline a i).

(** A relation between entries and names that the changes the operations
    make to an entry leave alone, and that a new entry has with the name it
    is added under. *)
Record Pairing (R : FileEntry -> string -> Prop) : Prop := {
  pairing_markDeleted : forall e n, R e n -> R (markDeleted D e) n;
  pairing_set_byteOffset : forall e n v, R e n -> R (set_byteOffset e v) n;
  pairing_new : forall filename v s,
    R (mkFileEntry (stringHash filename HASH_SEED0) (stringHash filename HASH_SEED1)
         (stringHash filename HASH_SEED2) 0 v s) (c_str filename)
}.

(** The name table against the entry table: index by index in [R] on a
    writable package, empty on a read-only one. *)
Definition namesInv (R : FileEntry -> string -> Prop) (p : Package) : Prop :=
  (m_readonly p = false -> Forall2 R (m_fileEntries p) (m_filenames p))
  /\ (m_readonly p = true -> m_filenames p = []).

(** *** The points a caller can observe *)

Inductive Call : Type :=
| CallAddFile (source : option Z) (filename : string) (flags : Z)
| CallRemoveFile (filename : string)
| CallFlush
| CallDefrag (reopened : bool).

Definition call (c : Call) (p : Package) : outcome Package :=
  match c with
  | CallAddFile source filename flags =>
      '(_, p') ← addFile D p source filename flags; Done p'
  | CallRemoveFile filename => '(_, p') ← removeFile D p filename; Done p'
  | CallFlush => flush D p
  | CallDefrag reopened => '(_, p') ← defrag D p reopened; Done p'
  end.

(** The packages a caller can hold: the one a successful open returns, and
    the ones [addFile], [removeFile], [flush] and [defrag] return from
    there.  [ok] restricts the packages passed through. *)
Inductive reachable (ok : Package -> Prop) (a : Archive) (readonly : bool)
    : Package -> Prop :=
| reachable_open (p : Package) :
    Package_ctor D a readonly = Done p -> valid p = true -> ok p ->
    reachable ok a readonly p
| reachable_call (p : Package) (c : Call) (p' : Package) :
    reachable ok a readonly p -> call c p = Done p' -> ok p' ->
    reachable ok a readonly p'.

(** *** Packages on which every call returns *)

(** The header counts no more entries than the hash table takes. *)
Definition withinCapacity (p : Package) : Prop :=
  fileCount (m_header p) <= MAX_HASH_TABLE_SIZE.

(** The hash index can be walked, a writable package has a name for every
    entry, and the header counts the live entries. *)
Definition serviceable (p : Package) : Prop :=
  indexUsable p
  /\ (m_readonly p = false -> length (m_filenames p) = length (m_fileEntries p))
  /\ fileCount (m_header p) = Z.of_nat (length (liveEntries (m_fileEntries p))).

(** The archive counts its entries with a [u32] and stores no tombstone. *)
Definition archiveClean (a : Archive) : Prop :=
  0 <= fileCount (a_header a)
  /\ forall i, isDeleted D (a_fileEntry a i) = false.

End Notions.

(** * Example archives and packages *)

(** Values for the declarations of [zpPackage.h], for the examples. *)
Definition exampleDecls : Declarations :=
  {| sizeof_PackageHeader := 40;
     sizeof_FileEntry := 32;
     PACKAGE_FILE_SIGN := 1262571610;
     CURRENT_VERSION := 1;
     FILE_FLAG_DELETED := 1;
     FLAG_REPLACE := 1 |}.

Definition entryNamed (n : string) (offset size : Z) : FileEntry :=
  mkFileEntry (stringHash n HASH_SEED0) (stringHash n HASH_SEED1)
              (stringHash n HASH_SEED2) 0 offset size.

Definition packageOf (c : outcome Package) : Package :=
  match c with
  | Done p => p
  | Fault _ => mkPackage false false false indeterminateHeader [] [] []
  end.

(** An archive without entries. *)
Definition emptyArchive : Archive :=
  mkArchive true 40 (mkPackageHeader 1262571610 1 40 40 32 0 40 0)
    (fun _ => zeroFileEntry) (fun _ => EmptyString).

(** An archive without entries whose header says that it is 100 bytes
    long. *)
Definition paddedArchive : Archive :=
  mkArchive true 100 (mkPackageHeader 1262571610 1 100 100 32 0 100 0)
    (fun _ => zeroFileEntry) (fun _ => EmptyString).

(** Three files of ten bytes, "a" at 40, "cd" at 60 and "b" at 80, with
    ten free bytes after the first and after the second.  The names "a" and
    "cd" meet in slot 97 of a table of 256 slots. *)
Definition exampleArchive : Archive :=
  mkArchive true 203 (mkPackageHeader 1262571610 1 40 100 32 3 196 7)
    (fun i => if i =? 0 then entryNamed "a" 40 10
              else if i =? 1 then entryNamed "cd" 60 10
              else entryNamed "b" 80 10)
    (fun i => if i =? 0 then "a" else if i =? 1 then "cd" else "b").

Definition exampleOpened : Package :=
  Eval vm_compute in packageOf (Package_ctor exampleDecls exampleArchive false).

Definition exampleReadonly : Package :=
  Eval vm_compute in packageOf (Package_ctor exampleDecls exampleArchive true).

(** "cd" removed, then five bytes added as "n", with no flush. *)
Definition exampleRemovedCd : Package :=
  Eval vm_compute in
    packageOf (call exampleDecls (CallRemoveFile "cd") exampleOpened).
Definition exampleSpliced : Package :=
  Eval vm_compute in
    packageOf (call exampleDecls (CallAddFile (Some 5) "n" 0) exampleRemovedCd).

(** "a" removed, with no flush. *)
Definition exampleRemovedA : Package :=
  Eval vm_compute in
    packageOf (call exampleDecls (CallRemoveFile "a") exampleOpened).

(** "b" removed, with no flush. *)
Definition exampleRemovedB : Package :=
  Eval vm_compute in
    packageOf (call exampleDecls (CallRemoveFile "b") exampleOpened).

(** A package read from an archive of 128 empty files at offset 40. *)
Definition example128 : Package :=
  mkPackage true false false (mkPackageHeader 1262571610 1 40 41 32 128 4137 256)
    (replicate 128 (entryNamed "f" 40 0)) (replicate 128 "f") [].

(** An archive of 524289 files of one byte. *)
Definition overfullArchive : Archive :=
  mkArchive true 18350155
    (mkPackageHeader 1262571610 1 40 524329 32 524289 17301577 1048578)
    (fun i => entryNamed "f" (40 + i) 1) (fun _ => "f").

(** The empty archive opened for writing, after [n] calls
    [addFile(source, "f", 0)] with an empty source file and no flush: [n]
    entries of no bytes at offset 40, and the hash table of the empty
    archive. *)
Definition emptyFilesAdded (n : nat) : Package :=
  mkPackage true false true
    (mkPackageHeader 1262571610 1 40 40 32 (Z.of_nat n) (40 + 32 * Z.of_nat n) 0)
    (replicate n (entryNamed "f" 40 0)) (replicate n "f") (replicate 256 (-1)).

(** With one entry more than [MAX_HASH_TABLE_SIZE]. *)
Definition overfullPackage : Package := emptyFilesAdded (Z.to_nat 524289).

(** The table [buildHashTable] builds for [example128]. *)
Definition example128Built : Package :=
  Eval vm_compute in
    match buildHashTable example128 with
    | Done (_, p) => p
    | Fault _ => example128
    end.

(** The empty archive opened for writing, and five bytes added twice under
    the name "a", with no flush; the second time also with the replace
    flag. *)
Definition emptyOpened : Package :=
  Eval vm_compute in packageOf (Package_ctor exampleDecls emptyArchive false).
Definition emptyAddedA : Package :=
  Eval vm_compute in
    packageOf (call exampleDecls (CallAddFile (Some 5) "a" 0) emptyOpened).
Definition emptyAddedTwice : Package :=
  Eval vm_compute in
    packageOf (call exampleDecls (CallAddFile (Some 5) "a" 0) emptyAddedA).
Definition emptyReplacedA : Package :=
  Eval vm_compute in
    packageOf (call exampleDecls (CallAddFile (Some 5) "a" 1) emptyAddedA).

(** The archive with the header of 100 bytes opened for writing, 200 bytes
    added as "a" and then 10 bytes as "b". *)
Definition paddedOpened : Package :=
  Eval vm_compute in packageOf (Package_ctor exampleDecls paddedArchive false).
Definition paddedAddedA : Package :=
  Eval vm_compute in
    packageOf (call exampleDecls (CallAddFile (Some 200) "a" 0) paddedOpened).
Definition paddedAddedB : Package :=
  Eval vm_compute in
    packageOf (call exampleDecls (CallAddFile (Some 10) "b" 0) paddedAddedA).

(** * Notions for the lookup, the index and the packed layout *)

(** ** Names up to the case of their letters *)

Definition lowerAscii (c : Ascii.ascii) : Ascii.ascii :=
  Ascii.ascii_of_N (Z.to_N (tolower (Z.of_N (Ascii.N_of_ascii c)))).

Fixpoint lower (s : string) : string :=
  match s with
  | EmptyString => EmptyString
  | String c rest => String (lowerAscii c) (lower rest)
  end.

(** ** The hash index *)

(** The index [i] sits in the probe chain of the hash [h]: at some round of
    the chain, behind slots that all hold smaller indices. *)
Definition placed (table : list Z) (h i : Z) : Prop :=
  exists k : nat,
    (k < length table)%nat
    /\ table !! Z.to_nat (slotAt (Z.of_nat (length table))
                            (h mod Z.of_nat (length table)) k) = Some i
    /\ forall k' : nat, (k' < k)%nat ->
         exists v, table !! Z.to_nat (slotAt (Z.of_nat (length table))
                                        (h mod Z.of_nat (length table)) k') = Some v
                   /\ 0 <= v < i.

(** The index an entry at index [i] has once [insertFile] has spliced a new
    entry in at index [k]. *)
Definition shifted (k i : Z) : Z := if i >=? k then i + 1 else i.

(** ** Packed entry tables *)

(** Each entry begins where the one before it ends, the first at [start]. *)
Fixpoint packed (start : Z) (es : list FileEntry) : Prop :=
  match es with
  | [] => True
  | e :: rest => byteOffset e = start /\ packed (start + fileSize e) rest
  end.

(** The bytes of all the files of the table. *)
Definition contentSize (es : list FileEntry) : Z :=
  foldr (fun e acc => fileSize e + acc) 0 es.

(** [e'] is [e] moved to another offset. *)
Definition relocated (e e' : FileEntry) : Prop :=
  hash0 e' = hash0 e /\ hash1 e' = hash1 e /\ hash2 e' = hash2 e
  /\ flag e' = flag e /\ fileSize e' = fileSize e.

(** ** What the open accepts *)

(** The [n] records of the archive from the [i]-th on. *)
Fixpoint recordsFrom (a : Archive) (n : nat) (i : Z) : list FileEntry :=
  match n with
  | O => []
  | S n' => a_fileEntry a i :: recordsFrom a n' (i + 1)
  end.

(** Every entry begins at or after [nextOffset], the end of the entry
    before it, and that end lies before [limit]. *)
Fixpoint chained (limit nextOffset : Z) (es : list FileEntry) : Prop :=
  match es with
  | [] => True
  | e :: rest =>
      nextOffset < limit /\ nextOffset <= byteOffset e
      /\ chained limit (wrap64 (byteOffset e + fileSize e)) rest
  end.

(** The stream is open and as long as a header, the header has the
    signature, sizes that are not below those of the two structures, an
    entry table behind the header and both tables inside the stream, and
    the records are chained from the end of the header to the entry
    table. *)
Definition accepted (D : Declarations) (a : Archive) : Prop :=
  let h := a_header a in
  a_is_open a = true
  /\ sizeof_PackageHeader D <= a_tellg_end a
  /\ sign h = PACKAGE_FILE_SIGN D
  /\ sizeof_PackageHeader D <= headerSize h
  /\ sizeof_FileEntry D <= fileEntrySize h
  /\ headerSize h <= fileEntryOffset h
  /\ wrap64 (wrap32 (fileCount h * fileEntrySize h) + fileEntryOffset h) <= a_tellg_end a
  /\ wrap64 (filenameOffset h + filenameSize h) <= a_tellg_end a
  /\ chained (fileEntryOffset h) (headerSize h)
       (recordsFrom a (Z.to_nat (fileCount h)) 0).

(** ** More example packages *)

(** The package after the splice, flushed. *)
Definition exampleFlushed : Package :=
  Eval vm_compute in packageOf (flush exampleDecls exampleSpliced).

(** The example archive, defragmented. *)
Definition exampleDefragged : Package :=
  Eval vm_compute in
    packageOf (call exampleDecls (CallDefrag true) exampleOpened).
(** * Properties *)

(** ** Arithmetic and list facts used throughout *)

Ltac unfold_with :=
  unfold with_stream, with_readonly, with_dirty, with_header, with_fileEntries,
         with_filenames, with_hashTable in *;
  simpl in *.

Lemma wrap32_small (z : Z) : 0 <= z < 2 ^ 32 -> wrap32 z = z.
Proof. intros H. unfold wrap32. apply Z.mod_small. exact H. Qed.

Lemma wrap64_small (z : Z) : 0 <= z < 2 ^ 64 -> wrap64 z = z.
Proof. intros H. unfold wrap64. apply Z.mod_small. exact H. Qed.

Lemma nextSlot_mod (size i : Z) :
  0 < size <= 2 ^ 32 -> 0 <= i < size -> nextSlot size i = (i + 1) mod size.
Proof.
  intros Hs Hi. unfold nextSlot.
  destruct (Z.eq_dec (i + 1) (2 ^ 32)) as [E|E].
  - assert (size = 2 ^ 32) by lia. subst size.
    rewrite E. unfold wrap32. rewrite Z.mod_same by lia.
    destruct (0 >=? 2 ^ 32) eqn:C; [lia | reflexivity].
  - rewrite wrap32_small by lia.
    destruct (i + 1 >=? size) eqn:C.
    + assert (i + 1 = size) as -> by lia. rewrite Z.mod_same by lia. reflexivity.
    + rewrite Z.mod_small by lia. reflexivity.
Qed.

Lemma nextSlot_range (size i : Z) :
  0 < size <= 2 ^ 32 -> 0 <= i < size -> 0 <= nextSlot size i < size.
Proof.
  intros Hs Hi. rewrite nextSlot_mod by assumption. apply Z.mod_pos_bound. lia.
Qed.

Lemma slotAt_0 (size start : Z) : 0 <= start < size -> slotAt size start 0 = start.
Proof. intros H. unfold slotAt. rewrite Z.add_0_r. apply Z.mod_small. exact H. Qed.

Lemma slotAt_S (size start : Z) (k : nat) :
  0 < size -> slotAt size start (S k) = slotAt size ((start + 1) mod size) k.
Proof.
  intros Hs. unfold slotAt. rewrite Z.add_mod_idemp_l by lia.
  f_equal. lia.
Qed.

Lemma slotAt_range (size start : Z) (k : nat) : 0 < size -> 0 <= slotAt size start k < size.
Proof. intros Hs. unfold slotAt. apply Z.mod_pos_bound. exact Hs. Qed.

Section Lookup.

Context (D : Declarations).

Lemma getFileIndex_loop_match (table : list Z) (es : list FileEntry) (h0 h1 h2 : Z)
    (k : nat) : forall (fuel : nat) (start fileIndex : Z) (entry : FileEntry),
  0 < Z.of_nat (length table) <= 2 ^ 32 ->
  0 <= start < Z.of_nat (length table) ->
  (k < fuel)%nat ->
  (forall j, (j < k)%nat ->
     steppedOver table es h0 h1 h2 (slotAt (Z.of_nat (length table)) start j)) ->
  table !! Z.to_nat (slotAt (Z.of_nat (length table)) start k) = Some fileIndex ->
  0 <= fileIndex ->
  es !! Z.to_nat fileIndex = Some entry ->
  hashesMatch entry h0 h1 h2 = true ->
  getFileIndex_loop D fuel table es h0 h1 h2 start
  = Done (if isDeleted D entry then -1 else fileIndex).
Proof.
  induction k as [|k IH]; intros fuel start fileIndex entry Hsz Hst Hfuel Hpre Hslot Hfi He Hm.
  - destruct fuel as [|fuel]; [lia|]. simpl.
    rewrite slotAt_0 in Hslot by assumption. rewrite Hslot.
    destruct (fileIndex <? 0) eqn:C; [lia|].
    rewrite He, Hm. destruct (isDeleted D entry); reflexivity.
  - destruct fuel as [|fuel]; [lia|]. simpl.
    destruct (Hpre 0%nat ltac:(lia)) as (fi0 & e0 & H0 & Hfi0 & He0 & Hm0).
    rewrite slotAt_0 in H0 by assumption. rewrite H0.
    destruct (fi0 <? 0) eqn:C; [lia|].
    rewrite He0, Hm0.
    rewrite nextSlot_mod by assumption.
    apply IH; try assumption.
    + apply Z.mod_pos_bound. lia.
    + lia.
    + intros j Hj. rewrite <- slotAt_S by lia. apply Hpre. lia.
    + rewrite <- slotAt_S by lia. exact Hslot.
Qed.

Lemma getFileIndex_loop_empty (table : list Z) (es : list FileEntry) (h0 h1 h2 : Z)
    (k : nat) : forall (fuel : nat) (start v : Z),
  0 < Z.of_nat (length table) <= 2 ^ 32 ->
  0 <= start < Z.of_nat (length table) ->
  (k < fuel)%nat ->
  (forall j, (j < k)%nat ->
     steppedOver table es h0 h1 h2 (slotAt (Z.of_nat (length table)) start j)) ->
  table !! Z.to_nat (slotAt (Z.of_nat (length table)) start k) = Some v ->
  v < 0 ->
  getFileIndex_loop D fuel table es h0 h1 h2 start = Done (-1).
Proof.
  induction k as [|k IH]; intros fuel start v Hsz Hst Hfuel Hpre Hslot Hv.
  - destruct fuel as [|fuel]; [lia|]. simpl.
    rewrite slotAt_0 in Hslot by assumption. rewrite Hslot.
    destruct (v <? 0) eqn:C; [reflexivity | lia].
  - destruct fuel as [|fuel]; [lia|]. simpl.
    destruct (Hpre 0%nat ltac:(lia)) as (fi0 & e0 & H0 & Hfi0 & He0 & Hm0).
    rewrite slotAt_0 in H0 by assumption. rewrite H0.
    destruct (fi0 <? 0) eqn:C; [lia|].
    rewrite He0, Hm0.
    rewrite nextSlot_mod by assumption.
    apply (IH fuel _ v); try assumption.
    + apply Z.mod_pos_bound. lia.
    + lia.
    + intros j Hj. rewrite <- slotAt_S by lia. apply Hpre. lia.
    + rewrite <- slotAt_S by lia. exact Hslot.
Qed.

End Lookup.

(** ** Building the hash table *)

Section HashTableBuild.

Context (D : Declarations).

(** The candidate size runs through the powers of two from [2^7] on; the loop
    is left with the first one that is at least [count], or with [return
    false] once [2^19] is too small. *)
Lemma growTableSize_pow2 (count : Z) : forall (fuel : nat) (k : Z),
  7 <= k <= 19 ->
  (Z.to_nat (19 - k) < fuel)%nat ->
  k = 7 \/ 2 ^ (k - 1) < count ->
  (MAX_HASH_TABLE_SIZE < count /\ growTableSize fuel (2 ^ k) count = Done None)
  \/ (exists k', k <= k' <= 19
        /\ growTableSize fuel (2 ^ k) count = Done (Some (2 ^ k'))
        /\ count <= 2 ^ k' /\ (k' = 7 \/ 2 ^ (k' - 1) < count)).
Proof.
  induction fuel as [|fuel IH]; intros k Hk Hfuel Hprev; [lia|].
  simpl. destruct (2 ^ k <? count) eqn:Hlt.
  - apply Z.ltb_lt in Hlt.
    destruct (2 ^ k >=? MAX_HASH_TABLE_SIZE) eqn:Hmax.
    + left. unfold MAX_HASH_TABLE_SIZE in *. split; [lia | reflexivity].
    + assert (k < 19) as Hk19.
      { destruct (Z_lt_ge_dec k 19) as [?|Hge]; [assumption|].
        assert (2 ^ 19 <= 2 ^ k) by (apply Z.pow_le_mono_r; lia).
        unfold MAX_HASH_TABLE_SIZE in Hmax. lia. }
      assert (2 ^ (k + 1) = 2 ^ k * 2) as Hdbl
        by (rewrite Z.pow_add_r by lia; reflexivity).
      assert (2 ^ (k + 1) <= 2 ^ 19) by (apply Z.pow_le_mono_r; lia).
      assert (0 < 2 ^ (k + 1)) by (apply Z.pow_pos_nonneg; lia).
      rewrite <- Hdbl, wrap32_small by lia.
      destruct (IH (k + 1)) as [[Hc Hr]|(k' & Hk' & Hr & Hle & Hmin)].
      * lia.
      * lia.
      * right. replace (k + 1 - 1) with k by lia. exact Hlt.
      * left. split; assumption.
      * right. exists k'. repeat split; try assumption; lia.
  - apply Z.ltb_ge in Hlt. right. exists k.
    repeat split; try assumption; lia.
Qed.

Lemma growTableSize_start (count : Z) :
  (MAX_HASH_TABLE_SIZE < count
   /\ growTableSize 34 (MIN_HASH_TABLE_SIZE / 2) count = Done None)
  \/ (exists k, 7 <= k <= 19
        /\ growTableSize 34 (MIN_HASH_TABLE_SIZE / 2) count = Done (Some (2 ^ k))
        /\ count <= 2 ^ k /\ (k = 7 \/ 2 ^ (k - 1) < count)).
Proof.
  change (MIN_HASH_TABLE_SIZE / 2) with (2 ^ 7).
  destruct (growTableSize_pow2 count 34 7) as [H|(k & Hk & H)];
    [lia | simpl; lia | left; reflexivity | left; exact H | right; exists k; split; [lia | exact H]].
Qed.

Lemma growTableSize_fails_iff (count : Z) :
  growTableSize 34 (MIN_HASH_TABLE_SIZE / 2) count = Done None
  <-> MAX_HASH_TABLE_SIZE < count.
Proof.
  destruct (growTableSize_start count) as [[Hc Hr]|(k & Hk & Hr & Hle & _)].
  - split; intros _; assumption.
  - split.
    + rewrite Hr. discriminate.
    + intros Hc. assert (2 ^ k <= 2 ^ 19) by (apply Z.pow_le_mono_r; lia).
      unfold MAX_HASH_TABLE_SIZE in Hc. lia.
Qed.

Lemma occupied_le_length (t : list Z) : (occupied t <= length t)%nat.
Proof. induction t as [|v t IH]; simpl; [lia|]. destruct (v =? -1); lia. Qed.

Lemma occupied_replicate (n : nat) : occupied (replicate n (-1)) = O.
Proof. induction n as [|n IH]; simpl; [reflexivity | exact IH]. Qed.

Lemma occupied_free_slot (t : list Z) :
  (occupied t < length t)%nat -> exists j, t !! j = Some (-1).
Proof.
  induction t as [|v t IH]; simpl; [lia|].
  destruct (v =? -1) eqn:E.
  - intros _. exists O. simpl. f_equal. lia.
  - intros H. destruct IH as [j Hj]; [lia|]. exists (S j). exact Hj.
Qed.

Lemma occupied_insert (t : list Z) : forall (j : nat) (v : Z),
  t !! j = Some (-1) -> v <> -1 -> occupied (<[j := v]> t) = S (occupied t).
Proof.
  induction t as [|w t IH]; intros j v Hj Hv; [discriminate|].
  destruct j as [|j]; simpl in *.
  - injection Hj as ->. simpl. destruct (v =? -1) eqn:E; [lia | reflexivity].
  - destruct (w =? -1); rewrite (IH j v Hj Hv); reflexivity.
Qed.

(** The probe for a free slot finds one if there is one anywhere. *)
Lemma probeEmpty_finds (table : list Z) (k : nat) : forall (fuel : nat) (start : Z),
  0 < Z.of_nat (length table) <= 2 ^ 32 ->
  0 <= start < Z.of_nat (length table) ->
  (k < fuel)%nat ->
  table !! Z.to_nat (slotAt (Z.of_nat (length table)) start k) = Some (-1) ->
  exists index, probeEmpty fuel table start = Done index
    /\ 0 <= index < Z.of_nat (length table)
    /\ table !! Z.to_nat index = Some (-1).
Proof.
  induction k as [|k IH]; intros fuel start Hsz Hst Hfuel Hslot;
    (destruct fuel as [|fuel]; [lia|]); simpl.
  - rewrite slotAt_0 in Hslot by assumption. rewrite Hslot. simpl.
    exists start. auto.
  - destruct (table !! Z.to_nat start) as [v|] eqn:Hv.
    2:{ apply lookup_ge_None in Hv. lia. }
    destruct (v =? -1) eqn:E.
    + exists start. apply Z.eqb_eq in E. subst v. auto.
    + rewrite nextSlot_mod by assumption.
      apply IH; try assumption.
      * apply Z.mod_pos_bound. lia.
      * lia.
      * rewrite <- slotAt_S by lia. exact Hslot.
Qed.

Lemma slotAt_reaches (size start : Z) (j : nat) :
  0 < size -> 0 <= start < size -> (Z.of_nat j < size) ->
  exists k, (Z.of_nat k < size) /\ slotAt size start k = Z.of_nat j.
Proof.
  intros Hs Hst Hj.
  exists (Z.to_nat ((Z.of_nat j - start) mod size)).
  pose proof (Z.mod_pos_bound (Z.of_nat j - start) size Hs) as Hb.
  split; [lia|].
  unfold slotAt. rewrite Z2Nat.id by lia.
  rewrite Z.add_mod_idemp_r by lia.
  replace (start + (Z.of_nat j - start)) with (Z.of_nat j) by lia.
  apply Z.mod_small. lia.
Qed.

Lemma probeEmpty_total (table : list Z) (start : Z) :
  Z.of_nat (length table) <= 2 ^ 32 ->
  0 <= start < Z.of_nat (length table) ->
  (occupied table < length table)%nat ->
  exists index, probeEmpty (length table) table start = Done index
    /\ 0 <= index < Z.of_nat (length table)
    /\ table !! Z.to_nat index = Some (-1).
Proof.
  intros Hsz Hst Hocc.
  destruct (occupied_free_slot table Hocc) as [j Hj].
  pose proof (lookup_lt_Some _ _ _ Hj) as Hjlt.
  destruct (slotAt_reaches (Z.of_nat (length table)) start j) as (k & Hk & Hslot);
    [lia | lia | lia |].
  apply (probeEmpty_finds table k); [lia | lia | lia |].
  rewrite Hslot, Nat2Z.id. exact Hj.
Qed.

(** The second loop of [buildHashTable] returns whenever the entries it
    reads exist and the table has room for them. *)
Lemma fillHashTable_total (es : list FileEntry) (n : nat) : forall (i : Z) (table : list Z),
  0 < Z.of_nat (length table) <= 2 ^ 32 ->
  0 <= i ->
  (Z.to_nat i + n <= length es)%nat ->
  (occupied table + n <= length table)%nat ->
  Forall (fun v => -1 <= v < i) table ->
  exists t, fillHashTable es n i table = Done t
    /\ length t = length table
    /\ occupied t = (occupied table + n)%nat
    /\ Forall (fun v => -1 <= v < i + Z.of_nat n) t.
Proof.
  induction n as [|n IH]; intros i table Hsz Hi Hes Hocc Hval; simpl.
  - exists table. repeat split; [lia|].
    eapply Forall_impl; [exact Hval|]. simpl. intros; lia.
  - destruct (es !! Z.to_nat i) as [e|] eqn:He.
    2:{ apply lookup_ge_None in He. lia. }
    destruct (probeEmpty_total table (hash0 e mod Z.of_nat (length table)))
      as (index & Hp & Hir & Hfree); [lia | apply Z.mod_pos_bound; lia | lia |].
    rewrite Hp. simpl.
    destruct (IH (i + 1) (<[Z.to_nat index := i]> table)) as (t & Ht & Hlen & Ho & Hv).
    + rewrite length_insert. exact Hsz.
    + lia.
    + lia.
    + rewrite length_insert, (occupied_insert _ _ _ Hfree) by lia. lia.
    + apply Forall_insert; [|lia].
      eapply Forall_impl; [exact Hval|]. simpl. intros; lia.
    + exists t. rewrite Ht. rewrite length_insert in Hlen.
      rewrite (occupied_insert _ _ _ Hfree) in Ho by lia.
      repeat split; [assumption | lia |].
      eapply Forall_impl; [exact Hv|]. simpl. intros; lia.
Qed.

Lemma fillHashTable_length (es : list FileEntry) (n : nat) : forall (i : Z) (table t : list Z),
  fillHashTable es n i table = Done t -> length t = length table.
Proof.
  induction n as [|n IH]; intros i table t; simpl.
  - intros [= <-]. reflexivity.
  - destruct (es !! Z.to_nat i) as [e|]; [|discriminate].
    destruct (probeEmpty _ _ _) as [index|]; simpl; [|discriminate].
    intros H. apply IH in H. rewrite length_insert in H. exact H.
Qed.

End HashTableBuild.

Section HashTableUse.

Context (D : Declarations).

(** What [buildHashTable] does, by the entry count in the header. *)
Lemma buildHashTable_overflow (p : Package) :
  MAX_HASH_TABLE_SIZE < fileCount (m_header p) ->
  buildHashTable p = Done (false, p).
Proof.
  intros H. unfold buildHashTable.
  apply growTableSize_fails_iff in H. rewrite H. reflexivity.
Qed.

Lemma buildHashTable_true (p p' : Package) :
  buildHashTable p = Done (true, p') ->
  exists k t, 7 <= k <= 19
    /\ fileCount (m_header p) <= 2 ^ k
    /\ (k = 7 \/ 2 ^ (k - 1) < fileCount (m_header p))
    /\ length t = Z.to_nat (2 ^ (k + 1))
    /\ fillHashTable (m_fileEntries p) (Z.to_nat (fileCount (m_header p))) 0
         (replicate (Z.to_nat (2 ^ (k + 1))) (-1)) = Done t
    /\ p' = with_hashTable p t.
Proof.
  unfold buildHashTable.
  destruct (growTableSize_start (fileCount (m_header p))) as [[Hc Hr]|(k & Hk & Hr & Hle & Hmin)];
    rewrite Hr; simpl; [discriminate|].
  assert (2 ^ (k + 1) = 2 ^ k * 2) as Hdbl by (rewrite Z.pow_add_r by lia; reflexivity).
  assert (2 ^ (k + 1) <= 2 ^ 20) by (apply Z.pow_le_mono_r; lia).
  assert (0 < 2 ^ (k + 1)) by (apply Z.pow_pos_nonneg; lia).
  rewrite <- Hdbl, wrap32_small by lia.
  destruct (fillHashTable _ _ _ _) as [t|] eqn:Hfill; simpl; [|discriminate].
  intros [= <-]. exists k, t. repeat split; try assumption; try lia.
  apply fillHashTable_length in Hfill. rewrite Hfill, length_replicate. reflexivity.
Qed.

(** With every counted entry present, [buildHashTable] returns, and its
    table can be walked. *)
Lemma buildHashTable_total (p : Package) :
  (Z.to_nat (fileCount (m_header p)) <= length (m_fileEntries p))%nat ->
  fileCount (m_header p) <= MAX_HASH_TABLE_SIZE ->
  exists t, buildHashTable p = Done (true, with_hashTable p t)
    /\ 256 <= Z.of_nat (length t) <= 2 ^ 20
    /\ 2 * fileCount (m_header p) <= Z.of_nat (length t)
    /\ occupied t = Z.to_nat (fileCount (m_header p))
    /\ Forall (fun v => -1 <= v < Z.of_nat (Z.to_nat (fileCount (m_header p)))) t.
Proof.
  intros Hes Hcap. unfold buildHashTable.
  destruct (growTableSize_start (fileCount (m_header p))) as [[Hc Hr]|(k & Hk & Hr & Hle & Hmin)];
    [lia|].
  rewrite Hr. simpl.
  assert (2 ^ (k + 1) = 2 ^ k * 2) as Hdbl by (rewrite Z.pow_add_r by lia; reflexivity).
  assert (2 ^ (k + 1) <= 2 ^ 20) by (apply Z.pow_le_mono_r; lia).
  assert (2 ^ 8 <= 2 ^ (k + 1)) by (apply Z.pow_le_mono_r; lia).
  rewrite <- Hdbl, wrap32_small by lia.
  destruct (fillHashTable_total (m_fileEntries p) (Z.to_nat (fileCount (m_header p))) 0
              (replicate (Z.to_nat (2 ^ (k + 1))) (-1)))
    as (t & Ht & Hlen & Hocc & Hval).
  - rewrite length_replicate. lia.
  - lia.
  - simpl. exact Hes.
  - rewrite occupied_replicate, length_replicate. lia.
  - apply Forall_replicate. lia.
  - rewrite Ht. simpl. exists t.
    rewrite length_replicate in Hlen. rewrite occupied_replicate in Hocc.
    split; [reflexivity|]. split; [lia|]. split; [lia|]. split; [exact Hocc|].
    eapply Forall_impl; [exact Hval|]. simpl. intros; lia.
Qed.

(** The walk of [getFileIndex] returns on a table that can be walked. *)
Lemma getFileIndex_loop_returns (table : list Z) (es : list FileEntry) (h0 h1 h2 : Z)
    (k : nat) : forall (fuel : nat) (start v : Z),
  0 < Z.of_nat (length table) <= 2 ^ 32 ->
  Forall (fun v => v < Z.of_nat (length es)) table ->
  0 <= start < Z.of_nat (length table) ->
  (k < fuel)%nat ->
  table !! Z.to_nat (slotAt (Z.of_nat (length table)) start k) = Some v ->
  v < 0 ->
  returns (getFileIndex_loop D fuel table es h0 h1 h2 start).
Proof.
  induction k as [|k IH]; intros fuel start v Hsz Hval Hst Hfuel Hslot Hv;
    (destruct fuel as [|fuel]; [lia|]); simpl.
  - rewrite slotAt_0 in Hslot by assumption. rewrite Hslot.
    destruct (v <? 0) eqn:C; [eexists; reflexivity | lia].
  - destruct (table !! Z.to_nat start) as [fi|] eqn:Hfi.
    2:{ apply lookup_ge_None in Hfi. lia. }
    destruct (fi <? 0) eqn:C; [eexists; reflexivity|].
    assert (fi < Z.of_nat (length es)) as Hin.
    { rewrite Forall_forall in Hval. apply Hval.
      apply list_elem_of_lookup. eauto. }
    destruct (es !! Z.to_nat fi) as [e|] eqn:He.
    2:{ apply lookup_ge_None in He. lia. }
    destruct (hashesMatch e h0 h1 h2).
    + destruct (isDeleted D e); eexists; reflexivity.
    + rewrite nextSlot_mod by assumption.
      apply (IH fuel _ v); try assumption.
      * apply Z.mod_pos_bound. lia.
      * lia.
      * rewrite <- slotAt_S by lia. exact Hslot.
Qed.

Lemma getFileIndex_loop_no_division (fuel : nat) : forall (table : list Z)
    (es : list FileEntry) (h0 h1 h2 start : Z),
  getFileIndex_loop D fuel table es h0 h1 h2 start <> Fault DivisionByZero.
Proof.
  induction fuel as [|fuel IH]; intros table es h0 h1 h2 start; simpl; [discriminate|].
  destruct (_ !! _) as [fi|]; [|discriminate].
  destruct (fi <? 0); [discriminate|].
  destruct (_ !! _) as [e|]; [|discriminate].
  destruct (hashesMatch _ _ _ _); [destruct (isDeleted D e); discriminate|].
  apply IH.
Qed.

Lemma getFileIndex_empty_table (p : Package) (filename : string) :
  getFileIndex D p filename = Fault DivisionByZero <-> m_hashTable p = [].
Proof.
  unfold getFileIndex. split.
  - destruct (m_hashTable p) as [|v t] eqn:E; [reflexivity|].
    destruct (Z.of_nat (length (v :: t)) =? 0) eqn:C.
    + simpl in C. lia.
    + intros H. exfalso. exact (getFileIndex_loop_no_division _ _ _ _ _ _ _ H).
  - intros ->. reflexivity.
Qed.

Lemma getFileIndex_returns (p : Package) (filename : string) :
  indexUsable p -> returns (getFileIndex D p filename).
Proof.
  intros (Hsz & Hocc & Hval). unfold getFileIndex.
  destruct (Z.of_nat (length (m_hashTable p)) =? 0) eqn:E; [lia|].
  destruct (occupied_free_slot _ Hocc) as [j Hj].
  pose proof (lookup_lt_Some _ _ _ Hj) as Hjlt.
  set (start := stringHash filename HASH_SEED0 mod Z.of_nat (length (m_hashTable p))).
  assert (0 <= start < Z.of_nat (length (m_hashTable p))) as Hst
    by (apply Z.mod_pos_bound; lia).
  destruct (slotAt_reaches (Z.of_nat (length (m_hashTable p))) start j) as (k & Hk & Hslot);
    [lia | lia | lia |].
  apply (getFileIndex_loop_returns _ _ _ _ _ k _ _ (-1)); try assumption; try lia.
  rewrite Hslot, Nat2Z.id. exact Hj.
Qed.

End HashTableUse.

(** ** The constructor *)

Section Constructor.

Context (D : Declarations).

Lemma readFileEntries_loop_length (a : Archive) (h : PackageHeader) (n : nat) :
  forall (i nextOffset : Z),
  length (snd (readFileEntries_loop a h n i nextOffset)) = n.
Proof.
  induction n as [|n IH]; intros i nextOffset; simpl; [reflexivity|].
  destruct (nextOffset >=? fileEntryOffset h).
  - simpl. rewrite length_replicate. reflexivity.
  - destruct (byteOffset (a_fileEntry a i) <? nextOffset).
    + simpl. rewrite length_replicate. reflexivity.
    + specialize (IH (i + 1) (wrap64 (byteOffset (a_fileEntry a i) + fileSize (a_fileEntry a i)))).
      destruct (readFileEntries_loop a h n _ _) as [ok rest]. simpl in *. lia.
Qed.

Lemma readFilenames_loop_length (a : Archive) (n : nat) :
  forall i, length (readFilenames_loop a n i) = n.
Proof. induction n as [|n IH]; intros i; simpl; [reflexivity | rewrite IH; reflexivity]. Qed.

Lemma readHeader_fields (a : Archive) (p : Package) :
  let p' := snd (readHeader D a p) in
  m_stream_is_open p' = m_stream_is_open p /\ m_dirty p' = m_dirty p
  /\ m_fileEntries p' = m_fileEntries p /\ m_filenames p' = m_filenames p
  /\ m_hashTable p' = m_hashTable p
  /\ (fst (readHeader D a p) = true -> m_header p' = a_header a).
Proof.
  unfold readHeader.
  destruct (a_tellg_end a <? sizeof_PackageHeader D); simpl; [intuition discriminate|].
  destruct (negb _ || _ || _ || _ || _ || _); simpl; [intuition discriminate|].
  destruct (negb _); simpl; intuition reflexivity.
Qed.

Lemma readFileEntries_fields (a : Archive) (p : Package) :
  let p' := snd (readFileEntries a p) in
  m_stream_is_open p' = m_stream_is_open p /\ m_dirty p' = m_dirty p
  /\ m_readonly p' = m_readonly p /\ m_header p' = m_header p
  /\ m_filenames p' = m_filenames p /\ m_hashTable p' = m_hashTable p
  /\ length (m_fileEntries p') = Z.to_nat (fileCount (m_header p)).
Proof.
  unfold readFileEntries.
  pose proof (readFileEntries_loop_length a (m_header p)
                (Z.to_nat (fileCount (m_header p))) 0 (headerSize (m_header p))) as H.
  destruct (readFileEntries_loop _ _ _ _ _) as [ok es]. simpl in *.
  repeat split; try reflexivity. exact H.
Qed.

Lemma readFilenames_fields (a : Archive) (p : Package) :
  let p' := snd (readFilenames a p) in
  m_stream_is_open p' = m_stream_is_open p /\ m_dirty p' = m_dirty p
  /\ m_readonly p' = m_readonly p /\ m_header p' = m_header p
  /\ m_fileEntries p' = m_fileEntries p /\ m_hashTable p' = m_hashTable p.
Proof.
  unfold readFilenames. destruct (m_fileEntries p) as [|e es] eqn:E; simpl.
  - rewrite E. repeat split; reflexivity.
  - destruct (m_readonly p) eqn:R; simpl; rewrite ?E, ?R; repeat split; reflexivity.
Qed.

(** The package the hash table is built on when the archive loads. *)
Lemma afterNames_fields (a : Archive) (readonly : bool) :
  loads D a readonly = true ->
  let p := afterNames D a readonly in
  m_stream_is_open p = true /\ m_dirty p = false
  /\ m_header p = a_header a /\ m_hashTable p = []
  /\ length (m_fileEntries p) = Z.to_nat (fileCount (m_header p))
  /\ m_fileEntries p = m_fileEntries (snd (afterEntries D a readonly)).
Proof.
  unfold loads. intros H.
  apply andb_prop in H as [H H3]. apply andb_prop in H as [H1 H2].
  unfold afterNames.
  destruct (readFilenames_fields a (snd (afterEntries D a readonly)))
    as (N1 & N2 & N3 & N4 & N5 & N6).
  unfold afterEntries in *.
  destruct (readFileEntries_fields a (snd (afterHeader D a readonly)))
    as (E1 & E2 & E3 & E4 & E5 & E6 & E7).
  unfold afterHeader in *.
  destruct (readHeader_fields a (initialPackage a readonly))
    as (R1 & R2 & R3 & R4 & R5 & R6).
  simpl in *.
  rewrite N1, N2, N4, N5, N6, E1, E2, E4, E6, E7, R1, R2, R5, (R6 H2).
  repeat split; try reflexivity. exact H1.
Qed.

(** The constructor when a reader rejects the archive: the stream is closed
    and no hash table has been built. *)
Lemma Package_ctor_rejects (a : Archive) (readonly : bool) :
  loads D a readonly = false ->
  exists p, Package_ctor D a readonly = Done p
    /\ valid p = false /\ m_dirty p = false /\ m_hashTable p = [].
Proof.
  unfold loads, afterEntries, afterHeader, Package_ctor, initialPackage. intros H.
  destruct (a_is_open a) eqn:Ho; simpl in *.
  2:{ eexists. split; [reflexivity|]. simpl. rewrite ?Ho. auto. }
  pose proof (readHeader_fields a (mkPackage true readonly false indeterminateHeader [] [] []))
    as (R1 & R2 & R3 & R4 & R5 & _).
  destruct (readHeader D a _) as [ok1 p1]. simpl in *.
  destruct ok1; simpl in *.
  2:{ eexists. split; [reflexivity|]. simpl. auto. }
  pose proof (readFileEntries_fields a p1) as (E1 & E2 & E3 & E4 & E5 & E6 & _).
  destruct (readFileEntries a p1) as [ok2 p2]. simpl in *. subst ok2. simpl.
  eexists. split; [reflexivity|]. simpl. rewrite E2, E6, R2, R5. auto.
Qed.

(** The constructor when the archive loads: the last step is
    [buildHashTable], whose result is dropped. *)
Lemma Package_ctor_loads (a : Archive) (readonly : bool) :
  loads D a readonly = true ->
  Package_ctor D a readonly
  = '(_, p) ← buildHashTable (afterNames D a readonly); Done p.
Proof.
  unfold loads, afterNames, afterEntries, afterHeader, Package_ctor, initialPackage.
  intros H.
  destruct (a_is_open a) eqn:Ho; simpl in *; [|discriminate].
  destruct (readHeader D a _) as [ok1 p1]. simpl in *.
  destruct ok1; simpl in *; [|discriminate].
  destruct (readFileEntries a p1) as [ok2 p2]. simpl in *. subst ok2. simpl.
  destruct (readFilenames a p2) as [ok3 p3]. reflexivity.
Qed.

(** When the entry count is over the capacity, the construction of the hash
    table fails, and the constructor goes on as if it had not. *)
Lemma Package_ctor_over_capacity (a : Archive) (readonly : bool) :
  loads D a readonly = true ->
  MAX_HASH_TABLE_SIZE < fileCount (a_header a) ->
  let p := afterNames D a readonly in
  buildHashTable p = Done (false, p)
  /\ Package_ctor D a readonly = Done p
  /\ valid p = true /\ m_hashTable p = [].
Proof.
  intros Hl Hc p.
  destruct (afterNames_fields a readonly Hl) as (F1 & F2 & F3 & F4 & F5 & F6).
  fold p in F1, F2, F3, F4, F5, F6.
  assert (buildHashTable p = Done (false, p)) as Hb
    by (apply buildHashTable_overflow; rewrite F3; exact Hc).
  split; [exact Hb|]. rewrite (Package_ctor_loads a readonly Hl). fold p.
  rewrite Hb. simpl. auto.
Qed.

Lemma Package_ctor_within_capacity (a : Archive) (readonly : bool) :
  loads D a readonly = true ->
  fileCount (a_header a) <= MAX_HASH_TABLE_SIZE ->
  exists t, buildHashTable (afterNames D a readonly)
            = Done (true, with_hashTable (afterNames D a readonly) t)
    /\ Package_ctor D a readonly = Done (with_hashTable (afterNames D a readonly) t)
    /\ 256 <= Z.of_nat (length t) <= 2 ^ 20
    /\ 2 * fileCount (a_header a) <= Z.of_nat (length t)
    /\ occupied t = Z.to_nat (fileCount (a_header a))
    /\ Forall (fun v => -1 <= v < Z.of_nat (Z.to_nat (fileCount (a_header a)))) t.
Proof.
  intros Hl Hc.
  destruct (afterNames_fields a readonly Hl) as (F1 & F2 & F3 & F4 & F5 & F6).
  destruct (buildHashTable_total (afterNames D a readonly)) as (t & Hb & Hrest).
  - rewrite F5. lia.
  - rewrite F3. exact Hc.
  - exists t. split; [exact Hb|]. split.
    + rewrite (Package_ctor_loads a readonly Hl), Hb. reflexivity.
    + rewrite F3 in Hrest. exact Hrest.
Qed.

End Constructor.

(** ** The gap scan of [insertFile] *)

Section GapScan.

Context (D : Declarations).

Lemma liveEntries_cons (e : FileEntry) (es : list FileEntry) :
  liveEntries D (e :: es)
  = if isDeleted D e then liveEntries D es else e :: liveEntries D es.
Proof.
  unfold liveEntries. rewrite filter_cons.
  destruct (decide (isDeleted D e = false)) as [H|H].
  - rewrite H. reflexivity.
  - destruct (isDeleted D e); [reflexivity | congruence].
Qed.

Lemma lastEndAfter_nil (start : Z) : lastEndAfter D start [] = start.
Proof. reflexivity. Qed.

Lemma lastEndAfter_cons (start : Z) (e : FileEntry) (pre : list FileEntry) :
  lastEndAfter D start (e :: pre)
  = lastEndAfter D (if isDeleted D e then start
                    else wrap64 (byteOffset e + fileSize e)) pre.
Proof.
  unfold lastEndAfter. rewrite liveEntries_cons.
  destruct (isDeleted D e); [reflexivity|].
  destruct (liveEntries D pre) as [|x l] eqn:E; [reflexivity|].
  rewrite last_cons. destruct (last (x :: l)) eqn:L; [reflexivity|].
  apply last_None in L. discriminate.
Qed.

Lemma fitsAt_0 (start size : Z) (e : FileEntry) (es : list FileEntry) :
  fitsAt D start size (e :: es) 0
  = negb (isDeleted D e) && (size <=? wrap64 (byteOffset e - start)).
Proof. reflexivity. Qed.

Lemma fitsAt_S (start size : Z) (e : FileEntry) (es : list FileEntry) (k : nat) :
  fitsAt D start size (e :: es) (S k)
  = fitsAt D (if isDeleted D e then start
              else wrap64 (byteOffset e + fileSize e)) size es k.
Proof.
  unfold fitsAt. simpl. destruct (es !! k); [|reflexivity].
  rewrite lastEndAfter_cons. reflexivity.
Qed.

(** The scan stops at the first index that fits. *)
Lemma insertFile_scan_first_fit (size : Z) (es : list FileEntry) :
  forall (start : Z) (i k : nat),
  fitsAt D start size es k = true ->
  (forall j, (j < k)%nat -> fitsAt D start size es j = false) ->
  insertFile_scan D es i start size
  = Some ((i + k)%nat, lastEndAfter D start (take k es)).
Proof.
  induction es as [|e es IH]; intros start i k Hk Hbefore.
  - unfold fitsAt in Hk. rewrite lookup_nil in Hk. discriminate.
  - destruct k as [|k].
    + rewrite fitsAt_0 in Hk. apply andb_prop in Hk as [Hl Hfit].
      simpl. destruct (isDeleted D e); [discriminate|].
      apply Z.leb_le in Hfit.
      destruct (wrap64 (byteOffset e - start) >=? size) eqn:C; [|lia].
      rewrite Nat.add_0_r. reflexivity.
    + rewrite fitsAt_S in Hk.
      pose proof (Hbefore 0%nat ltac:(lia)) as H0. rewrite fitsAt_0 in H0.
      assert (forall j, (j < k)%nat ->
                fitsAt D (if isDeleted D e then start
                          else wrap64 (byteOffset e + fileSize e)) size es j = false) as Hb.
      { intros j Hj. rewrite <- fitsAt_S. apply Hbefore. lia. }
      simpl. rewrite lastEndAfter_cons.
      destruct (isDeleted D e) eqn:Hd.
      * rewrite (IH start (S i) k Hk Hb). f_equal. f_equal. lia.
      * simpl in H0. apply Z.leb_gt in H0.
        destruct (wrap64 (byteOffset e - start) >=? size) eqn:C; [lia|].
        rewrite (IH _ (S i) k Hk Hb). f_equal. f_equal. lia.
Qed.

(** The scan runs to the end of the table when no index fits. *)
Lemma insertFile_scan_no_fit (size : Z) (es : list FileEntry) :
  forall (start : Z) (i : nat),
  (forall j, fitsAt D start size es j = false) ->
  insertFile_scan D es i start size = None.
Proof.
  induction es as [|e es IH]; intros start i Hno; [reflexivity|].
  pose proof (Hno 0%nat) as H0. rewrite fitsAt_0 in H0.
  assert (forall j, fitsAt D (if isDeleted D e then start
                              else wrap64 (byteOffset e + fileSize e)) size es j = false) as Hb.
  { intros j. rewrite <- fitsAt_S. apply Hno. }
  simpl. destruct (isDeleted D e) eqn:Hd.
  - apply IH. exact Hb.
  - simpl in H0. apply Z.leb_gt in H0.
    destruct (wrap64 (byteOffset e - start) >=? size) eqn:C; [lia|].
    apply IH. exact Hb.
Qed.

(** Conversely, wherever the scan stops fits, and nothing before does. *)
Lemma insertFile_scan_Some (size : Z) (es : list FileEntry) :
  forall (start : Z) (i k : nat) (lastEnd : Z),
  insertFile_scan D es i start size = Some (k, lastEnd) ->
  exists k', k = (i + k')%nat
    /\ lastEnd = lastEndAfter D start (take k' es)
    /\ fitsAt D start size es k' = true
    /\ (forall j, (j < k')%nat -> fitsAt D start size es j = false).
Proof.
  induction es as [|e es IH]; intros start i k lastEnd H; [discriminate|].
  simpl in H. destruct (isDeleted D e) eqn:Hd.
  - apply IH in H as (k' & -> & -> & Hfit & Hb). exists (S k').
    rewrite fitsAt_S, Hd. simpl take. rewrite lastEndAfter_cons, Hd.
    repeat split; [lia | assumption |].
    intros [|j] Hj; [rewrite fitsAt_0, Hd; reflexivity|].
    rewrite fitsAt_S, Hd. apply Hb. lia.
  - destruct (wrap64 (byteOffset e - start) >=? size) eqn:C.
    + injection H as <- <-. exists 0%nat.
      rewrite fitsAt_0, Hd. simpl.
      repeat split; [lia | apply Z.leb_le; lia | intros j Hj; lia].
    + apply IH in H as (k' & -> & -> & Hfit & Hb). exists (S k').
      rewrite fitsAt_S, Hd. simpl take. rewrite lastEndAfter_cons, Hd.
      repeat split; [lia | assumption |].
      intros [|j] Hj.
      * rewrite fitsAt_0, Hd. simpl. apply Z.leb_gt. lia.
      * rewrite fitsAt_S, Hd. apply Hb. lia.
Qed.

Lemma insertFile_scan_None (size : Z) (es : list FileEntry) :
  forall (start : Z) (i : nat),
  insertFile_scan D es i start size = None ->
  forall j, fitsAt D start size es j = false.
Proof.
  induction es as [|e es IH]; intros start i H j.
  - unfold fitsAt. rewrite lookup_nil. reflexivity.
  - simpl in H. destruct (isDeleted D e) eqn:Hd.
    + destruct j as [|j]; [rewrite fitsAt_0, Hd; reflexivity|].
      rewrite fitsAt_S, Hd. eapply IH. exact H.
    + destruct (wrap64 (byteOffset e - start) >=? size) eqn:C; [discriminate|].
      destruct j as [|j].
      * rewrite fitsAt_0, Hd. simpl. apply Z.leb_gt. lia.
      * rewrite fitsAt_S, Hd. eapply IH. exact H.
Qed.

Lemma vector_insert_Done {A : Type} (i : nat) (x : A) (v : list A) :
  (i <= length v)%nat -> vector_insert i x v = Done (take i v ++ x :: drop i v).
Proof.
  intros H. unfold vector_insert.
  destruct (i <=? length v)%nat eqn:C; [reflexivity|].
  apply Nat.leb_gt in C. lia.
Qed.

End GapScan.

(** ** [flush] *)

Section Flush.

Context (D : Declarations).

Lemma liveEntries_all_live (es : list FileEntry) :
  Forall (fun e => isDeleted D e = false) (liveEntries D es).
Proof.
  unfold liveEntries. apply Forall_forall. intros e He.
  apply list_elem_of_filter in He. tauto.
Qed.

Lemma liveEntries_idemp (es : list FileEntry) :
  liveEntries D (liveEntries D es) = liveEntries D es.
Proof.
  induction es as [|e es IH]; [reflexivity|].
  rewrite liveEntries_cons. destruct (isDeleted D e) eqn:Hd; [exact IH|].
  rewrite liveEntries_cons, Hd, IH. reflexivity.
Qed.

Lemma liveNames_length (es : list FileEntry) : forall (ns : list string),
  length ns = length es -> length (liveNames D es ns) = length (liveEntries D es).
Proof.
  induction es as [|e es IH]; intros [|n ns] H; simpl in *; try reflexivity; try lia.
  rewrite liveEntries_cons. destruct (isDeleted D e); simpl; rewrite IH by lia; reflexivity.
Qed.

(** The loop of [flush] keeps the live entries, in their order. *)
Lemma flush_entries_live (es : list FileEntry) : forall (ns : list string) es' ns',
  flush_entries D es ns = Done (es', ns') -> es' = liveEntries D es.
Proof.
  induction es as [|e es IH]; intros ns es' ns' H; simpl in H.
  - injection H as <- <-. reflexivity.
  - destruct ns as [|n ns]; [discriminate|].
    destruct (flush_entries D es ns) as [[es2 ns2]|] eqn:E; simpl in H; [|discriminate].
    rewrite liveEntries_cons. apply IH in E. subst es2.
    destruct (isDeleted D e); injection H as <- <-; reflexivity.
Qed.

(** On tables of equal length it returns, with the names of the live
    entries. *)
Lemma flush_entries_aligned (es : list FileEntry) : forall (ns : list string),
  length ns = length es ->
  flush_entries D es ns = Done (liveEntries D es, liveNames D es ns).
Proof.
  induction es as [|e es IH]; intros [|n ns] H; simpl in *; try reflexivity; try lia.
  rewrite IH by lia. simpl. rewrite liveEntries_cons.
  destruct (isDeleted D e); reflexivity.
Qed.

Lemma buildHashTable_same_inputs (p q : Package) (b : bool) (t : list Z) :
  m_header p = m_header q -> m_fileEntries p = m_fileEntries q ->
  buildHashTable p = Done (b, with_hashTable p t) ->
  m_hashTable q = t \/ b = true ->
  buildHashTable q = Done (b, with_hashTable q t).
Proof.
  unfold buildHashTable. intros Hh He. rewrite <- Hh, <- He.
  destruct (growTableSize _ _ _) as [[half|]|]; simpl; [| |discriminate].
  - destruct (fillHashTable _ _ _ _) as [t'|]; simpl; [|discriminate].
    intros [= <- <-] _. reflexivity.
  - intros [= <- _] [Ht|Hb]; [|discriminate].
    subst t. destruct q; reflexivity.
Qed.

(** [flush] on a writable, dirty package whose live entries the header
    counts and the hash table has room for. *)
Lemma flush_compacts (p : Package) :
  m_readonly p = false ->
  m_dirty p = true ->
  length (m_filenames p) = length (m_fileEntries p) ->
  fileCount (m_header p) = Z.of_nat (length (liveEntries D (m_fileEntries p))) ->
  fileCount (m_header p) <= MAX_HASH_TABLE_SIZE ->
  exists t,
    let p' := mkPackage (m_stream_is_open p) false false
                (set_filenameSize (m_header p)
                   (countFilenameSize (liveNames D (m_fileEntries p) (m_filenames p))))
                (liveEntries D (m_fileEntries p))
                (liveNames D (m_fileEntries p) (m_filenames p)) t in
    flush D p = Done p'
    /\ indexCurrent p'
    /\ 256 <= Z.of_nat (length t) <= 2 ^ 20
    /\ 2 * fileCount (m_header p) <= Z.of_nat (length t)
    /\ occupied t = length (liveEntries D (m_fileEntries p))
    /\ Forall (fun v => -1 <= v < Z.of_nat (length (liveEntries D (m_fileEntries p)))) t.
Proof.
  intros Hro Hd Hlen Hcount Hcap. unfold flush. rewrite Hro, Hd. simpl.
  rewrite (flush_entries_aligned _ _ Hlen). simpl.
  set (p1 := with_header _ _).
  destruct (buildHashTable_total p1) as (t & Hb & H1 & H2 & H3 & H4).
  - subst p1. simpl. rewrite Hcount, Nat2Z.id. lia.
  - subst p1. simpl. exact Hcap.
  - exists t. rewrite Hb. simpl.
    assert (with_dirty (with_hashTable p1 t) false
            = mkPackage (m_stream_is_open p) false false
                (set_filenameSize (m_header p)
                   (countFilenameSize (liveNames D (m_fileEntries p) (m_filenames p))))
                (liveEntries D (m_fileEntries p))
                (liveNames D (m_fileEntries p) (m_filenames p)) t) as Hp'.
    { subst p1. unfold_with. rewrite Hro. reflexivity. }
    rewrite Hp'. split; [reflexivity|]. split.
    + unfold indexCurrent.
      match goal with |- buildHashTable ?q = _ =>
        exact (buildHashTable_same_inputs p1 q true t eq_refl eq_refl Hb (or_intror eq_refl))
      end.
    + subst p1. simpl in *. rewrite Hcount, Nat2Z.id in H3, H4.
      repeat split; try assumption; lia.
Qed.

End Flush.

(** ** Layout of the entry table *)

Section SortedLists.

Context {A : Type}.

Lemma StronglySorted_lookup (R : relation A) (l : list A) :
  StronglySorted R l ->
  forall (i j : nat) (x y : A),
    (i < j)%nat -> l !! i = Some x -> l !! j = Some y -> R x y.
Proof.
  induction 1 as [|a l Hss IH Hall]; intros i j x y Hij Hi Hj.
  - rewrite lookup_nil in Hi. discriminate.
  - destruct j as [|j]; [lia|]. simpl in Hj.
    destruct i as [|i]; simpl in Hi.
    + injection Hi as <-. eapply Forall_lookup_1; eassumption.
    + apply (IH i j); [lia | assumption | assumption].
Qed.

Lemma StronglySorted_of_lookup (R : relation A) (l : list A) :
  (forall (i j : nat) (x y : A),
     (i < j)%nat -> l !! i = Some x -> l !! j = Some y -> R x y) ->
  StronglySorted R l.
Proof.
  induction l as [|a l IH]; intros H; constructor.
  - apply IH. intros i j x y Hij Hi Hj. apply (H (S i) (S j)); [lia | assumption | assumption].
  - apply Forall_lookup_2. intros j y Hj. apply (H 0%nat (S j)); [lia | reflexivity | assumption].
Qed.

Lemma StronglySorted_weaken (R R' : relation A) (P : A -> Prop) (l : list A) :
  (forall a b, P a -> P b -> R a b -> R' a b) ->
  Forall P l -> StronglySorted R l -> StronglySorted R' l.
Proof.
  intros Himp HP Hss. apply StronglySorted_of_lookup.
  intros i j x y Hij Hi Hj.
  apply Himp; [eapply Forall_lookup_1; eassumption .. |].
  eapply StronglySorted_lookup; eassumption.
Qed.

Lemma StronglySorted_filter (R : relation A) (P : A -> Prop)
    `{!forall x, Decision (P x)} (l : list A) :
  StronglySorted R l -> StronglySorted R (filter P l).
Proof.
  induction 1 as [|a l Hss IH Hall]; [constructor|].
  rewrite filter_cons. destruct (decide (P a)); [|exact IH].
  constructor; [exact IH|].
  apply Forall_forall. intros x Hx. apply list_elem_of_filter in Hx as [_ Hx].
  rewrite Forall_forall in Hall. apply Hall. exact Hx.
Qed.

End SortedLists.

Lemma land_lor_same (f d : Z) : Z.land (Z.lor f d) d = d.
Proof.
  apply Z.bits_inj'. intros n Hn.
  rewrite Z.land_spec, Z.lor_spec.
  destruct (Z.testbit f n), (Z.testbit d n); reflexivity.
Qed.

Section Layout.

Context (D : Declarations).

Lemma isDeleted_markDeleted (e : FileEntry) :
  isDeleted D (markDeleted D e) = negb (FILE_FLAG_DELETED D =? 0).
Proof. unfold isDeleted, markDeleted. simpl. rewrite land_lor_same. reflexivity. Qed.

Lemma markDeleted_sameExtent (e : FileEntry) : sameExtent D e (markDeleted D e).
Proof.
  unfold sameExtent. repeat split.
  rewrite isDeleted_markDeleted. intros H.
  apply negb_false_iff, Z.eqb_eq in H. unfold isDeleted. rewrite H, Z.land_0_r. reflexivity.
Qed.

Lemma sameExtent_refl (e : FileEntry) : sameExtent D e e.
Proof. unfold sameExtent. auto. Qed.

Lemma sameExtent_entryEnd (e e' : FileEntry) : sameExtent D e e' -> entryEnd e' = entryEnd e.
Proof. intros (Ho & Hs & _). unfold entryEnd. rewrite Ho, Hs. reflexivity. Qed.

Lemma alter_sameExtent (es : list FileEntry) (i : nat) :
  Forall2 (sameExtent D) es (alter (markDeleted D) i es).
Proof.
  apply Forall2_alter_r.
  - apply Forall_Forall2_diag. apply Forall_forall. intros e _. apply sameExtent_refl.
  - intros x y Hx Hy _. rewrite Hx in Hy. injection Hy as <-. apply markDeleted_sameExtent.
Qed.

(** What carries over from a table to one that has the same extents and no
    more live entries. *)
Lemma sameExtent_inRange (es es' : list FileEntry) :
  Forall2 (sameExtent D) es es' -> Forall inRange es -> Forall inRange es'.
Proof.
  intros H2 H. eapply Forall2_Forall_r; [exact H2|].
  eapply Forall_impl; [exact H|]. simpl.
  intros x (H0 & H1 & He) y Hs. pose proof (sameExtent_entryEnd _ _ Hs) as E.
  destruct Hs as (Ho & Hz & _). unfold inRange. rewrite Ho, Hz, E. auto.
Qed.

Lemma sameExtent_above (hs : Z) (es es' : list FileEntry) :
  Forall2 (sameExtent D) es es' ->
  Forall (fun e => hs <= byteOffset e) es -> Forall (fun e => hs <= byteOffset e) es'.
Proof.
  intros H2 H. eapply Forall2_Forall_r; [exact H2|].
  eapply Forall_impl; [exact H|]. simpl.
  intros x Hx y (Ho & _). rewrite Ho. exact Hx.
Qed.

Lemma sameExtent_liveBefore (es es' : list FileEntry) :
  Forall2 (sameExtent D) es es' ->
  StronglySorted (liveBefore D) es -> StronglySorted (liveBefore D) es'.
Proof.
  intros H2 Hss. apply StronglySorted_of_lookup.
  intros i j x' y' Hij Hi Hj.
  destruct (Forall2_lookup_r _ _ _ _ _ H2 Hi) as (x & Hx & Sx).
  destruct (Forall2_lookup_r _ _ _ _ _ H2 Hj) as (y & Hy & Sy).
  pose proof (StronglySorted_lookup _ _ Hss i j x y Hij Hx Hy) as Hb.
  pose proof (sameExtent_entryEnd _ _ Sx) as Ex.
  destruct Sx as (_ & _ & Lx). destruct Sy as (Oy & _ & Ly).
  intros Hlx Hly. rewrite Ex, Oy. apply Hb; auto.
Qed.

Lemma sameExtent_tableEnd (es es' : list FileEntry) :
  Forall2 (sameExtent D) es es' -> tableEnd D es' = tableEnd D es.
Proof.
  intros H2. unfold tableEnd. rewrite !last_lookup.
  rewrite <- (Forall2_length _ _ _ H2).
  destruct (es' !! pred (length es)) as [y|] eqn:Hy.
  - destruct (Forall2_lookup_r _ _ _ _ _ H2 Hy) as (x & Hx & Sx).
    rewrite Hx. apply sameExtent_entryEnd. exact Sx.
  - destruct (es !! pred (length es)) as [x|] eqn:Hx; [|reflexivity].
    destruct (Forall2_lookup_l _ _ _ _ _ H2 Hx) as (y & Hy' & _). congruence.
Qed.

Lemma sameExtent_belowEnd (es es' : list FileEntry) :
  Forall2 (sameExtent D) es es' ->
  Forall (fun e => isDeleted D e = false -> entryEnd e <= tableEnd D es) es ->
  Forall (fun e => isDeleted D e = false -> entryEnd e <= tableEnd D es') es'.
Proof.
  intros H2 H. rewrite (sameExtent_tableEnd _ _ H2).
  eapply Forall2_Forall_r; [exact H2|].
  eapply Forall_impl; [exact H|]. simpl.
  intros x Hx y Hs Hl. rewrite (sameExtent_entryEnd _ _ Hs).
  destruct Hs as (_ & _ & L). auto.
Qed.

End Layout.

Section Insertion.

Context (D : Declarations).

Lemma insertFile_inv (p : Package) (entry : FileEntry) (filename : string)
    (p' : Package) (entry' : FileEntry) :
  insertFile D p entry filename = Done (p', entry') ->
  let es := m_fileEntries p in
  let hs := headerSize (m_header p) in
  (exists k e,
      es !! k = Some e /\ isDeleted D e = false
      /\ fileSize entry <= wrap64 (byteOffset e - lastEndAfter D hs (take k es))
      /\ (forall j, (j < k)%nat -> fitsAt D hs (fileSize entry) es j = false)
      /\ (k <= length (m_filenames p))%nat
      /\ entry' = set_byteOffset entry (lastEndAfter D hs (take k es))
      /\ p' = mkPackage (m_stream_is_open p) (m_readonly p) (m_dirty p) (m_header p)
                (take k es ++ entry' :: drop k es)
                (take k (m_filenames p) ++ c_str filename :: drop k (m_filenames p))
                (fixHashTable (Z.of_nat k) (m_hashTable p)))
  \/ ((forall j, fitsAt D hs (fileSize entry) es j = false)
      /\ entry' = set_byteOffset entry
                    (match last es with
                     | None => sizeof_PackageHeader D
                     | Some l => wrap64 (byteOffset l + fileSize l)
                     end)
      /\ p' = mkPackage (m_stream_is_open p) (m_readonly p) (m_dirty p)
                (set_fileEntryOffset (m_header p)
                   (wrap64 (byteOffset entry' + fileSize entry')))
                (es ++ [entry']) (m_filenames p ++ [c_str filename])
                (m_hashTable p)).
Proof.
  intros H. cbv zeta. unfold insertFile in H.
  set (es := m_fileEntries p) in *. set (hs := headerSize (m_header p)) in *.
  destruct (insertFile_scan D es 0 hs (fileSize entry)) as [[k lastEnd]|] eqn:Hscan.
  - left. apply insertFile_scan_Some in Hscan as (k' & -> & -> & Hfit & Hb).
    simpl in H. unfold vector_insert in H.
    destruct (k' <=? length es)%nat; simpl in H; [|discriminate].
    destruct (k' <=? length (m_filenames p))%nat eqn:Hn; simpl in H; [|discriminate].
    injection H as <- <-.
    unfold fitsAt in Hfit. destruct (es !! k') as [e|] eqn:He; [|discriminate].
    apply andb_prop in Hfit as [Hl Hf]. apply negb_true_iff in Hl. apply Z.leb_le in Hf.
    exists k', e. apply Nat.leb_le in Hn.
    repeat split; try assumption.
  - right. apply insertFile_scan_None with (j := 0%nat) in Hscan as H0.
    pose proof (insertFile_scan_None D _ _ _ _ Hscan) as Hno.
    injection H as <- <-.
    split; [exact Hno|]. destruct (last es); split; reflexivity.
Qed.

(** [lastEnd] when the scan reaches an entry: past the header and past every
    live entry in front, and not past the entry reached. *)
Lemma lastEndAfter_bounds (hs : Z) (pre : list FileEntry) :
  Forall inRange pre ->
  StronglySorted (liveBefore D) pre ->
  Forall (fun e => hs <= byteOffset e) pre ->
  hs <= lastEndAfter D hs pre
  /\ Forall (fun a => isDeleted D a = false -> entryEnd a <= lastEndAfter D hs pre) pre
  /\ (forall e, isDeleted D e = false -> hs <= byteOffset e ->
        Forall (fun a => liveBefore D a e) pre -> lastEndAfter D hs pre <= byteOffset e).
Proof.
  intros Hr Hss Habove. unfold lastEndAfter.
  destruct (last (liveEntries D pre)) as [l|] eqn:Hlast.
  - apply last_Some in Hlast as [L0 HL].
    assert (l ∈ liveEntries D pre) as Hin by (rewrite HL; apply elem_of_app; right; apply list_elem_of_singleton; reflexivity).
    apply list_elem_of_filter in Hin as [Hlive Hlpre].
    rewrite Forall_forall in Hr, Habove.
    destruct (Hr l Hlpre) as (Ho & Hs & He). unfold entryEnd in He.
    rewrite wrap64_small by lia.
    pose proof (Habove l Hlpre) as Hal.
    split; [lia|]. split.
    + apply Forall_forall. intros a Ha Hla.
      assert (a ∈ liveEntries D pre) as Hain by (apply list_elem_of_filter; auto).
      rewrite HL in Hain. apply elem_of_app in Hain as [Hain|Hain].
      * assert (StronglySorted (liveBefore D) (L0 ++ [l])) as Hss'
          by (rewrite <- HL; apply StronglySorted_filter; exact Hss).
        apply StronglySorted_app in Hss' as (Hcross & _ & _).
        assert (liveBefore D a l) as Hb
          by (apply Hcross; [exact Hain | apply list_elem_of_singleton; reflexivity]).
        specialize (Hb Hla Hlive). unfold entryEnd in *. lia.
      * apply list_elem_of_singleton in Hain. subst a. unfold entryEnd. lia.
    + intros e Hle Hae Hbefore. rewrite Forall_forall in Hbefore.
      specialize (Hbefore l Hlpre Hlive Hle). unfold entryEnd in Hbefore. exact Hbefore.
  - apply last_None in Hlast.
    split; [lia|]. split.
    + apply Forall_forall. intros a Ha Hla. exfalso.
      eapply filter_nil_not_elem_of; [exact Hlast | exact Hla | exact Ha].
    + intros e _ Hae _. exact Hae.
Qed.

Lemma tableEnd_last (es : list FileEntry) :
  Forall inRange es ->
  match last es with
  | None => sizeof_PackageHeader D
  | Some l => wrap64 (byteOffset l + fileSize l)
  end = tableEnd D es.
Proof.
  intros Hr. unfold tableEnd. destruct (last es) as [l|] eqn:Hl; [|reflexivity].
  apply last_Some_elem_of in Hl. rewrite Forall_forall in Hr.
  destruct (Hr l Hl) as (Ho & Hs & He). unfold entryEnd in *.
  apply wrap64_small. lia.
Qed.

(** [insertFile] keeps the layout, as long as the new entry does not reach
    past the range of a [u64]. *)
Lemma insertFile_layout (p : Package) (entry : FileEntry) (filename : string)
    (p' : Package) (entry' : FileEntry) :
  wellSized D p ->
  layoutCore D (headerSize (m_header p)) (m_fileEntries p) ->
  isDeleted D entry = false ->
  insertFile D p entry filename = Done (p', entry') ->
  inRange entry' ->
  layoutCore D (headerSize (m_header p')) (m_fileEntries p')
  /\ headerSize (m_header p') = headerSize (m_header p)
  /\ m_dirty p' = m_dirty p.
Proof.
  intros (Hhs & Hhs0 & Hr) (Hss & Habove & Hbelow) Hlive Hins Hr'.
  assert (isDeleted D entry' = false /\ fileSize entry' = fileSize entry) as [Hlive' Hsz'].
  { apply insertFile_inv in Hins as [(k & e & _ & _ & _ & _ & _ & -> & _)|(_ & -> & _)];
      split; assumption || reflexivity. }
  apply insertFile_inv in Hins
    as [(k & e & He & Hle & Hfit & _ & _ & Hentry & ->)|(_ & Hentry & ->)]; simpl.
  - (* the splice *)
    split; [|split; reflexivity].
    pose proof (take_drop_middle _ _ _ He) as Hmid.
    rewrite (drop_S _ _ _ He).
    set (pre := take k (m_fileEntries p)) in *.
    set (post := drop (S k) (m_fileEntries p)) in *.
    rewrite <- Hmid in Hr, Hss, Habove, Hbelow.
    apply Forall_app in Hr as [Hrpre Hrpost].
    apply Forall_cons in Hrpost as [Hre Hrpost].
    apply Forall_app in Habove as [Hapre Hapost].
    apply Forall_cons in Hapost as [Hae Hapost].
    apply StronglySorted_app in Hss as (Hcross & Hsspre & Hsspost).
    pose proof Hsspost as Hsspost'.
    apply StronglySorted_cons in Hsspost' as [Hepost _].
    destruct (lastEndAfter_bounds (headerSize (m_header p)) pre Hrpre Hsspre Hapre)
      as (B1 & B2 & B3).
    assert (lastEndAfter D (headerSize (m_header p)) pre <= byteOffset e) as B4.
    { apply B3; [assumption | assumption |].
      apply Forall_forall. intros a Ha. apply Hcross; [exact Ha | apply elem_of_cons; auto]. }
    assert (byteOffset entry' = lastEndAfter D (headerSize (m_header p)) pre) as Hoff
      by (rewrite Hentry; reflexivity).
    destruct Hre as (Hoe & Hse & Hee). unfold entryEnd in Hee.
    rewrite wrap64_small in Hfit by lia.
    assert (entryEnd entry' <= byteOffset e) as Hfits
      by (unfold entryEnd; rewrite Hoff, Hsz'; lia).
    assert (tableEnd D (pre ++ entry' :: e :: post) = tableEnd D (pre ++ e :: post)) as Hte.
    { unfold tableEnd. rewrite !last_app_cons, last_cons_cons. reflexivity. }
    split; [|split].
    + apply StronglySorted_app. split; [|split].
      * intros a b Ha Hb. apply elem_of_cons in Hb as [->|Hb].
        -- intros Hla _. rewrite Hoff. rewrite Forall_forall in B2. apply B2; assumption.
        -- apply Hcross; assumption.
      * exact Hsspre.
      * constructor; [exact Hsspost|].
        apply Forall_cons. split.
        -- intros _ _. exact Hfits.
        -- apply Forall_forall. intros y Hy _ Hly.
           rewrite Forall_forall in Hepost. specialize (Hepost y Hy Hle Hly).
           unfold entryEnd in *. lia.
    + apply Forall_app. split; [exact Hapre|].
      apply Forall_cons. split; [lia|].
      apply Forall_cons. split; assumption.
    + rewrite Hte.
      apply Forall_app in Hbelow as [Hbpre Hbpost].
      apply Forall_app. split; [exact Hbpre|].
      apply Forall_cons. split; [|exact Hbpost].
      intros _. apply Forall_cons in Hbpost as [Hbe _]. specialize (Hbe Hle).
      unfold entryEnd in *. lia.
  - (* the append *)
    split; [|split; reflexivity].
    rewrite (tableEnd_last _ Hr) in Hentry.
    assert (byteOffset entry' = tableEnd D (m_fileEntries p)) as Hoff
      by (rewrite Hentry; reflexivity).
    destruct Hr' as (Ho' & Hs' & He').
    assert (headerSize (m_header p) <= tableEnd D (m_fileEntries p)) as Hte.
    { unfold tableEnd. destruct (last (m_fileEntries p)) as [l|] eqn:Hl; [|lia].
      apply last_Some_elem_of in Hl. rewrite Forall_forall in Hr, Habove.
      destruct (Hr l Hl) as (? & ? & ?). specialize (Habove l Hl).
      unfold entryEnd. lia. }
    split; [|split].
    + apply StronglySorted_app. split; [|split].
      * intros a b Ha Hb. apply list_elem_of_singleton in Hb as ->.
        intros Hla _. rewrite Hoff. rewrite Forall_forall in Hbelow. apply Hbelow; assumption.
      * exact Hss.
      * repeat constructor.
    + apply Forall_app. split; [exact Habove|].
      apply Forall_singleton. lia.
    + assert (tableEnd D (m_fileEntries p ++ [entry']) = entryEnd entry') as ->
        by (unfold tableEnd; rewrite last_snoc; reflexivity).
      apply Forall_app. split.
      * eapply Forall_impl; [exact Hbelow|]. simpl. intros a Ha Hla.
        specialize (Ha Hla). unfold entryEnd in *. lia.
      * apply Forall_singleton. intros _. lia.
Qed.

End Insertion.

(** ** What each call does to the package *)

Section Calls.

Context (D : Declarations).

Lemma removeFile_inv (p : Package) (filename : string) (b : bool) (p' : Package) :
  removeFile D p filename = Done (b, p') ->
  (b = false /\ p' = p)
  \/ (b = true /\ m_readonly p = false
      /\ exists i, getFileIndex D p filename = Done i /\ 0 <= i
         /\ p' = mkPackage (m_stream_is_open p) (m_readonly p) true
                   (recountFilenameOffset D
                      (set_fileCount (m_header p) (wrap32 (fileCount (m_header p) - 1))))
                   (alter (markDeleted D) (Z.to_nat i) (m_fileEntries p))
                   (m_filenames p) (m_hashTable p)).
Proof.
  unfold removeFile. destruct (m_readonly p) eqn:Hro.
  - intros [= <- <-]. left. auto.
  - destruct (getFileIndex D p filename) as [i|] eqn:Hi; simpl; [|discriminate].
    destruct (i <? 0) eqn:C.
    + intros [= <- <-]. left. auto.
    + intros [= <- <-]. right. split; [reflexivity|]. split; [reflexivity|].
      exists i. split; [reflexivity|]. split; [lia|].
      unfold_with. rewrite Hro. reflexivity.
Qed.

Lemma addFile_inv (p : Package) (source : option Z) (filename : string) (flags : Z)
    (b : bool) (p' : Package) :
  addFile D p source filename flags = Done (b, p') ->
  (b = false /\ p' = p)
  \/ (b = true /\ m_readonly p = false
      /\ exists n p1 p2 entry',
           source = Some n
           /\ (p1 = p \/ exists b1, removeFile D p filename = Done (b1, p1))
           /\ insertFile D p1
                (mkFileEntry (stringHash filename HASH_SEED0)
                   (stringHash filename HASH_SEED1)
                   (stringHash filename HASH_SEED2) 0 0 (wrap32 n))
                filename = Done (p2, entry')
           /\ p' = mkPackage (m_stream_is_open p2) (m_readonly p2) true
                     (recountFilenameOffset D
                        (set_fileCount (m_header p2) (wrap32 (fileCount (m_header p2) + 1))))
                     (m_fileEntries p2) (m_filenames p2) (m_hashTable p2)).
Proof.
  unfold addFile. destruct (m_readonly p) eqn:Hro.
  { intros [= <- <-]. left. auto. }
  destruct source as [n|]; [|intros [= <- <-]; left; auto].
  destruct (getFileIndex D p filename) as [i|] eqn:Hi; simpl; [|discriminate].
  assert (forall p1,
    (p1 = p \/ exists b1, removeFile D p filename = Done (b1, p1)) ->
    ('(p2, _) ← insertFile D p1
        (mkFileEntry (stringHash filename HASH_SEED0) (stringHash filename HASH_SEED1)
           (stringHash filename HASH_SEED2) 0 0 (wrap32 n)) filename;
      Done (true, with_dirty (with_header p2
              (recountFilenameOffset D
                 (set_fileCount (m_header p2) (wrap32 (fileCount (m_header p2) + 1))))) true))
    = Done (b, p') ->
    (b = false /\ p' = p)
    \/ (b = true /\ false = false
        /\ exists n0 p1 p2 entry',
             Some n = Some n0
             /\ (p1 = p \/ exists b1, removeFile D p filename = Done (b1, p1))
             /\ insertFile D p1
                  (mkFileEntry (stringHash filename HASH_SEED0)
                     (stringHash filename HASH_SEED1)
                     (stringHash filename HASH_SEED2) 0 0 (wrap32 n0))
                  filename = Done (p2, entry')
             /\ p' = mkPackage (m_stream_is_open p2) (m_readonly p2) true
                       (recountFilenameOffset D
                          (set_fileCount (m_header p2) (wrap32 (fileCount (m_header p2) + 1))))
                       (m_fileEntries p2) (m_filenames p2) (m_hashTable p2))) as Hgo.
  { intros p1 Hp1 H.
    destruct (insertFile D p1 _ filename) as [[p2 entry']|] eqn:Hins; simpl in H; [|discriminate].
    injection H as <- <-. right. split; [reflexivity|]. split; [reflexivity|].
    exists n, p1, p2, entry'. repeat split; try assumption. }
  destruct (i >=? 0).
  - destruct (Z.land flags (FLAG_REPLACE D) =? 0); simpl.
    + intros [= <- <-]. left. auto.
    + destruct (removeFile D p filename) as [[b1 p1]|] eqn:Hrm; simpl; [|discriminate].
      apply Hgo. right. exists b1. reflexivity.
  - simpl. apply Hgo. left. reflexivity.
Qed.

Lemma buildHashTable_inv (p : Package) (b : bool) (p' : Package) :
  buildHashTable p = Done (b, p') -> exists t, p' = with_hashTable p t.
Proof.
  unfold buildHashTable.
  destruct (growTableSize _ _ _) as [[half|]|]; simpl; [| |discriminate].
  - destruct (fillHashTable _ _ _ _) as [t|]; simpl; [|discriminate].
    intros [= <- <-]. exists t. reflexivity.
  - intros [= <- <-]. exists (m_hashTable p). destruct p; reflexivity.
Qed.

Lemma flush_inv (p p' : Package) :
  flush D p = Done p' ->
  p' = p
  \/ (m_readonly p = false /\ m_dirty p = true
      /\ exists ns t,
           flush_entries D (m_fileEntries p) (m_filenames p)
           = Done (liveEntries D (m_fileEntries p), ns)
           /\ p' = mkPackage (m_stream_is_open p) (m_readonly p) false
                     (set_filenameSize (m_header p) (countFilenameSize ns))
                     (liveEntries D (m_fileEntries p)) ns t).
Proof.
  unfold flush. destruct (m_readonly p) eqn:Hro; simpl.
  { intros [= <-]. left. reflexivity. }
  destruct (m_dirty p) eqn:Hd; simpl.
  2:{ intros [= <-]. left. reflexivity. }
  destruct (flush_entries D _ _) as [[es ns]|] eqn:Hfl; simpl; [|discriminate].
  pose proof (flush_entries_live D _ _ _ _ Hfl) as ->.
  destruct (buildHashTable _) as [[b p2]|] eqn:Hb; simpl; [|discriminate].
  apply buildHashTable_inv in Hb as [t ->].
  intros [= <-]. right. split; [reflexivity|]. split; [reflexivity|].
  exists ns, t. split; [reflexivity|]. unfold_with. rewrite Hro. reflexivity.
Qed.

Lemma defrag_inv (p : Package) (reopened b : bool) (p' : Package) :
  defrag D p reopened = Done (b, p') ->
  (b = false /\ p' = p)
  \/ (m_readonly p = false /\ m_dirty p = false
      /\ exists p2,
           flush D (mkPackage (m_stream_is_open p) (m_readonly p) true
                      (recountFilenameOffset D
                         (set_fileEntryOffset (m_header p)
                            (snd (defrag_pack (m_fileEntries p) (headerSize (m_header p))))))
                      (fst (defrag_pack (m_fileEntries p) (headerSize (m_header p))))
                      (m_filenames p) (m_hashTable p)) = Done p2
           /\ p' = with_stream p2 reopened /\ b = reopened).
Proof.
  unfold defrag. destruct (m_readonly p) eqn:Hro; simpl.
  { intros [= <- <-]. left. auto. }
  destruct (m_dirty p) eqn:Hd; simpl.
  { intros [= <- <-]. left. auto. }
  destruct (defrag_pack _ _) as [es nextPos]. simpl.
  unfold_with. rewrite Hro.
  destruct (flush D _) as [p2|] eqn:Hfl; simpl; [|discriminate].
  intros H. right. split; [reflexivity|]. split; [reflexivity|].
  exists p2. split; [reflexivity|].
  destruct reopened; injection H as <- <-; auto.
Qed.

End Calls.

(** ** The layout is kept by every call *)

Section LayoutKept.

Context (D : Declarations).

Lemma chain_below_last (es : list FileEntry) :
  StronglySorted allBefore es -> Forall inRange es ->
  Forall (fun e => entryEnd e <= tableEnd D es) es.
Proof.
  intros Hss Hr. unfold tableEnd.
  destruct (last es) as [l|] eqn:Hl.
  - apply last_Some in Hl as [es0 ->].
    apply StronglySorted_app in Hss as (Hcross & _ & _).
    apply Forall_app in Hr as [_ Hrl]. apply Forall_singleton in Hrl as (_ & Hs & _).
    apply Forall_app. split.
    + apply Forall_forall. intros a Ha.
      assert (allBefore a l) as Hb
        by (apply Hcross; [exact Ha | apply list_elem_of_singleton; reflexivity]).
      unfold allBefore, entryEnd in *. lia.
    + apply Forall_singleton. lia.
  - apply last_None in Hl. subst es. constructor.
Qed.

Lemma allBefore_liveBefore (es : list FileEntry) :
  StronglySorted allBefore es -> StronglySorted (liveBefore D) es.
Proof.
  apply (StronglySorted_weaken allBefore (liveBefore D) (fun _ => True)).
  - intros a b _ _ H _ _. exact H.
  - apply Forall_forall. auto.
Qed.

(** A table that is in order as a whole has the layout. *)
Lemma chain_layoutCore (hs : Z) (es : list FileEntry) :
  StronglySorted allBefore es -> Forall inRange es ->
  Forall (fun e => hs <= byteOffset e) es ->
  layoutCore D hs es.
Proof.
  intros Hss Hr Ha. split; [|split].
  - apply allBefore_liveBefore. exact Hss.
  - exact Ha.
  - eapply Forall_impl; [apply chain_below_last; assumption|]. simpl. auto.
Qed.

Lemma removeFile_layout (p : Package) (filename : string) (b : bool) (p' : Package) :
  removeFile D p filename = Done (b, p') ->
  layoutInv D p -> wellSized D p ->
  layoutInv D p' /\ wellSized D p'.
Proof.
  intros H Hinv Hws.
  apply removeFile_inv in H as [[_ ->]|(_ & _ & i & _ & _ & ->)]; [auto|].
  destruct Hinv as ((Hss & Ha & Hb) & _). destruct Hws as (Hhs & Hhs0 & Hr).
  pose proof (alter_sameExtent D (m_fileEntries p) (Z.to_nat i)) as H2.
  split.
  - split; [|simpl; discriminate]. simpl. split; [|split].
    + eapply sameExtent_liveBefore; eassumption.
    + eapply sameExtent_above; eassumption.
    + eapply sameExtent_belowEnd; eassumption.
  - split; [exact Hhs|]. split; [exact Hhs0|]. simpl.
    eapply sameExtent_inRange; eassumption.
Qed.

Lemma addFile_layout (p : Package) (source : option Z) (filename : string)
    (flags : Z) (b : bool) (p' : Package) :
  addFile D p source filename flags = Done (b, p') ->
  layoutInv D p -> wellSized D p -> wellSized D p' ->
  layoutInv D p'.
Proof.
  intros H Hinv Hws Hws'.
  apply addFile_inv in H as [[_ ->]|(_ & _ & n & p1 & p2 & entry' & _ & Hp1 & Hins & ->)];
    [assumption|].
  assert (layoutInv D p1 /\ wellSized D p1) as [Hinv1 Hws1].
  { destruct Hp1 as [->|[b1 Hrm]]; [auto|]. eapply removeFile_layout; eassumption. }
  destruct Hws' as (_ & _ & Hr'). simpl in Hr'.
  assert (inRange entry') as Hre.
  { rewrite Forall_forall in Hr'. apply Hr'.
    apply insertFile_inv in Hins as [(k & e & _ & _ & _ & _ & _ & _ & ->)|(_ & _ & ->)]; simpl.
    - apply elem_of_app. right. apply elem_of_cons. left. reflexivity.
    - apply elem_of_app. right. apply list_elem_of_singleton. reflexivity. }
  destruct Hinv1 as (Hcore & _).
  match type of Hins with insertFile _ _ ?e _ = _ => set (entry := e) in Hins end.
  assert (isDeleted D entry = false) as Hlive by reflexivity.
  destruct (insertFile_layout D p1 entry filename p2 entry' Hws1 Hcore Hlive Hins Hre)
    as (Hcore2 & _ & _).
  split; [exact Hcore2 | simpl; discriminate].
Qed.

Lemma flush_layout (p p' : Package) :
  flush D p = Done p' ->
  layoutInv D p -> wellSized D p ->
  layoutInv D p' /\ wellSized D p'.
Proof.
  intros H Hinv Hws.
  apply flush_inv in H as [->|(_ & _ & ns & t & _ & ->)]; [auto|].
  destruct Hinv as ((Hss & Ha & Hb) & _). destruct Hws as (Hhs & Hhs0 & Hr).
  assert (Forall inRange (liveEntries D (m_fileEntries p))) as Hr'.
  { apply Forall_forall. intros e He. apply list_elem_of_filter in He as [_ He].
    rewrite Forall_forall in Hr. auto. }
  assert (Forall (fun e => headerSize (m_header p) <= byteOffset e)
            (liveEntries D (m_fileEntries p))) as Ha'.
  { apply Forall_forall. intros e He. apply list_elem_of_filter in He as [_ He].
    rewrite Forall_forall in Ha. auto. }
  assert (StronglySorted allBefore (liveEntries D (m_fileEntries p))) as Hss'.
  { apply (StronglySorted_weaken (liveBefore D) allBefore (fun e => isDeleted D e = false)).
    - intros a b' Hla Hlb Hab. apply Hab; assumption.
    - apply liveEntries_all_live.
    - apply StronglySorted_filter. exact Hss. }
  split.
  - split; [|intros _; exact Hss']. simpl. apply chain_layoutCore; assumption.
  - split; [exact Hhs|]. split; [exact Hhs0|]. exact Hr'.
Qed.

(** The relocation loop of [defrag] on a table that is in order: every
    entry moves down to the end of the one before. *)
Lemma defrag_pack_chain (es : list FileEntry) : forall (nextPos : Z),
  0 <= nextPos ->
  Forall inRange es ->
  Forall (fun e => nextPos <= byteOffset e) es ->
  StronglySorted allBefore es ->
  Forall inRange (fst (defrag_pack es nextPos))
  /\ Forall (fun e => nextPos <= byteOffset e) (fst (defrag_pack es nextPos))
  /\ StronglySorted allBefore (fst (defrag_pack es nextPos)).
Proof.
  induction es as [|e es IH]; intros nextPos Hpos Hr Ha Hss; simpl.
  - repeat split; constructor.
  - apply Forall_cons in Hr as [(Ho & Hs & He) Hr].
    apply Forall_cons in Ha as [Hae Ha].
    apply StronglySorted_cons in Hss as [Hbefore Hss].
    set (e' := if negb (byteOffset e =? nextPos) then set_byteOffset e nextPos else e).
    assert (byteOffset e' = nextPos /\ fileSize e' = fileSize e) as [Hoff Hsz].
    { subst e'. destruct (byteOffset e =? nextPos) eqn:C; simpl; [|auto].
      apply Z.eqb_eq in C. auto. }
    unfold entryEnd in He.
    assert (wrap64 (nextPos + fileSize e') = nextPos + fileSize e) as Hw
      by (rewrite Hsz; apply wrap64_small; lia).
    rewrite Hw.
    destruct (IH (nextPos + fileSize e)) as (I1 & I2 & I3); [lia | assumption | | assumption |].
    { eapply Forall_impl; [exact Hbefore|]. simpl. unfold allBefore, entryEnd. intros; lia. }
    destruct (defrag_pack es (nextPos + fileSize e)) as [rest endPos]. simpl in *.
    split; [|split].
    + apply Forall_cons. split; [|exact I1].
      unfold inRange, entryEnd. rewrite Hoff, Hsz. lia.
    + apply Forall_cons. split; [lia|].
      eapply Forall_impl; [exact I2|]. simpl. intros; lia.
    + constructor; [exact I3|].
      eapply Forall_impl; [exact I2|]. simpl.
      unfold allBefore, entryEnd. rewrite Hoff, Hsz. auto.
Qed.

Lemma defrag_layout (p : Package) (reopened b : bool) (p' : Package) :
  defrag D p reopened = Done (b, p') ->
  layoutInv D p -> wellSized D p ->
  layoutInv D p' /\ wellSized D p'.
Proof.
  intros H Hinv Hws.
  apply defrag_inv in H as [[_ ->]|(_ & Hd & p2 & Hfl & -> & _)]; [auto|].
  destruct Hinv as ((_ & Ha & _) & Hall). specialize (Hall Hd).
  destruct Hws as (Hhs & Hhs0 & Hr).
  destruct (defrag_pack_chain (m_fileEntries p) (headerSize (m_header p)) Hhs0 Hr Ha Hall)
    as (P1 & P2 & P3).
  apply flush_layout in Hfl as [Hinv2 Hws2].
  - split; [exact Hinv2 | exact Hws2].
  - split; [|simpl; discriminate]. simpl. apply chain_layoutCore; assumption.
  - split; [exact Hhs|]. split; [exact Hhs0|]. exact P1.
Qed.

(** The loop of [readFileEntries] accepts only tables that are in order. *)
Lemma readFileEntries_loop_chain (a : Archive) (h : PackageHeader) (n : nat) :
  forall (i nextOffset : Z) (es : list FileEntry),
  readFileEntries_loop a h n i nextOffset = (true, es) ->
  Forall inRange es ->
  Forall (fun e => nextOffset <= byteOffset e) es /\ StronglySorted allBefore es.
Proof.
  induction n as [|n IH]; intros i nextOffset es H Hr; simpl in H.
  - injection H as <-. split; constructor.
  - destruct (nextOffset >=? fileEntryOffset h); [discriminate|].
    destruct (byteOffset (a_fileEntry a i) <? nextOffset) eqn:C; [discriminate|].
    destruct (readFileEntries_loop a h n (i + 1) _) as [ok rest] eqn:Hloop.
    injection H as -> <-.
    apply Forall_cons in Hr as [(Ho & Hs & He) Hr]. unfold entryEnd in He.
    rewrite wrap64_small in Hloop by lia.
    destruct (IH _ _ _ Hloop Hr) as [I1 I2].
    apply Z.ltb_ge in C.
    split.
    + apply Forall_cons. split; [exact C|].
      eapply Forall_impl; [exact I1|]. simpl. intros; lia.
    + constructor; [exact I2|]. exact I1.
Qed.

Lemma Package_ctor_valid (a : Archive) (readonly : bool) (p : Package) :
  Package_ctor D a readonly = Done p -> valid p = true ->
  loads D a readonly = true
  /\ exists t, p = with_hashTable (afterNames D a readonly) t.
Proof.
  intros H Hv. destruct (loads D a readonly) eqn:Hl.
  - split; [reflexivity|].
    rewrite (Package_ctor_loads D a readonly Hl) in H.
    destruct (buildHashTable _) as [[b p4]|] eqn:Hb; simpl in H; [|discriminate].
    injection H as <-. eapply buildHashTable_inv. exact Hb.
  - destruct (Package_ctor_rejects D a readonly Hl) as (p0 & H0 & Hv0 & _).
    rewrite H0 in H. injection H as <-. congruence.
Qed.

Lemma afterNames_entries (a : Archive) (readonly : bool) :
  loads D a readonly = true ->
  readFileEntries_loop a (a_header a) (Z.to_nat (fileCount (a_header a))) 0
    (headerSize (a_header a))
  = (true, m_fileEntries (afterNames D a readonly)).
Proof.
  intros Hl.
  destruct (afterNames_fields D a readonly Hl) as (_ & _ & _ & _ & _ & ->).
  unfold loads in Hl. apply andb_prop in Hl as [Hl H3]. apply andb_prop in Hl as [H1 H2].
  unfold afterEntries in *.
  destruct (readHeader_fields D a (initialPackage a readonly)) as (_ & _ & _ & _ & _ & Hh).
  fold (afterHeader D a readonly) in Hh. specialize (Hh H2).
  unfold readFileEntries in *. rewrite Hh in *.
  destruct (readFileEntries_loop _ _ _ _ _) as [ok es]. simpl in *. subst ok. reflexivity.
Qed.

Lemma Package_ctor_layout (a : Archive) (readonly : bool) (p : Package) :
  Package_ctor D a readonly = Done p -> valid p = true -> wellSized D p ->
  layoutInv D p.
Proof.
  intros H Hv (Hhs & Hhs0 & Hr).
  destruct (Package_ctor_valid a readonly p H Hv) as (Hl & t & ->).
  destruct (afterNames_fields D a readonly Hl) as (_ & Hd & Hh & _ & _ & _).
  pose proof (afterNames_entries a readonly Hl) as Hloop.
  simpl in *. rewrite Hh in *.
  destruct (readFileEntries_loop_chain _ _ _ _ _ _ Hloop Hr) as [C1 C2].
  split; [|intros _; exact C2].
  simpl. rewrite Hh. apply chain_layoutCore; assumption.
Qed.

Lemma reachable_ok (ok : Package -> Prop) (a : Archive) (readonly : bool) (p : Package) :
  reachable D ok a readonly p -> ok p.
Proof. destruct 1; assumption. Qed.

(** The layout holds wherever a caller can look. *)
Lemma reachable_layout (a : Archive) (readonly : bool) (p : Package) :
  reachable D (wellSized D) a readonly p -> layoutInv D p.
Proof.
  induction 1 as [p Hctor Hv Hok | p c p' Hreach IH Hcall Hok].
  - eapply Package_ctor_layout; eassumption.
  - pose proof (reachable_ok _ _ _ _ Hreach) as Hws.
    destruct c as [source filename flags | filename | | reopened]; simpl in Hcall.
    + destruct (addFile D p source filename flags) as [[b q]|] eqn:E; simpl in Hcall; [|discriminate].
      injection Hcall as ->. eapply addFile_layout; eassumption.
    + destruct (removeFile D p filename) as [[b q]|] eqn:E; simpl in Hcall; [|discriminate].
      injection Hcall as ->. eapply removeFile_layout; eassumption.
    + eapply flush_layout; eassumption.
    + destruct (defrag D p reopened) as [[b q]|] eqn:E; simpl in Hcall; [|discriminate].
      injection Hcall as ->. eapply defrag_layout; eassumption.
Qed.

End LayoutKept.

(** ** The name table against the entry table *)

Section Names.

Context (D : Declarations).

Lemma stringHash_loop_c_str (s : string) (seed : Z) : forall out,
  stringHash_loop out (c_str s) seed = stringHash_loop out s seed.
Proof.
  induction s as [|c s IH]; intros out; simpl; [reflexivity|].
  destruct (Z.of_N (Ascii.N_of_ascii c) =? 0) eqn:E; simpl; [reflexivity|].
  rewrite E. apply IH.
Qed.

Lemma stringHash_c_str (s : string) (seed : Z) :
  stringHash (c_str s) seed = stringHash s seed.
Proof. apply stringHash_loop_c_str. Qed.

Lemma named_Pairing : Pairing D named.
Proof.
  split.
  - intros e n H. exact H.
  - intros e n v H. exact H.
  - intros filename v s. unfold named. simpl. rewrite !stringHash_c_str. auto.
Qed.

Lemma trivial_Pairing : Pairing D (fun _ _ => True).
Proof. split; auto. Qed.

Section Kept.

Context (R : FileEntry -> string -> Prop) (HR : Pairing D R).

Lemma flush_entries_paired (es : list FileEntry) (ns : list string) :
  Forall2 R es ns ->
  forall es' ns', flush_entries D es ns = Done (es', ns') -> Forall2 R es' ns'.
Proof.
  induction 1 as [|e n es ns He H2 IH]; intros es' ns' H; simpl in H.
  - injection H as <- <-. constructor.
  - destruct (flush_entries D es ns) as [[es2 ns2]|]; simpl in H; [|discriminate].
    specialize (IH _ _ eq_refl).
    destruct (isDeleted D e); injection H as <- <-; [exact IH | constructor; assumption].
Qed.

Lemma defrag_pack_paired (es : list FileEntry) (ns : list string) :
  Forall2 R es ns -> forall nextPos, Forall2 R (fst (defrag_pack es nextPos)) ns.
Proof.
  induction 1 as [|e n es ns He H2 IH]; intros nextPos; simpl; [constructor|].
  specialize (IH (wrap64 (nextPos + fileSize
    (if negb (byteOffset e =? nextPos) then set_byteOffset e nextPos else e)))).
  destruct (defrag_pack es _) as [rest endPos]. simpl in *.
  constructor; [|exact IH].
  destruct (negb (byteOffset e =? nextPos)); [|exact He].
  apply (pairing_set_byteOffset D R HR). exact He.
Qed.

Lemma removeFile_names (p : Package) (filename : string) (b : bool) (p' : Package) :
  removeFile D p filename = Done (b, p') -> namesInv R p -> namesInv R p'.
Proof.
  intros H [Hw Hro].
  apply removeFile_inv in H as [[_ ->]|(_ & Hrw & i & _ & _ & ->)]; [split; assumption|].
  split; simpl; [|congruence].
  intros _. apply Forall2_alter_l; [auto|].
  intros x y _ _ Hxy. apply (pairing_markDeleted D R HR). exact Hxy.
Qed.

Lemma insertFile_names (p : Package) (filename : string) (v s : Z)
    (p' : Package) (entry' : FileEntry) :
  insertFile D p
    (mkFileEntry (stringHash filename HASH_SEED0) (stringHash filename HASH_SEED1)
       (stringHash filename HASH_SEED2) 0 v s) filename = Done (p', entry') ->
  Forall2 R (m_fileEntries p) (m_filenames p) ->
  Forall2 R (m_fileEntries p') (m_filenames p') /\ m_readonly p' = m_readonly p.
Proof.
  intros H H2.
  apply insertFile_inv in H as [(k & e & _ & _ & _ & _ & _ & -> & ->)|(_ & -> & ->)];
    simpl; (split; [|reflexivity]).
  - apply Forall2_app; [apply Forall2_take; exact H2|].
    constructor; [|apply Forall2_drop; exact H2].
    apply (pairing_new D R HR).
  - apply Forall2_app; [exact H2|].
    constructor; [|constructor].
    destruct (last (m_fileEntries p)); apply (pairing_new D R HR).
Qed.

Lemma addFile_names (p : Package) (source : option Z) (filename : string)
    (flags : Z) (b : bool) (p' : Package) :
  addFile D p source filename flags = Done (b, p') -> namesInv R p -> namesInv R p'.
Proof.
  intros H Hinv.
  apply addFile_inv in H as [[_ ->]|(_ & Hrw & n & p1 & p2 & entry' & _ & Hp1 & Hins & ->)];
    [assumption|].
  assert (namesInv R p1 /\ m_readonly p1 = false) as [[Hw1 _] Hrw1].
  { destruct Hp1 as [->|[b1 Hrm]]; [auto|]. split.
    - eapply removeFile_names; eassumption.
    - apply removeFile_inv in Hrm as [[_ ->]|(_ & _ & i & _ & _ & ->)]; assumption. }
  apply insertFile_names in Hins as [H2 Hro2]; [|auto].
  split; simpl; [auto | congruence].
Qed.

Lemma flush_names (p p' : Package) :
  flush D p = Done p' -> namesInv R p -> namesInv R p'.
Proof.
  intros H [Hw Hro].
  apply flush_inv in H as [->|(Hrw & _ & ns & t & Hfl & ->)]; [split; assumption|].
  split; simpl; [|congruence].
  intros _. eapply flush_entries_paired; [apply Hw; exact Hrw | exact Hfl].
Qed.

Lemma defrag_names (p : Package) (reopened b : bool) (p' : Package) :
  defrag D p reopened = Done (b, p') -> namesInv R p -> namesInv R p'.
Proof.
  intros H [Hw Hro].
  apply defrag_inv in H as [[_ ->]|(Hrw & _ & p2 & Hfl & -> & _)]; [split; assumption|].
  apply flush_names in Hfl as [Hw2 Hro2].
  - split; simpl; assumption.
  - split; simpl; [|congruence].
    intros _. apply defrag_pack_paired. apply Hw. exact Hrw.
Qed.

Lemma readFileEntries_loop_paired (a : Archive) (h : PackageHeader) (n : nat) :
  forall (i nextOffset : Z) (es : list FileEntry),
  0 <= i ->
  (forall j, 0 <= j -> R (a_fileEntry a j) (a_getline a j)) ->
  readFileEntries_loop a h n i nextOffset = (true, es) ->
  Forall2 R es (readFilenames_loop a n i).
Proof.
  induction n as [|n IH]; intros i nextOffset es Hi Ha H; simpl in H.
  - injection H as <-. constructor.
  - destruct (nextOffset >=? fileEntryOffset h); [discriminate|].
    destruct (byteOffset (a_fileEntry a i) <? nextOffset); [discriminate|].
    destruct (readFileEntries_loop a h n (i + 1) _) as [ok rest] eqn:Hloop.
    injection H as -> <-. simpl. constructor; [apply Ha; exact Hi|].
    eapply IH; [lia | exact Ha | exact Hloop].
Qed.

Lemma Package_ctor_names (a : Archive) (readonly : bool) (p : Package) :
  Package_ctor D a readonly = Done p -> valid p = true ->
  (forall j, 0 <= j -> R (a_fileEntry a j) (a_getline a j)) ->
  namesInv R p.
Proof.
  intros H Hv Ha.
  destruct (Package_ctor_valid D a readonly p H Hv) as (Hl & t & ->).
  pose proof (afterNames_entries D a readonly Hl) as Hloop.
  destruct (afterNames_fields D a readonly Hl) as (_ & _ & _ & _ & Hlen & Hes).
  unfold namesInv. simpl.
  unfold afterNames in *. rewrite Hes in Hloop.
  pose proof (readFileEntries_loop_length a (a_header a)
                (Z.to_nat (fileCount (a_header a))) 0 (headerSize (a_header a))) as Hn.
  rewrite Hloop in Hn. simpl in Hn.
  set (p2 := snd (afterEntries D a readonly)) in *.
  assert (m_filenames p2 = []) as Hns0.
  { subst p2. unfold afterEntries.
    destruct (readFileEntries_fields a (snd (afterHeader D a readonly)))
      as (_ & _ & _ & _ & -> & _).
    unfold afterHeader.
    destruct (readHeader_fields D a (initialPackage a readonly)) as (_ & _ & _ & -> & _).
    reflexivity. }
  unfold readFilenames.
  destruct (m_fileEntries p2) as [|e es] eqn:Hes2; simpl.
  - rewrite Hes2, Hns0. split; intros _; [constructor | reflexivity].
  - destruct (m_readonly p2) eqn:Hro; simpl; rewrite Hes2, Hro.
    + rewrite Hns0. split; [discriminate | reflexivity].
    + split; [|discriminate]. intros _.
      rewrite <- Hn in Hloop.
      exact (readFileEntries_loop_paired a (a_header a) (length (e :: es)) 0
               (headerSize (a_header a)) (e :: es) ltac:(lia) Ha Hloop).
Qed.

(** The pairing holds wherever a caller can look. *)
Lemma reachable_names (ok : Package -> Prop) (a : Archive) (readonly : bool) (p : Package) :
  (forall j, 0 <= j -> R (a_fileEntry a j) (a_getline a j)) ->
  reachable D ok a readonly p -> namesInv R p.
Proof.
  intros Ha. induction 1 as [p Hctor Hv Hok | p c p' Hreach IH Hcall Hok].
  - eapply Package_ctor_names; eassumption.
  - destruct c as [source filename flags | filename | | reopened]; simpl in Hcall.
    + destruct (addFile D p source filename flags) as [[b q]|] eqn:E; simpl in Hcall; [|discriminate].
      injection Hcall as ->. eapply addFile_names; eassumption.
    + destruct (removeFile D p filename) as [[b q]|] eqn:E; simpl in Hcall; [|discriminate].
      injection Hcall as ->. eapply removeFile_names; eassumption.
    + eapply flush_names; eassumption.
    + destruct (defrag D p reopened) as [[b q]|] eqn:E; simpl in Hcall; [|discriminate].
      injection Hcall as ->. eapply defrag_names; eassumption.
Qed.

End Kept.

End Names.

(** ** Every call returns *)

Section Progress.

Context (D : Declarations).

Hypothesis flag_set : FILE_FLAG_DELETED D <> 0.

Lemma getFileIndex_loop_found (fuel : nat) : forall (table : list Z)
    (es : list FileEntry) (h0 h1 h2 start i : Z),
  getFileIndex_loop D fuel table es h0 h1 h2 start = Done i -> 0 <= i ->
  exists e, es !! Z.to_nat i = Some e /\ isDeleted D e = false
    /\ hashesMatch e h0 h1 h2 = true.
Proof.
  induction fuel as [|fuel IH]; intros table es h0 h1 h2 start i H Hi; simpl in H;
    [discriminate|].
  destruct (table !! Z.to_nat start) as [fi|]; [|discriminate].
  destruct (fi <? 0); [injection H as <-; lia|].
  destruct (es !! Z.to_nat fi) as [e|] eqn:He; [|discriminate].
  destruct (hashesMatch e h0 h1 h2) eqn:Hm.
  - destruct (isDeleted D e) eqn:Hd; injection H as <-; [lia|].
    exists e. auto.
  - eapply IH; eassumption.
Qed.

(** A found index is the index of a live entry. *)
Lemma getFileIndex_found (p : Package) (filename : string) (i : Z) :
  getFileIndex D p filename = Done i -> 0 <= i ->
  exists e, m_fileEntries p !! Z.to_nat i = Some e /\ isDeleted D e = false.
Proof.
  unfold getFileIndex. destruct (_ =? 0); [discriminate|].
  intros H Hi. destruct (getFileIndex_loop_found _ _ _ _ _ _ _ _ H Hi) as (e & He & Hl & _).
  exists e. auto.
Qed.

Lemma liveEntries_alter (es : list FileEntry) : forall (i : nat) (e : FileEntry),
  es !! i = Some e -> isDeleted D e = false ->
  S (length (liveEntries D (alter (markDeleted D) i es))) = length (liveEntries D es).
Proof.
  induction es as [|x es IH]; intros i e Hi Hl; [discriminate|].
  destruct i as [|i]; simpl in Hi.
  - injection Hi as ->. simpl alter.
    rewrite !liveEntries_cons, isDeleted_markDeleted, Hl.
    destruct (FILE_FLAG_DELETED D =? 0) eqn:E; [lia | reflexivity].
  - simpl alter. rewrite !liveEntries_cons.
    destruct (isDeleted D x); simpl; rewrite <- (IH i e Hi Hl); reflexivity.
Qed.

Lemma occupied_fixHashTable (k : Z) (t : list Z) :
  0 <= k -> occupied (fixHashTable k t) = occupied t.
Proof.
  intros Hk. induction t as [|v t IH]; [reflexivity|].
  change (fixHashTable k (v :: t))
    with ((if v >=? k then v + 1 else v) :: fixHashTable k t).
  simpl occupied. rewrite IH.
  destruct (v >=? k) eqn:C.
  - destruct (v + 1 =? -1) eqn:E1; [lia|]. destruct (v =? -1) eqn:E2; [lia | reflexivity].
  - reflexivity.
Qed.

Lemma defrag_pack_length (es : list FileEntry) : forall nextPos,
  length (fst (defrag_pack es nextPos)) = length es
  /\ length (liveEntries D (fst (defrag_pack es nextPos))) = length (liveEntries D es).
Proof.
  induction es as [|e es IH]; intros nextPos; simpl; [auto|].
  specialize (IH (wrap64 (nextPos + fileSize
    (if negb (byteOffset e =? nextPos) then set_byteOffset e nextPos else e)))).
  destruct (defrag_pack es _) as [rest endPos]. simpl in *.
  destruct IH as [IH1 IH2]. split; [lia|].
  rewrite !liveEntries_cons.
  assert (isDeleted D (if negb (byteOffset e =? nextPos)
                       then set_byteOffset e nextPos else e) = isDeleted D e) as ->
    by (destruct (negb _); reflexivity).
  destruct (isDeleted D e); simpl; lia.
Qed.

Lemma removeFile_serviceable (p : Package) (filename : string) (b : bool) (p' : Package) :
  removeFile D p filename = Done (b, p') ->
  serviceable D p -> withinCapacity p ->
  serviceable D p' /\ withinCapacity p' /\ m_readonly p' = m_readonly p.
Proof.
  intros H Hs Hcap.
  apply removeFile_inv in H as [[_ ->]|(_ & Hrw & i & Hg & Hi & ->)]; [auto|].
  destruct Hs as (Hu & Hn & Hc).
  destruct (getFileIndex_found p filename i Hg Hi) as (e & He & Hl).
  pose proof (liveEntries_alter _ _ _ He Hl) as Hlive.
  unfold serviceable, withinCapacity, indexUsable in *. simpl.
  rewrite length_alter.
  assert (wrap32 (fileCount (m_header p) - 1) = fileCount (m_header p) - 1) as ->.
  { apply wrap32_small. unfold MAX_HASH_TABLE_SIZE in Hcap. lia. }
  repeat split; try tauto; try lia.
Qed.

Lemma insertFile_returns (p : Package) (entry : FileEntry) (filename : string) :
  length (m_filenames p) = length (m_fileEntries p) ->
  returns (insertFile D p entry filename).
Proof.
  intros Hlen. unfold insertFile.
  destruct (insertFile_scan D _ _ _ _) as [[k lastEnd]|] eqn:Hscan.
  - apply insertFile_scan_Some in Hscan as (k' & -> & -> & Hfit & _).
    assert (k' < length (m_fileEntries p))%nat as Hk.
    { unfold fitsAt in Hfit. destruct (m_fileEntries p !! k') eqn:E; [|discriminate].
      eapply lookup_lt_Some. exact E. }
    simpl. rewrite !vector_insert_Done by lia. simpl. eexists. reflexivity.
  - eexists. reflexivity.
Qed.

Lemma length_fixHashTable (k : Z) (t : list Z) :
  length (fixHashTable k t) = length t.
Proof. unfold fixHashTable. apply length_fmap. Qed.

Lemma length_splice {A : Type} (k : nat) (x : A) (l : list A) :
  length (take k l ++ x :: drop k l) = S (length l).
Proof.
  rewrite <- (take_drop k l) at 3. rewrite !length_app. simpl. lia.
Qed.

Lemma liveEntries_splice (k : nat) (x : FileEntry) (es : list FileEntry) :
  isDeleted D x = false ->
  length (liveEntries D (take k es ++ x :: drop k es)) = S (length (liveEntries D es)).
Proof.
  intros Hx. rewrite <- (take_drop k es) at 3.
  unfold liveEntries. rewrite !filter_app, filter_cons.
  destruct (decide _) as [_|Hcontra]; [|contradiction].
  rewrite !length_app. simpl. lia.
Qed.

Lemma liveEntries_snoc (x : FileEntry) (es : list FileEntry) :
  isDeleted D x = false ->
  length (liveEntries D (es ++ [x])) = S (length (liveEntries D es)).
Proof.
  intros Hx. unfold liveEntries. rewrite filter_app, filter_cons.
  destruct (decide _) as [_|Hcontra]; [|contradiction].
  rewrite length_app. simpl. lia.
Qed.

Lemma addFile_serviceable (p : Package) (source : option Z) (filename : string)
    (flags : Z) (b : bool) (p' : Package) :
  addFile D p source filename flags = Done (b, p') ->
  serviceable D p -> withinCapacity p ->
  serviceable D p'.
Proof.
  intros H Hs Hcap.
  apply addFile_inv in H as [[_ ->]|(_ & Hrw & n & p1 & p2 & entry' & _ & Hp1 & Hins & ->)];
    [assumption|].
  assert (serviceable D p1 /\ withinCapacity p1 /\ m_readonly p1 = false)
    as ((Hu & Hn & Hc) & Hcap1 & Hrw1).
  { destruct Hp1 as [->|[b1 Hrm]]; [auto|].
    destruct (removeFile_serviceable _ _ _ _ Hrm Hs Hcap) as (S1 & S2 & S3).
    split; [exact S1|]. split; [exact S2 | congruence]. }
  specialize (Hn Hrw1). destruct Hu as (Hsz & Hocc & Hval).
  unfold withinCapacity, MAX_HASH_TABLE_SIZE in Hcap1.
  assert (0 <= fileCount (m_header p1)) by (rewrite Hc; apply Nat2Z.is_nonneg).
  assert (wrap32 (fileCount (m_header p1) + 1) = fileCount (m_header p1) + 1) as Hw
    by (apply wrap32_small; lia).
  assert (isDeleted D entry' = false) as Hlive.
  { apply insertFile_inv in Hins as [(k & e & _ & _ & _ & _ & _ & -> & _)|(_ & -> & _)];
      reflexivity. }
  apply insertFile_inv in Hins as [(k & e & He & _ & _ & _ & Hk & _ & ->)|(_ & _ & ->)];
    unfold serviceable, indexUsable; cbn [m_hashTable m_fileEntries m_filenames m_header
      m_readonly recountFilenameOffset set_fileCount set_filenameOffset fileCount
      set_fileEntryOffset]; rewrite Hw.
  - rewrite length_fixHashTable, occupied_fixHashTable by lia.
    rewrite !length_splice, (liveEntries_splice _ _ _ Hlive).
    split; [|split; [intros _; lia | lia]].
    split; [exact Hsz|]. split; [exact Hocc|].
    unfold fixHashTable. apply Forall_fmap.
    eapply Forall_impl; [exact Hval|]. simpl. intros v Hv.
    destruct (v >=? Z.of_nat k); lia.
  - rewrite !length_app, (liveEntries_snoc _ _ Hlive). simpl.
    split; [|split; [intros _; lia | lia]].
    split; [exact Hsz|]. split; [exact Hocc|].
    eapply Forall_impl; [exact Hval|]. simpl. intros; lia.
Qed.

Lemma flush_serviceable (p p' : Package) :
  flush D p = Done p' ->
  serviceable D p -> withinCapacity p ->
  serviceable D p'.
Proof.
  intros H Hs Hcap.
  pose proof H as H'.
  apply flush_inv in H' as [->|(Hrw & Hd & _)]; [assumption|].
  destruct Hs as (Hu & Hn & Hc).
  destruct (flush_compacts D p Hrw Hd (Hn Hrw) Hc Hcap) as (t & Hfl & _ & H1 & H2 & H3 & H4).
  cbv zeta in Hfl. rewrite Hfl in H. injection H as <-.
  unfold serviceable, indexUsable. simpl.
  rewrite liveEntries_idemp. repeat split; try lia.
  - eapply Forall_impl; [exact H4|]. simpl. intros; lia.
  - intros _. apply liveNames_length. exact (Hn Hrw).
Qed.

Lemma flush_returns (p : Package) :
  serviceable D p -> withinCapacity p -> returns (flush D p).
Proof.
  intros (Hu & Hn & Hc) Hcap.
  destruct (m_readonly p) eqn:Hro.
  { unfold flush. rewrite Hro. eexists. reflexivity. }
  destruct (m_dirty p) eqn:Hd.
  2:{ unfold flush. rewrite Hro, Hd. eexists. reflexivity. }
  destruct (flush_compacts D p Hro Hd (Hn eq_refl) Hc Hcap) as (t & Hfl & _).
  eexists. exact Hfl.
Qed.

(** The package [defrag] hands to [flush]. *)
Lemma defrag_packed_serviceable (p : Package) (h : PackageHeader) :
  fileCount h = fileCount (m_header p) ->
  serviceable D p ->
  serviceable D (mkPackage (m_stream_is_open p) (m_readonly p) true h
                   (fst (defrag_pack (m_fileEntries p) (headerSize (m_header p))))
                   (m_filenames p) (m_hashTable p)).
Proof.
  intros Hh (Hu & Hn & Hc).
  destruct (defrag_pack_length (m_fileEntries p) (headerSize (m_header p))) as [L1 L2].
  unfold serviceable, indexUsable in *. simpl. rewrite L1, L2, Hh. tauto.
Qed.

Lemma defrag_serviceable (p : Package) (reopened b : bool) (p' : Package) :
  defrag D p reopened = Done (b, p') ->
  serviceable D p -> withinCapacity p ->
  serviceable D p'.
Proof.
  intros H Hs Hcap.
  apply defrag_inv in H as [[_ ->]|(_ & _ & p2 & Hfl & -> & _)]; [assumption|].
  apply flush_serviceable in Hfl.
  - destruct Hfl as (Hu & Hn & Hc). unfold serviceable, indexUsable in *. simpl. tauto.
  - apply defrag_packed_serviceable; [reflexivity | assumption].
  - exact Hcap.
Qed.

Lemma readFileEntries_loop_from_archive (a : Archive) (h : PackageHeader) (n : nat) :
  forall (i nextOffset : Z) (es : list FileEntry),
  readFileEntries_loop a h n i nextOffset = (true, es) ->
  Forall (fun e => exists j, e = a_fileEntry a j) es.
Proof.
  induction n as [|n IH]; intros i nextOffset es H; simpl in H.
  - injection H as <-. constructor.
  - destruct (nextOffset >=? fileEntryOffset h); [discriminate|].
    destruct (byteOffset (a_fileEntry a i) <? nextOffset); [discriminate|].
    destruct (readFileEntries_loop a h n (i + 1) _) as [ok rest] eqn:Hloop.
    injection H as -> <-. constructor; [eexists; reflexivity|].
    eapply IH. exact Hloop.
Qed.

Lemma liveEntries_of_live (es : list FileEntry) :
  Forall (fun e => isDeleted D e = false) es -> liveEntries D es = es.
Proof.
  induction 1 as [|e es He _ IH]; [reflexivity|].
  rewrite liveEntries_cons, He, IH. reflexivity.
Qed.

Lemma Package_ctor_serviceable (a : Archive) (readonly : bool) (p : Package) :
  Package_ctor D a readonly = Done p -> valid p = true ->
  archiveClean D a -> withinCapacity p ->
  serviceable D p.
Proof.
  intros H Hv (Hc0 & Hclean) Hcap.
  destruct (Package_ctor_valid D a readonly p H Hv) as (Hl & t0 & Hp).
  destruct (afterNames_fields D a readonly Hl) as (_ & _ & Hh & _ & Hlen & _).
  assert (fileCount (a_header a) <= MAX_HASH_TABLE_SIZE) as Hcap'.
  { unfold withinCapacity in Hcap. rewrite Hp in Hcap. simpl in Hcap.
    rewrite Hh in Hcap. exact Hcap. }
  destruct (Package_ctor_within_capacity D a readonly Hl Hcap')
    as (t & _ & Hctor & H1 & H2 & H3 & H4).
  rewrite Hctor in H. injection H as <-.
  pose proof (afterNames_entries D a readonly Hl) as Hloop.
  pose proof (readFileEntries_loop_from_archive _ _ _ _ _ _ Hloop) as Hfrom.
  assert (liveEntries D (m_fileEntries (afterNames D a readonly))
          = m_fileEntries (afterNames D a readonly)) as Hall.
  { apply liveEntries_of_live. eapply Forall_impl; [exact Hfrom|].
    simpl. intros e [j ->]. apply Hclean. }
  destruct (reachable_names D _ (trivial_Pairing D) (fun _ => True) a readonly
              (with_hashTable (afterNames D a readonly) t) (fun _ _ => I)) as [Hw _].
  { apply reachable_open; [exact Hctor | exact Hv | exact I]. }
  unfold serviceable, indexUsable. simpl in *.
  rewrite Hall, Hlen, Hh.
  split; [|split; [|lia]].
  - split; [lia|]. split; [rewrite H3; lia|].
    eapply Forall_impl; [exact H4|]. simpl. intros; lia.
  - intros Hrw. rewrite <- (Forall2_length _ _ _ (Hw Hrw)), Hlen, Hh. reflexivity.
Qed.

Lemma reachable_serviceable (a : Archive) (readonly : bool) (p : Package) :
  archiveClean D a ->
  reachable D withinCapacity a readonly p -> serviceable D p.
Proof.
  intros Hclean. induction 1 as [p Hctor Hv Hok | p c p' Hreach IH Hcall Hok].
  - eapply Package_ctor_serviceable; eassumption.
  - pose proof (reachable_ok D _ _ _ _ Hreach) as Hcap.
    destruct c as [source filename flags | filename | | reopened]; simpl in Hcall.
    + destruct (addFile D p source filename flags) as [[b q]|] eqn:E; simpl in Hcall; [|discriminate].
      injection Hcall as ->. eapply addFile_serviceable; eassumption.
    + destruct (removeFile D p filename) as [[b q]|] eqn:E; simpl in Hcall; [|discriminate].
      injection Hcall as ->. eapply removeFile_serviceable; eassumption.
    + eapply flush_serviceable; eassumption.
    + destruct (defrag D p reopened) as [[b q]|] eqn:E; simpl in Hcall; [|discriminate].
      injection Hcall as ->. eapply defrag_serviceable; eassumption.
Qed.

(** On a package within the capacity of the hash table, reached from an
    archive without tombstones, every call returns. *)
Lemma calls_return (a : Archive) (readonly : bool) (p : Package) (c : Call) :
  archiveClean D a ->
  reachable D withinCapacity a readonly p ->
  returns (call D c p).
Proof.
  intros Hclean Hreach.
  pose proof (reachable_serviceable a readonly p Hclean Hreach) as Hs.
  pose proof (reachable_ok D _ _ _ _ Hreach) as Hcap.
  pose proof Hs as (Hu & Hn & Hc).
  assert (forall filename, returns (removeFile D p filename)) as Hrm.
  { intros filename. unfold removeFile. destruct (m_readonly p); [eexists; reflexivity|].
    destruct (getFileIndex_returns D p filename Hu) as [i ->]. simpl.
    destruct (i <? 0); eexists; reflexivity. }
  destruct c as [source filename flags | filename | | reopened]; simpl.
  - unfold addFile. destruct (m_readonly p) eqn:Hro; [eexists; reflexivity|].
    destruct source as [n|]; [|eexists; reflexivity].
    destruct (getFileIndex_returns D p filename Hu) as [i Hi]. rewrite Hi. simpl.
    assert (forall p1, length (m_filenames p1) = length (m_fileEntries p1) ->
              returns ('(_, p') ← ('(p2, _) ← insertFile D p1
                  (mkFileEntry (stringHash filename HASH_SEED0)
                     (stringHash filename HASH_SEED1)
                     (stringHash filename HASH_SEED2) 0 0 (wrap32 n)) filename;
                Done (true, with_dirty (with_header p2
                        (recountFilenameOffset D
                           (set_fileCount (m_header p2)
                              (wrap32 (fileCount (m_header p2) + 1))))) true));
              Done p')) as Hgo.
    { intros p1 Hlen.
      destruct (insertFile_returns p1
                  (mkFileEntry (stringHash filename HASH_SEED0)
                     (stringHash filename HASH_SEED1)
                     (stringHash filename HASH_SEED2) 0 0 (wrap32 n)) filename Hlen)
        as [[p2 e'] ->].
      simpl. eexists. reflexivity. }
    destruct (i >=? 0).
    + destruct (Z.land flags (FLAG_REPLACE D) =? 0); simpl; [eexists; reflexivity|].
      destruct (Hrm filename) as [[b1 p1] Hr]. rewrite Hr. simpl.
      apply Hgo.
      destruct (removeFile_serviceable _ _ _ _ Hr Hs Hcap) as ((_ & Hn1 & _) & _ & Hro1).
      apply Hn1. congruence.
    + simpl. apply Hgo. apply Hn. reflexivity.
  - destruct (Hrm filename) as [[b1 p1] ->]. simpl. eexists. reflexivity.
  - apply flush_returns; assumption.
  - unfold defrag. destruct (m_readonly p) eqn:Hro; simpl; [eexists; reflexivity|].
    destruct (m_dirty p) eqn:Hd; simpl; [eexists; reflexivity|].
    destruct (defrag_pack (m_fileEntries p) (headerSize (m_header p)))
      as [es nextPos] eqn:Hpk.
    assert (returns (flush D (with_dirty (with_header (with_fileEntries p es)
              (recountFilenameOffset D (set_fileEntryOffset (m_header p) nextPos)))
              true))) as [p2 Hp2].
    { apply flush_returns; [|exact Hcap].
      pose proof (defrag_packed_serviceable p
                    (recountFilenameOffset D (set_fileEntryOffset (m_header p) nextPos))
                    eq_refl Hs) as Hs1.
      rewrite Hpk in Hs1. exact Hs1. }
    rewrite Hp2. simpl. destruct reopened; eexists; reflexivity.
Qed.

End Progress.

(** * The claims of the specification *)

Section Claims.

Context (D : Declarations).

(** C3.  [getFileIndex] walks the probe chain that starts at slot
    [hash0 mod size].  When the first [k] slots of the chain hold entries
    whose hashes differ from the query's, and slot [k] holds an entry that
    matches all three hashes, the result is decided there: [-1] if that
    entry carries the deleted flag, whatever the slots behind hold, and the
    entry's index if it is live. *)
Theorem getFileIndex_first_match (p : Package) (filename : string) (k : nat)
    (fileIndex : Z) (entry : FileEntry) :
  let h0 := stringHash filename HASH_SEED0 in
  let h1 := stringHash filename HASH_SEED1 in
  let h2 := stringHash filename HASH_SEED2 in
  let size := Z.of_nat (length (m_hashTable p)) in
  0 < size <= 2 ^ 32 ->
  (k < length (m_hashTable p))%nat ->
  (forall j, (j < k)%nat ->
     steppedOver (m_hashTable p) (m_fileEntries p) h0 h1 h2 (slotAt size (h0 mod size) j)) ->
  m_hashTable p !! Z.to_nat (slotAt size (h0 mod size) k) = Some fileIndex ->
  0 <= fileIndex ->
  m_fileEntries p !! Z.to_nat fileIndex = Some entry ->
  hashesMatch entry h0 h1 h2 = true ->
  getFileIndex D p filename = Done (if isDeleted D entry then -1 else fileIndex).
Proof.
  intros h0 h1 h2 size Hsize Hk Hpre Hslot Hfi He Hm.
  unfold getFileIndex. fold h0 h1 h2 size.
  destruct (size =? 0) eqn:E; [lia|].
  apply (getFileIndex_loop_match D _ _ h0 h1 h2 k); try assumption.
  apply Z.mod_pos_bound. lia.
Qed.



(** C5 (as amended).  [insertFile] places a new entry of size [s] by first
    fit.  Scanning the table in order, with [lastEnd] starting at the header
    size and moving to the end of each live entry passed, it splices the new
    entry and its name in front of the first live entry [k] for which the
    offset minus [lastEnd], taken as a [u64], is at least [s], with
    [byteOffset = lastEnd], and shifts the indices of the hash table.  If no
    such entry exists it appends, at the end of the last entry of the table,
    live or not; in an empty table of a package whose header size is the
    size of [PackageHeader], right after the header. *)
Theorem insertFile_first_fit (p : Package) (entry : FileEntry) (filename : string) :
  let es := m_fileEntries p in
  let ns := m_filenames p in
  let hs := headerSize (m_header p) in
  length ns = length es ->
  (forall k,
     fitsAt D hs (fileSize entry) es k = true ->
     (forall j, (j < k)%nat -> fitsAt D hs (fileSize entry) es j = false) ->
     let entry' := set_byteOffset entry (lastEndAfter D hs (take k es)) in
     insertFile D p entry filename
     = Done (mkPackage (m_stream_is_open p) (m_readonly p) (m_dirty p) (m_header p)
               (take k es ++ entry' :: drop k es)
               (take k ns ++ c_str filename :: drop k ns)
               (fixHashTable (Z.of_nat k) (m_hashTable p)),
             entry'))
  /\ ((forall j, fitsAt D hs (fileSize entry) es j = false) ->
      (es = [] -> hs = sizeof_PackageHeader D) ->
      let entry' :=
        set_byteOffset entry
          (match last es with
           | Some l => wrap64 (byteOffset l + fileSize l)
           | None => hs
           end) in
      insertFile D p entry filename
      = Done (mkPackage (m_stream_is_open p) (m_readonly p) (m_dirty p)
                (set_fileEntryOffset (m_header p)
                   (wrap64 (byteOffset entry' + fileSize entry')))
                (es ++ [entry']) (ns ++ [c_str filename]) (m_hashTable p),
              entry')).
Proof.
  intros es ns hs Hlen. subst es ns hs. split.
  - intros k Hfit Hbefore entry'. unfold insertFile.
    rewrite (insertFile_scan_first_fit D _ _ _ 0 k Hfit Hbefore). simpl.
    assert (k < length (m_fileEntries p))%nat as Hk.
    { unfold fitsAt in Hfit. destruct (m_fileEntries p !! k) eqn:E; [|discriminate].
      eapply lookup_lt_Some. exact E. }
    rewrite vector_insert_Done by lia. simpl.
    rewrite vector_insert_Done by lia. simpl. reflexivity.
  - intros Hno Hempty entry'. unfold insertFile.
    rewrite (insertFile_scan_no_fit D _ _ _ 0 Hno).
    subst entry'. destruct (last (m_fileEntries p)) as [l|] eqn:Hl; [reflexivity|].
    apply last_None in Hl. rewrite (Hempty Hl). reflexivity.
Qed.


(** The layout gives the order of the live entries and keeps their byte
    ranges apart. *)
Lemma layoutCore_liveSorted (hs : Z) (es : list FileEntry) :
  Forall inRange es -> layoutCore D hs es -> liveSortedByOffset D es.
Proof.
  intros Hr (Hss & _ & _) i j ei ej Hij Hi Hj Hli Hlj.
  pose proof (StronglySorted_lookup _ _ Hss i j ei ej Hij Hi Hj Hli Hlj) as Hb.
  destruct (Forall_lookup_1 _ _ _ _ Hr Hi) as (_ & Hs & _).
  unfold entryEnd in Hb. lia.
Qed.

Lemma layoutCore_liveDisjoint (hs : Z) (es : list FileEntry) :
  layoutCore D hs es -> liveDisjoint D es.
Proof.
  intros (Hss & _ & _) i j ei ej Hij Hi Hj Hli Hlj (x & Hxi & Hxj).
  destruct (Nat.lt_total i j) as [Hlt|[Heq|Hgt]]; [|lia|].
  - pose proof (StronglySorted_lookup _ _ Hss i j ei ej Hlt Hi Hj Hli Hlj). lia.
  - pose proof (StronglySorted_lookup _ _ Hss j i ej ei Hgt Hj Hi Hlj Hli). lia.
Qed.

Lemma allBefore_sorted (es : list FileEntry) :
  Forall inRange es -> StronglySorted allBefore es -> sortedByOffset es.
Proof.
  intros Hr Hss i j ei ej Hij Hi Hj.
  pose proof (StronglySorted_lookup _ _ Hss i j ei ej Hij Hi Hj) as Hb.
  destruct (Forall_lookup_1 _ _ _ _ Hr Hi) as (_ & Hs & _).
  unfold allBefore, entryEnd in Hb. lia.
Qed.

(** C1 (as amended).  On a package whose header is as large as
    [PackageHeader], and as long as no entry reaches past the range of a
    [u64]: after the open and after every [addFile], [removeFile], [flush]
    and [defrag], the live entries of the table are in ascending order of
    [byteOffset], and on a package that is not dirty the whole table is. *)
Theorem live_entries_sorted (a : Archive) (readonly : bool) (p : Package) :
  reachable D (wellSized D) a readonly p ->
  liveSortedByOffset D (m_fileEntries p)
  /\ (m_dirty p = false -> sortedByOffset (m_fileEntries p)).
Proof.
  intros Hreach.
  pose proof (reachable_ok D _ _ _ _ Hreach) as (_ & _ & Hr).
  destruct (reachable_layout D _ _ _ Hreach) as (Hcore & Hall).
  split.
  - eapply layoutCore_liveSorted; eassumption.
  - intros Hd. apply allBefore_sorted; auto.
Qed.

(** Under the same conditions the byte ranges of two live entries never
    share a byte. *)
Lemma live_ranges_disjoint (a : Archive) (readonly : bool) (p : Package) :
  reachable D (wellSized D) a readonly p -> liveDisjoint D (m_fileEntries p).
Proof.
  intros Hreach. destruct (reachable_layout D _ _ _ Hreach) as (Hcore & _).
  eapply layoutCore_liveDisjoint. exact Hcore.
Qed.

(** C8 (as amended).  After the open and after every [addFile],
    [removeFile], [flush] and [defrag]: on a package that is not read-only
    the name table is as long as the entry table, and, when every record of
    the archive stores the hashes of the line that names it, [names[i]] is
    a name of [entries[i]]; on a read-only package the name table is
    empty. *)
Theorem names_follow_entries (a : Archive) (readonly : bool) (p : Package) :
  reachable D (fun _ => True) a readonly p ->
  (m_readonly p = false ->
     length (m_filenames p) = length (m_fileEntries p)
     /\ (archiveNamed a -> Forall2 named (m_fileEntries p) (m_filenames p)))
  /\ (m_readonly p = true -> m_filenames p = []).
Proof.
  intros Hreach.
  destruct (reachable_names D _ (trivial_Pairing D) _ a readonly p
              (fun _ _ => I) Hreach) as [Hw Hro].
  split; [|exact Hro].
  intros Hrw. split.
  - symmetry. eapply Forall2_length. apply Hw. exact Hrw.
  - intros Ha.
    destruct (reachable_names D _ (named_Pairing D) _ a readonly p Ha Hreach) as [Hn _].
    apply Hn. exact Hrw.
Qed.

End Claims.

(** * The claims on the example archives *)

(** ** C1 *)

Lemma exampleSpliced_reachable (ok : Package -> Prop) :
  ok exampleOpened -> ok exampleRemovedCd -> ok exampleSpliced ->
  reachable exampleDecls ok exampleArchive false exampleSpliced.
Proof.
  intros H1 H2 H3.
  apply (reachable_call exampleDecls ok exampleArchive false exampleRemovedCd
           (CallAddFile (Some 5) "n" 0)); [|vm_compute; reflexivity | exact H3].
  apply (reachable_call exampleDecls ok exampleArchive false exampleOpened
           (CallRemoveFile "cd")); [|vm_compute; reflexivity | exact H2].
  apply reachable_open; [vm_compute; reflexivity | reflexivity | exact H1].
Qed.

Lemma wellSized_examples :
  wellSized exampleDecls exampleOpened
  /\ wellSized exampleDecls exampleRemovedCd
  /\ wellSized exampleDecls exampleSpliced.
Proof.
  unfold wellSized, inRange, entryEnd. simpl.
  repeat split; try lia; repeat constructor; simpl; lia.
Qed.

(** C1, as the specification has it, fails: with "cd" tombstoned between
    "a" and "b", the five bytes of "n" are spliced in front of "b" at offset
    50, behind the tombstone at offset 60. *)
Lemma entry_table_unsorted_after_splice :
  reachable exampleDecls (wellSized exampleDecls) exampleArchive false exampleSpliced
  /\ byteOffset <$> m_fileEntries exampleSpliced = [40; 60; 50; 80]
  /\ ~ sortedByOffset (m_fileEntries exampleSpliced).
Proof.
  destruct wellSized_examples as (W1 & W2 & W3).
  split; [apply exampleSpliced_reachable; assumption|].
  split; [reflexivity|].
  intros H.
  specialize (H 1%nat 2%nat _ _ ltac:(lia) eq_refl eq_refl). simpl in H. lia.
Qed.

Lemma live_entries_sorted_witness :
  reachable exampleDecls (wellSized exampleDecls) exampleArchive false exampleSpliced
  /\ liveSortedByOffset exampleDecls (m_fileEntries exampleSpliced)
  /\ (m_dirty exampleSpliced = false -> sortedByOffset (m_fileEntries exampleSpliced)).
Proof.
  destruct wellSized_examples as (W1 & W2 & W3).
  pose proof (exampleSpliced_reachable (wellSized exampleDecls) W1 W2 W3) as Hreach.
  split; [exact Hreach|].
  exact (live_entries_sorted exampleDecls exampleArchive false exampleSpliced Hreach).
Defined.

(** ** C2 *)

(** C2 fails on the code for an entry added since the last flush: the new
    entry is in the entry table but not in the hash index, so the lookup in
    [addFile] does not find it.  Adding "a" twice to an empty archive gives
    two live entries named "a", with and without the replace flag. *)
Theorem addFile_twice_same_name :
  Package_ctor exampleDecls emptyArchive false = Done emptyOpened
  /\ valid emptyOpened = true
  /\ addFile exampleDecls emptyOpened (Some 5) "a" 0 = Done (true, emptyAddedA)
  /\ m_fileEntries emptyAddedA = [entryNamed "a" 40 5]
  /\ isDeleted exampleDecls (entryNamed "a" 40 5) = false
  /\ getFileIndex exampleDecls emptyAddedA "a" = Done (-1)
  /\ addFile exampleDecls emptyAddedA (Some 5) "a" 0 = Done (true, emptyAddedTwice)
  /\ addFile exampleDecls emptyAddedA (Some 5) "a" 1 = Done (true, emptyReplacedA)
  /\ m_fileEntries emptyAddedTwice = [entryNamed "a" 40 5; entryNamed "a" 45 5]
  /\ m_fileEntries emptyReplacedA = [entryNamed "a" 40 5; entryNamed "a" 45 5]
  /\ m_filenames emptyAddedTwice = ["a"; "a"]%string.
Proof. repeat split; vm_compute; reflexivity. Qed.

(** Where the lookup does find a live entry of that name, [addFile] does
    what C2 says. *)
Lemma addFile_existing_name (D : Declarations) (p : Package) (n : Z)
    (filename : string) (flags fileIndex : Z) :
  m_readonly p = false ->
  getFileIndex D p filename = Done fileIndex -> 0 <= fileIndex ->
  (Z.land flags (FLAG_REPLACE D) = 0 ->
     addFile D p (Some n) filename flags = Done (false, p))
  /\ (Z.land flags (FLAG_REPLACE D) <> 0 ->
      exists p1, removeFile D p filename = Done (true, p1)
        /\ m_fileEntries p1 = alter (markDeleted D) (Z.to_nat fileIndex) (m_fileEntries p)
        /\ addFile D p (Some n) filename flags
           = '(p2, _) ← insertFile D p1
                 (mkFileEntry (stringHash filename HASH_SEED0)
                    (stringHash filename HASH_SEED1)
                    (stringHash filename HASH_SEED2) 0 0 (wrap32 n)) filename;
             Done (true, with_dirty (with_header p2
                     (recountFilenameOffset D
                        (set_fileCount (m_header p2)
                           (wrap32 (fileCount (m_header p2) + 1))))) true)).
Proof.
  intros Hrw Hg Hfi. split.
  - intros Hflag. unfold addFile. rewrite Hrw, Hg. simpl.
    destruct (fileIndex >=? 0) eqn:C; [|lia]. rewrite Hflag. reflexivity.
  - intros Hflag.
    assert (removeFile D p filename
            = Done (true, with_dirty (with_header
                      (with_fileEntries p
                         (alter (markDeleted D) (Z.to_nat fileIndex) (m_fileEntries p)))
                      (recountFilenameOffset D
                         (set_fileCount (m_header p) (wrap32 (fileCount (m_header p) - 1)))))
                      true)) as Hrm.
    { unfold removeFile. rewrite Hrw, Hg. simpl.
      destruct (fileIndex <? 0) eqn:C; [lia | reflexivity]. }
    eexists. split; [exact Hrm|]. split; [reflexivity|].
    unfold addFile. rewrite Hrw, Hg. simpl.
    destruct (fileIndex >=? 0) eqn:C; [|lia].
    destruct (Z.land flags (FLAG_REPLACE D) =? 0) eqn:F; [lia|].
    rewrite Hrm. reflexivity.
Qed.

(** ** C3 *)

Lemma getFileIndex_first_match_witness :
  getFileIndex exampleDecls exampleRemovedA "cd" = Done 1
  /\ getFileIndex exampleDecls exampleRemovedA "a" = Done (-1).
Proof.
  split.
  - refine (getFileIndex_first_match exampleDecls exampleRemovedA "cd" 1 1
              (entryNamed "cd" 60 10) _ _ _ _ _ _ _).
    + simpl. lia.
    + simpl. lia.
    + intros j Hj. assert (j = 0%nat) as -> by lia.
      exists 0, (mkFileEntry 97 97 97 1 40 10).
      repeat split; [lia].
    + reflexivity.
    + lia.
    + reflexivity.
    + reflexivity.
  - refine (getFileIndex_first_match exampleDecls exampleRemovedA "a" 0 0
              (mkFileEntry 97 97 97 1 40 10) _ _ _ _ _ _ _).
    + simpl. lia.
    + simpl. lia.
    + intros j Hj. lia.
    + reflexivity.
    + lia.
    + reflexivity.
    + reflexivity.
Defined.

(** ** C4 *)

(** C4 fails on the code for an archive whose header is longer than
    [PackageHeader]: [insertFile] puts the first entry of an empty table at
    [sizeof(PackageHeader)], and starts the gap scan of the next call at the
    header size, behind it.  The ten bytes of "b" land at offset 100, inside
    the 200 bytes of "a" at offset 40. *)
Theorem live_ranges_overlap_after_long_header :
  Package_ctor exampleDecls paddedArchive false = Done paddedOpened
  /\ valid paddedOpened = true
  /\ addFile exampleDecls paddedOpened (Some 200) "a" 0 = Done (true, paddedAddedA)
  /\ addFile exampleDecls paddedAddedA (Some 10) "b" 0 = Done (true, paddedAddedB)
  /\ m_fileEntries paddedAddedB = [entryNamed "b" 100 10; entryNamed "a" 40 200]
  /\ rangesOverlap (entryNamed "b" 100 10) (entryNamed "a" 40 200)
  /\ ~ liveDisjoint exampleDecls (m_fileEntries paddedAddedB)
  /\ ~ liveSortedByOffset exampleDecls (m_fileEntries paddedAddedB).
Proof.
  assert (rangesOverlap (entryNamed "b" 100 10) (entryNamed "a" 40 200)) as Hov
    by (exists 100; unfold entryEnd; simpl; lia).
  repeat split; try (vm_compute; reflexivity); try exact Hov.
  - intros H. apply (H 0%nat 1%nat _ _ ltac:(lia) eq_refl eq_refl eq_refl eq_refl). exact Hov.
  - intros H.
    specialize (H 0%nat 1%nat _ _ ltac:(lia) eq_refl eq_refl eq_refl eq_refl).
    simpl in H. lia.
Qed.

(** ** C5 *)

(** C5, as the specification has it, fails: with "b" tombstoned at the end
    of the table no gap takes 15 bytes, and the new entry is appended at
    offset 90, the end of the tombstone, not at 70, the end of the last live
    entry. *)
Lemma insertFile_appends_behind_tombstone :
  (forall j, fitsAt exampleDecls 40 15 (m_fileEntries exampleRemovedB) j = false)
  /\ lastEndAfter exampleDecls 40 (m_fileEntries exampleRemovedB) = 70
  /\ exists p', insertFile exampleDecls exampleRemovedB (entryNamed "n" 0 15) "n"
                = Done (p', entryNamed "n" 90 15)
       /\ byteOffset (entryNamed "n" 90 15)
          <> lastEndAfter exampleDecls 40 (m_fileEntries exampleRemovedB).
Proof.
  split; [intros [|[|[|j]]]; reflexivity|].
  split; [reflexivity|].
  eexists. split; [vm_compute; reflexivity|].
  vm_compute. discriminate.
Qed.

Lemma insertFile_first_fit_witness :
  exists p', insertFile exampleDecls exampleRemovedCd (entryNamed "n" 0 5) "n"
             = Done (p', entryNamed "n" 50 5)
    /\ byteOffset <$> m_fileEntries p' = [40; 60; 50; 80].
Proof.
  destruct (insertFile_first_fit exampleDecls exampleRemovedCd (entryNamed "n" 0 5) "n"
              eq_refl) as [Hsplice _].
  eexists. split.
  - apply (Hsplice 2%nat); [reflexivity|].
    intros [|[|j]] Hj; [reflexivity | reflexivity | lia].
  - reflexivity.
Defined.

(** ** C6 *)


(** It also fails at the upper end: more than 0x40000 entries get a table of
    0x100000 slots, twice the maximum table size. *)
Lemma buildHashTable_above_maximum (p : Package) :
  fileCount (m_header p) = 262145 ->
  (Z.to_nat 262145 <= length (m_fileEntries p))%nat ->
  exists t, buildHashTable p = Done (true, with_hashTable p t)
    /\ Z.of_nat (length t) = 2 * MAX_HASH_TABLE_SIZE.
Proof.
  intros Hc Hlen.
  destruct (buildHashTable_total p) as (t & Hb & _).
  - rewrite Hc. exact Hlen.
  - rewrite Hc. unfold MAX_HASH_TABLE_SIZE. lia.
  - exists t. split; [exact Hb|].
    destruct (buildHashTable_true p _ Hb) as (k & t' & Hk & Hle & Hmin & Hlen' & _ & Heq).
    assert (t' = t) as -> by (apply (f_equal m_hashTable) in Heq; simpl in Heq; congruence).
    rewrite Hc in Hle, Hmin. rewrite Hlen'.
    assert (k = 19) as ->.
    { destruct (Z_lt_ge_dec k 19) as [Hlt|]; [|lia].
      assert (2 ^ k <= 2 ^ 18) by (apply Z.pow_le_mono_r; lia). lia. }
    rewrite Z2Nat.id by lia. reflexivity.
Qed.


(** ** C7 *)

(** [flush] when the header counts more entries than the hash table can
    take: [buildHashTable] fails, its result is dropped, the hash index
    stays as it was, and the dirty flag is cleared all the same. *)
Lemma flush_over_capacity (D : Declarations) (p : Package) :
  m_readonly p = false ->
  m_dirty p = true ->
  length (m_filenames p) = length (m_fileEntries p) ->
  MAX_HASH_TABLE_SIZE < fileCount (m_header p) ->
  exists p', flush D p = Done p'
    /\ m_fileEntries p' = liveEntries D (m_fileEntries p)
    /\ m_hashTable p' = m_hashTable p
    /\ m_dirty p' = false
    /\ buildHashTable p' = Done (false, p')
    /\ ~ indexCurrent p'.
Proof.
  intros Hro Hd Hlen Hc. unfold flush. rewrite Hro, Hd. simpl.
  rewrite (flush_entries_aligned _ _ _ Hlen). simpl.
  set (p1 := with_header _ _).
  assert (buildHashTable p1 = Done (false, p1)) as Hb
    by (apply buildHashTable_overflow; exact Hc).
  rewrite Hb. simpl.
  assert (buildHashTable (with_dirty p1 false) = Done (false, with_dirty p1 false)) as Hb'
    by (apply buildHashTable_overflow; exact Hc).
  exists (with_dirty p1 false).
  repeat split; try reflexivity; try exact Hb'.
  unfold indexCurrent. rewrite Hb'. discriminate.
Qed.

Lemma replicate_live (D : Declarations) (n : nat) (e : FileEntry) :
  isDeleted D e = false -> liveEntries D (replicate n e) = replicate n e.
Proof.
  intros He. induction n as [|n IH]; [reflexivity|].
  simpl replicate. rewrite liveEntries_cons, He, IH. reflexivity.
Qed.

(** The package [emptyFilesAdded n] is what [n] calls of [addFile] make of
    the empty archive. *)
Lemma getFileIndex_emptyFilesAdded (n : nat) :
  getFileIndex exampleDecls (emptyFilesAdded n) "f" = Done (-1).
Proof. reflexivity. Qed.

Lemma addFile_emptyOpened :
  addFile exampleDecls emptyOpened (Some 0) "f" 0 = Done (true, emptyFilesAdded 1).
Proof. vm_compute. reflexivity. Qed.

Lemma addFile_emptyFilesAdded (n : nat) :
  Z.of_nat n + 2 < 2 ^ 32 ->
  addFile exampleDecls (emptyFilesAdded (S n)) (Some 0) "f" 0
  = Done (true, emptyFilesAdded (S (S n))).
Proof.
  intros Hn.
  transitivity
    ('(p2, _) ← insertFile exampleDecls (emptyFilesAdded (S n)) (entryNamed "f" 0 0) "f";
     Done (true, with_dirty (with_header p2
             (recountFilenameOffset exampleDecls
                (set_fileCount (m_header p2)
                   (wrap32 (fileCount (m_header p2) + 1))))) true));
    [reflexivity|].
  assert (insertFile exampleDecls (emptyFilesAdded (S n)) (entryNamed "f" 0 0) "f"
          = Done (mkPackage true false true
                    (mkPackageHeader 1262571610 1 40 40 32 (Z.of_nat (S n))
                       (40 + 32 * Z.of_nat (S n)) 0)
                    (replicate (S (S n)) (entryNamed "f" 40 0))
                    (replicate (S (S n)) "f") (replicate 256 (-1)),
                  entryNamed "f" 40 0)) as ->
    by reflexivity.
  unfold emptyFilesAdded, recountFilenameOffset, with_dirty, with_header. simpl fileCount.
  cbn [mbind outcome_bind m_stream_is_open m_readonly m_header m_fileEntries m_filenames
       m_hashTable set_fileCount set_filenameOffset sign version headerSize
       fileEntryOffset fileEntrySize fileCount filenameOffset filenameSize
       sizeof_FileEntry exampleDecls].
  rewrite wrap32_small by lia. rewrite wrap64_small by lia.
  replace (Z.of_nat (S n) + 1) with (Z.of_nat (S (S n))) by lia.
  reflexivity.
Qed.

Lemma wellSized_emptyFilesAdded (n : nat) :
  wellSized exampleDecls (emptyFilesAdded n).
Proof.
  unfold wellSized. simpl. repeat split; try lia.
  apply Forall_replicate. unfold inRange, entryEnd. simpl. lia.
Qed.

Lemma emptyFilesAdded_reachable (n : nat) :
  Z.of_nat n + 2 < 2 ^ 32 ->
  reachable exampleDecls (wellSized exampleDecls) emptyArchive false
    (emptyFilesAdded (S n)).
Proof.
  induction n as [|n IH]; intros Hn.
  - apply (reachable_call exampleDecls _ emptyArchive false emptyOpened
             (CallAddFile (Some 0) "f" 0)).
    + apply reachable_open; [vm_compute; reflexivity | reflexivity |].
      unfold wellSized. simpl. repeat split; try lia. constructor.
    + unfold call. rewrite addFile_emptyOpened. reflexivity.
    + apply wellSized_emptyFilesAdded.
  - apply (reachable_call exampleDecls _ emptyArchive false (emptyFilesAdded (S n))
             (CallAddFile (Some 0) "f" 0)).
    + apply IH. lia.
    + unfold call. rewrite addFile_emptyFilesAdded by lia. reflexivity.
    + apply wellSized_emptyFilesAdded.
Qed.



(** ** C8 *)

(** C8, as the specification has it, fails: a read-only open reads no
    names. *)
Lemma readonly_open_reads_no_names :
  Package_ctor exampleDecls exampleArchive true = Done exampleReadonly
  /\ valid exampleReadonly = true
  /\ length (m_fileEntries exampleReadonly) = 3%nat
  /\ m_filenames exampleReadonly = []
  /\ length (m_filenames exampleReadonly) <> length (m_fileEntries exampleReadonly).
Proof. repeat split; try (vm_compute; reflexivity). vm_compute. discriminate. Qed.

Lemma exampleArchive_named : archiveNamed exampleArchive.
Proof.
  intros i Hi. unfold exampleArchive. simpl.
  destruct (i =? 0); [repeat split|].
  destruct (i =? 1); repeat split.
Qed.

Lemma names_follow_entries_witness :
  length (m_filenames exampleSpliced) = length (m_fileEntries exampleSpliced)
  /\ Forall2 named (m_fileEntries exampleSpliced) (m_filenames exampleSpliced).
Proof.
  destruct (names_follow_entries exampleDecls exampleArchive false exampleSpliced
              (exampleSpliced_reachable (fun _ => True) I I I)) as [Hw _].
  destruct (Hw eq_refl) as [Hlen Hnamed].
  split; [exact Hlen | exact (Hnamed exampleArchive_named)].
Defined.

(** ** C9 *)

(** C9 fails on the code: for the archive of 524289 files [buildHashTable]
    returns false, the constructor drops that result, and the package it
    returns is valid, with an empty hash table. *)
Theorem open_valid_after_failed_build :
  exists p, Package_ctor exampleDecls overfullArchive false = Done p
    /\ buildHashTable p = Done (false, p)
    /\ valid p = true
    /\ m_hashTable p = []
    /\ getFileIndex exampleDecls p "f" = Fault DivisionByZero.
Proof.
  assert (loads exampleDecls overfullArchive false = true) as Hl
    by (vm_cast_no_check (eq_refl true)).
  assert (MAX_HASH_TABLE_SIZE < fileCount (a_header overfullArchive)) as Hc
    by reflexivity.
  destruct (Package_ctor_over_capacity exampleDecls overfullArchive false Hl Hc)
    as (Hb & Hctor & Hv & Ht).
  exists (afterNames exampleDecls overfullArchive false).
  split; [exact Hctor|]. split; [exact Hb|]. split; [exact Hv|]. split; [exact Ht|].
  apply getFileIndex_empty_table. exact Ht.
Qed.

(** ** Every call returns *)

(** The conditions of [calls_return] hold on the example archive: whatever
    is called on the package after the splice returns. *)
Lemma calls_return_example (c : Call) : returns (call exampleDecls c exampleSpliced).
Proof.
  apply (calls_return exampleDecls ltac:(discriminate) exampleArchive false).
  - split; [simpl; lia|]. intros i. unfold exampleArchive. simpl.
    destruct (i =? 0); [reflexivity|]. destruct (i =? 1); reflexivity.
  - apply exampleSpliced_reachable; unfold withinCapacity, MAX_HASH_TABLE_SIZE; simpl; lia.
Qed.

(** * Further properties of the package store *)

(** ** Names and their hashes *)

Lemma tolower_idemp (c : Z) : tolower (tolower c) = tolower c.
Proof.
  unfold tolower. destruct ((65 <=? c) && (c <=? 90)) eqn:E; [|rewrite E; reflexivity].
  destruct ((65 <=? c + 32) && (c + 32 <=? 90)) eqn:E'; [lia | reflexivity].
Qed.

Lemma tolower_zero (c : Z) : 0 <= c -> (tolower c =? 0) = (c =? 0).
Proof.
  intros Hc. unfold tolower. destruct ((65 <=? c) && (c <=? 90)) eqn:E; [lia | reflexivity].
Qed.

Lemma N_of_lowerAscii (c : Ascii.ascii) :
  Z.of_N (Ascii.N_of_ascii (lowerAscii c)) = tolower (Z.of_N (Ascii.N_of_ascii c)).
Proof.
  unfold lowerAscii.
  pose proof (Ascii.N_ascii_bounded c) as Hb.
  assert (0 <= tolower (Z.of_N (Ascii.N_of_ascii c)) < 256) as Hr.
  { unfold tolower. destruct (_ && _) eqn:E; lia. }
  rewrite Ascii.N_ascii_embedding by lia.
  apply Z2N.id. lia.
Qed.

Lemma stringHash_loop_lower (s : string) (seed : Z) : forall out,
  stringHash_loop out (lower s) seed = stringHash_loop out s seed.
Proof.
  induction s as [|c s IH]; intros out; [reflexivity|].
  simpl. rewrite N_of_lowerAscii, tolower_zero, tolower_idemp by lia.
  destruct (_ =? 0); [reflexivity | apply IH].
Qed.

Lemma stringHash_lower (s : string) (seed : Z) :
  stringHash (lower s) seed = stringHash s seed.
Proof. apply stringHash_loop_lower. Qed.

Lemma stringHash_same_lower (s t : string) (seed : Z) :
  lower s = lower t -> stringHash s seed = stringHash t seed.
Proof.
  intros H. rewrite <- (stringHash_lower s), <- (stringHash_lower t), H. reflexivity.
Qed.

Lemma hashesMatch_named (e : FileEntry) (filename : string) :
  hashesMatch e (stringHash filename HASH_SEED0) (stringHash filename HASH_SEED1)
    (stringHash filename HASH_SEED2) = true <-> named e filename.
Proof.
  unfold hashesMatch, named. rewrite !andb_true_iff, !Z.eqb_eq. tauto.
Qed.

Section Lookups.

Context (D : Declarations).

(** X1.  Names that differ only in the case of their ASCII letters are the same
    name to the package: they have the same hash under every seed, and
    [getFileIndex], [hasFile] and [openFile] answer alike for them. *)
Theorem lookup_ignores_case (p : Package) (s t : string) :
  lower s = lower t ->
  (forall seed, stringHash s seed = stringHash t seed)
  /\ getFileIndex D p s = getFileIndex D p t
  /\ hasFile D p s = hasFile D p t
  /\ openFile D p s = openFile D p t.
Proof.
  intros H.
  assert (getFileIndex D p s = getFileIndex D p t) as Hg.
  { unfold getFileIndex. rewrite !(stringHash_same_lower s t _ H). reflexivity. }
  split; [intros seed; apply stringHash_same_lower; exact H|].
  split; [exact Hg|].
  unfold hasFile, openFile. rewrite Hg. split; reflexivity.
Qed.

(** *** What a lookup can return *)

Lemma getFileIndex_loop_result (fuel : nat) : forall (table : list Z)
    (es : list FileEntry) (h0 h1 h2 start i : Z),
  getFileIndex_loop D fuel table es h0 h1 h2 start = Done i ->
  i = -1
  \/ (0 <= i /\ exists e, es !! Z.to_nat i = Some e /\ isDeleted D e = false
                  /\ hashesMatch e h0 h1 h2 = true).
Proof.
  induction fuel as [|fuel IH]; intros table es h0 h1 h2 start i H; simpl in H;
    [discriminate|].
  destruct (table !! Z.to_nat start) as [fi|]; [|discriminate].
  destruct (fi <? 0) eqn:Hfi; [injection H as <-; left; reflexivity|].
  destruct (es !! Z.to_nat fi) as [e|] eqn:He; [|discriminate].
  destruct (hashesMatch e h0 h1 h2) eqn:Hm.
  - destruct (isDeleted D e) eqn:Hd; injection H as <-; [left; reflexivity|].
    right. split; [lia|]. exists e. auto.
  - eapply IH; eassumption.
Qed.

Lemma getFileIndex_cases (p : Package) (filename : string) (i : Z) :
  getFileIndex D p filename = Done i ->
  i = -1
  \/ (0 <= i
      /\ exists e, m_fileEntries p !! Z.to_nat i = Some e
           /\ isDeleted D e = false /\ named e filename).
Proof.
  unfold getFileIndex. destruct (_ =? 0); [discriminate|]. intros H.
  apply getFileIndex_loop_result in H as [->|(Hi & e & He & Hl & Hm)]; [left; reflexivity|].
  right. split; [exact Hi|].
  exists e. split; [exact He|]. split; [exact Hl|].
  apply hashesMatch_named. exact Hm.
Qed.

(** X2.  Where [getFileIndex] returns, the hash table is not empty, and
    the result is -1 or the index of an entry of the table that is not
    tombstoned and stores the three hashes of the name: never an index
    outside the table, never a tombstone, never an entry of which one hash
    differs. *)
Theorem getFileIndex_result (p : Package) (filename : string) (i : Z) :
  getFileIndex D p filename = Done i ->
  m_hashTable p <> []
  /\ (i = -1
      \/ (0 <= i < Z.of_nat (length (m_fileEntries p))
          /\ exists e, m_fileEntries p !! Z.to_nat i = Some e
               /\ isDeleted D e = false /\ named e filename)).
Proof.
  intros H. split.
  - intros Hnil. apply (getFileIndex_empty_table D p filename) in Hnil. congruence.
  - destruct (getFileIndex_cases p filename i H) as [->|(Hi & e & He & Hl & Hn)];
      [left; reflexivity|].
    right. split.
    + pose proof (lookup_lt_Some _ _ _ He). lia.
    + exists e. auto.
Qed.

(** X3.  [openFile] gives a file exactly when [hasFile] says that there is one,
    and the file it gives is the byte range of a live entry that stores the
    hashes of the name. *)
Theorem openFile_agrees_with_hasFile (p : Package) (filename : string) :
  (hasFile D p filename = Done true
   <-> exists window, openFile D p filename = Done (Some window))
  /\ (forall window, openFile D p filename = Done (Some window) ->
        m_dirty p = false
        /\ exists i e, m_fileEntries p !! i = Some e
             /\ isDeleted D e = false /\ named e filename
             /\ window = (byteOffset e, fileSize e)).
Proof.
  unfold hasFile, openFile.
  destruct (m_dirty p) eqn:Hd.
  { split; [split; [discriminate | intros [w Hw]; discriminate] | intros w Hw; discriminate]. }
  destruct (getFileIndex D p filename) as [i|f] eqn:Hg; simpl.
  2:{ split; [split; [discriminate | intros [w Hw]; discriminate]
             | intros w Hw; discriminate]. }
  destruct (getFileIndex_cases p filename i Hg) as [->|(Hi & e & He & Hl & Hn)].
  { simpl. split; [split; [discriminate | intros [w Hw]; discriminate]
                  | intros w Hw; discriminate]. }
  destruct (i <? 0) eqn:Hneg; [lia|]. rewrite He.
  split.
  - split; [intros _; eexists; reflexivity|].
    intros _. f_equal. apply Z.geb_le. lia.
  - intros w Hw. injection Hw as <-. split; [reflexivity|].
    exists (Z.to_nat i), e. auto.
Qed.

Lemma getFileIndex_absent (p : Package) (filename : string) :
  indexUsable p ->
  Forall (fun e => isDeleted D e = false -> ~ named e filename) (m_fileEntries p) ->
  getFileIndex D p filename = Done (-1).
Proof.
  intros Hu Habs.
  destruct (getFileIndex_returns D p filename Hu) as [i Hi].
  destruct (getFileIndex_cases p filename i Hi) as [->|(_ & e & He & Hl & Hn)];
    [exact Hi|].
  exfalso. exact (Forall_lookup_1 _ _ _ _ Habs He Hl Hn).
Qed.

(** X4.  A name of which no live entry stores the hashes is not found: on a
    package whose index can be walked, [getFileIndex] returns -1,
    [hasFile] returns false, [openFile] returns no file, and [removeFile]
    returns false and changes nothing. *)
Theorem absent_name_not_found (p : Package) (filename : string) :
  indexUsable p ->
  Forall (fun e => isDeleted D e = false -> ~ named e filename) (m_fileEntries p) ->
  getFileIndex D p filename = Done (-1)
  /\ hasFile D p filename = Done false
  /\ openFile D p filename = Done None
  /\ removeFile D p filename = Done (false, p).
Proof.
  intros Hu Habs.
  pose proof (getFileIndex_absent p filename Hu Habs) as Hg.
  split; [exact Hg|].
  unfold hasFile, openFile, removeFile. rewrite Hg. simpl.
  destruct (m_dirty p), (m_readonly p); auto.
Qed.

(** *** A removed name *)

Lemma getFileIndex_loop_alter (fuel : nat) : forall (table : list Z)
    (es : list FileEntry) (h0 h1 h2 start i : Z) (j : nat),
  FILE_FLAG_DELETED D <> 0 ->
  getFileIndex_loop D fuel table es h0 h1 h2 start = Done i ->
  getFileIndex_loop D fuel table (alter (markDeleted D) j es) h0 h1 h2 start
  = Done (if (0 <=? i) && (Z.to_nat i =? j)%nat then -1 else i).
Proof.
  induction fuel as [|fuel IH]; intros table es h0 h1 h2 start i j Hflag H;
    [discriminate|].
  simpl in H |- *.
  destruct (table !! Z.to_nat start) as [fi|]; [|discriminate].
  destruct (fi <? 0) eqn:Hfi.
  { injection H as <-. reflexivity. }
  destruct (es !! Z.to_nat fi) as [e|] eqn:He; [|discriminate].
  assert (isDeleted D (markDeleted D e) = true) as Hdel.
  { rewrite isDeleted_markDeleted. destruct (FILE_FLAG_DELETED D =? 0) eqn:E; [lia|reflexivity]. }
  destruct (decide (j = Z.to_nat fi)) as [->|Hj].
  - rewrite list_lookup_alter, decide_True, He by reflexivity.
    change (markDeleted D <$> Some e) with (Some (markDeleted D e)). cbv beta iota.
    change (hashesMatch (markDeleted D e) h0 h1 h2) with (hashesMatch e h0 h1 h2).
    destruct (hashesMatch e h0 h1 h2) eqn:Hm.
    + rewrite Hdel. destruct (isDeleted D e); injection H as <-; [reflexivity|].
      destruct (0 <=? fi) eqn:E0; [|lia].
      rewrite Nat.eqb_refl. reflexivity.
    + apply IH; assumption.
  - rewrite list_lookup_alter_ne, He by exact Hj.
    destruct (hashesMatch e h0 h1 h2) eqn:Hm.
    + destruct (isDeleted D e); injection H as <-; [reflexivity|].
      assert ((Z.to_nat fi =? j)%nat = false) as -> by (apply Nat.eqb_neq; congruence).
      rewrite andb_false_r. reflexivity.
    + apply IH; assumption.
Qed.

(** X5.  Once [removeFile] has returned true for a name, and before any flush,
    the lookup no longer finds the name, although the entry is still in the
    table: [getFileIndex] returns -1, and a second [removeFile] returns
    false and changes nothing. *)
Theorem removeFile_hides_name (p : Package) (filename : string) (p' : Package) :
  FILE_FLAG_DELETED D <> 0 ->
  removeFile D p filename = Done (true, p') ->
  getFileIndex D p' filename = Done (-1)
  /\ removeFile D p' filename = Done (false, p')
  /\ length (m_fileEntries p') = length (m_fileEntries p).
Proof.
  intros Hflag H.
  apply removeFile_inv in H as [[? _]|(_ & Hrw & i & Hg & Hi & ->)]; [discriminate|].
  assert (getFileIndex D
            (mkPackage (m_stream_is_open p) (m_readonly p) true
               (recountFilenameOffset D
                  (set_fileCount (m_header p) (wrap32 (fileCount (m_header p) - 1))))
               (alter (markDeleted D) (Z.to_nat i) (m_fileEntries p))
               (m_filenames p) (m_hashTable p)) filename = Done (-1)) as Hg'.
  { unfold getFileIndex in Hg |- *. simpl.
    destruct (_ =? 0); [discriminate|].
    rewrite (getFileIndex_loop_alter _ _ _ _ _ _ _ i _ Hflag Hg).
    destruct (0 <=? i) eqn:E0; [|lia]. rewrite Nat.eqb_refl. reflexivity. }
  split; [exact Hg'|]. split.
  - unfold removeFile. rewrite Hg'. simpl. rewrite Hrw. reflexivity.
  - simpl. apply length_alter.
Qed.

End Lookups.

(** ** The hash index finds what it was built from *)

Section IndexBuild.

Context (D : Declarations).

Lemma probeEmpty_chain (table : list Z) : forall (fuel : nat) (start index : Z),
  0 < Z.of_nat (length table) <= 2 ^ 32 ->
  0 <= start < Z.of_nat (length table) ->
  probeEmpty fuel table start = Done index ->
  exists k : nat, (k < fuel)%nat
    /\ index = slotAt (Z.of_nat (length table)) start k
    /\ table !! Z.to_nat index = Some (-1)
    /\ forall k' : nat, (k' < k)%nat ->
         exists v, table !! Z.to_nat (slotAt (Z.of_nat (length table)) start k') = Some v
                   /\ v <> -1.
Proof.
  induction fuel as [|fuel IH]; intros start index Hsz Hst H; simpl in H; [discriminate|].
  destruct (table !! Z.to_nat start) as [v|] eqn:Hv; [|discriminate].
  destruct (v =? -1) eqn:E.
  - injection H as <-. exists 0%nat. rewrite slotAt_0 by lia.
    split; [lia|]. split; [reflexivity|]. split; [rewrite Hv; f_equal; lia|].
    intros k' Hk'. lia.
  - rewrite nextSlot_mod in H by assumption.
    assert (0 <= (start + 1) mod Z.of_nat (length table) < Z.of_nat (length table)) as Hst'
      by (apply Z.mod_pos_bound; lia).
    destruct (IH _ _ Hsz Hst' H) as (k & Hk & Hidx & Hempty & Hbefore).
    exists (S k). rewrite slotAt_S by lia.
    split; [lia|]. split; [exact Hidx|]. split; [exact Hempty|].
    intros [|k'] Hk'.
    + exists v. rewrite slotAt_0 by lia. split; [exact Hv | lia].
    + rewrite slotAt_S by lia. apply Hbefore. lia.
Qed.

Lemma placed_insert (table : list Z) (h j : Z) (m : nat) (x : Z) :
  0 <= j -> table !! m = Some (-1) -> placed table h j ->
  placed (<[m := x]> table) h j.
Proof.
  intros Hj Hm (k & Hk & Hat & Hbefore).
  exists k. rewrite length_insert. split; [exact Hk|]. split.
  - rewrite list_lookup_insert_ne; [exact Hat|].
    intros ->. rewrite Hm in Hat. injection Hat. lia.
  - intros k' Hk'. destruct (Hbefore k' Hk') as (v & Hv & Hr).
    exists v. split; [|exact Hr].
    rewrite list_lookup_insert_ne; [exact Hv|].
    intros ->. rewrite Hm in Hv. injection Hv. lia.
Qed.

(** Every round of the second loop of [buildHashTable] leaves the indices
    stored so far in the probe chains of their entries. *)
Lemma fillHashTable_placed (es : list FileEntry) (n : nat) :
  forall (i : Z) (table t : list Z),
  0 < Z.of_nat (length table) <= 2 ^ 32 ->
  0 <= i ->
  Forall (fun v => -1 <= v < i) table ->
  (forall j e, 0 <= j < i -> es !! Z.to_nat j = Some e -> placed table (hash0 e) j) ->
  fillHashTable es n i table = Done t ->
  length t = length table
  /\ forall j e, 0 <= j < i + Z.of_nat n -> es !! Z.to_nat j = Some e ->
       placed t (hash0 e) j.
Proof.
  induction n as [|n IH]; intros i table t Hsz Hi Hval Hpl H; simpl in H.
  - injection H as <-. split; [reflexivity|]. intros j e Hj. apply Hpl. lia.
  - destruct (es !! Z.to_nat i) as [e|] eqn:He; [|discriminate].
    destruct (probeEmpty (length table) table (hash0 e mod Z.of_nat (length table)))
      as [index|] eqn:Hprobe; [|discriminate].
    simpl in H.
    assert (0 <= hash0 e mod Z.of_nat (length table) < Z.of_nat (length table)) as Hst
      by (apply Z.mod_pos_bound; lia).
    destruct (probeEmpty_chain _ _ _ _ Hsz Hst Hprobe) as (k & Hk & Hidx & Hempty & Hbefore).
    assert (0 <= index < Z.of_nat (length table)) as Hir
      by (rewrite Hidx; apply slotAt_range; lia).
    apply IH in H; [| rewrite length_insert; exact Hsz | lia | |].
    + rewrite length_insert in H. destruct H as [Hlen Hall].
      split; [exact Hlen|]. intros j e' Hj. apply Hall. lia.
    + apply Forall_insert; [|lia].
      eapply Forall_impl; [exact Hval|]. simpl. intros; lia.
    + intros j e' Hj He'.
      destruct (Z.eq_dec j i) as [->|Hne].
      * assert (e' = e) as -> by congruence.
        exists k. rewrite length_insert. split; [exact Hk|]. split.
        -- rewrite <- Hidx. apply list_lookup_insert_eq. lia.
        -- intros k' Hk'. destruct (Hbefore k' Hk') as (v & Hv & Hv').
           exists v. split.
           ++ rewrite list_lookup_insert_ne; [exact Hv|].
              intros Heq. rewrite Heq in Hempty. rewrite Hempty in Hv.
              injection Hv. lia.
           ++ pose proof (Forall_lookup_1 _ _ _ _ Hval Hv) as Hv''. simpl in Hv''. lia.
      * apply placed_insert; [lia | exact Hempty |]. apply Hpl; [lia | exact He'].
Qed.

(** The walk of [getFileIndex] along a chain in which the index [i] of a
    matching entry is placed: it stops at [i] or at a matching entry with a
    smaller index. *)
Lemma getFileIndex_loop_chain (table : list Z) (es : list FileEntry) (h0 h1 h2 i : Z)
    (e : FileEntry) (k : nat) : forall (fuel : nat) (start : Z),
  0 < Z.of_nat (length table) <= 2 ^ 32 ->
  0 <= start < Z.of_nat (length table) ->
  (k < fuel)%nat ->
  0 <= i ->
  es !! Z.to_nat i = Some e ->
  hashesMatch e h0 h1 h2 = true ->
  table !! Z.to_nat (slotAt (Z.of_nat (length table)) start k) = Some i ->
  (forall k' : nat, (k' < k)%nat ->
     exists v, table !! Z.to_nat (slotAt (Z.of_nat (length table)) start k') = Some v
               /\ 0 <= v < i) ->
  exists j e', getFileIndex_loop D fuel table es h0 h1 h2 start
               = Done (if isDeleted D e' then -1 else j)
    /\ 0 <= j <= i /\ es !! Z.to_nat j = Some e' /\ hashesMatch e' h0 h1 h2 = true.
Proof.
  induction k as [|k IH]; intros fuel start Hsz Hst Hfuel Hi He Hm Hat Hbefore;
    (destruct fuel as [|fuel]; [lia|]); simpl.
  - rewrite slotAt_0 in Hat by lia. rewrite Hat.
    destruct (i <? 0) eqn:E; [lia|]. rewrite He, Hm.
    exists i, e. split; [destruct (isDeleted D e); reflexivity|].
    repeat split; try lia; assumption.
  - destruct (Hbefore 0%nat ltac:(lia)) as (v & Hv & Hvr).
    rewrite slotAt_0 in Hv by lia. rewrite Hv.
    destruct (v <? 0) eqn:E; [lia|].
    assert (is_Some (es !! Z.to_nat v)) as [ev Hev].
    { apply lookup_lt_is_Some. apply lookup_lt_Some in He. lia. }
    rewrite Hev. destruct (hashesMatch ev h0 h1 h2) eqn:Hmv.
    + exists v, ev. split; [destruct (isDeleted D ev); reflexivity|].
      repeat split; try lia; assumption.
    + rewrite nextSlot_mod by assumption.
      assert (0 <= (start + 1) mod Z.of_nat (length table) < Z.of_nat (length table))
        as Hst' by (apply Z.mod_pos_bound; lia).
      apply IH; try assumption; try lia.
      * rewrite <- slotAt_S by lia. exact Hat.
      * intros k' Hk'. rewrite <- slotAt_S by lia. apply Hbefore. lia.
Qed.

Lemma buildHashTable_lookup (p p' : Package) (filename : string) (i : nat)
    (e : FileEntry) :
  buildHashTable p = Done (true, p') ->
  m_fileEntries p !! i = Some e ->
  Z.of_nat i < fileCount (m_header p) ->
  named e filename ->
  exists (j : nat) e',
    getFileIndex D p' filename = Done (if isDeleted D e' then -1 else Z.of_nat j)
    /\ (j <= i)%nat /\ m_fileEntries p !! j = Some e' /\ named e' filename.
Proof.
  intros Hb He Hi Hn.
  destruct (buildHashTable_true p p' Hb) as (k & t & Hk & _ & _ & Hlen & Hfill & ->).
  assert (0 < 2 ^ (k + 1) <= 2 ^ 20) as Hpow.
  { split; [apply Z.pow_pos_nonneg; lia|]. apply Z.pow_le_mono_r; lia. }
  apply fillHashTable_placed in Hfill as [Hlen' Hpl].
  - rewrite length_replicate in Hlen'.
    assert (Z.of_nat (length t) = 2 ^ (k + 1)) as Hsz by lia.
    destruct (Hpl (Z.of_nat i) e) as (c & Hc & Hat & Hbefore).
    { rewrite Z2Nat.id, Z.add_0_l by lia. lia. }
    { rewrite Nat2Z.id. exact He. }
    unfold getFileIndex. simpl m_hashTable. simpl m_fileEntries.
    rewrite Hsz. destruct (2 ^ (k + 1) =? 0) eqn:E0; [lia|].
    destruct Hn as (Hh0 & Hh1 & Hh2). rewrite <- Hsz.
    destruct (getFileIndex_loop_chain t (m_fileEntries p)
                (stringHash filename HASH_SEED0) (stringHash filename HASH_SEED1)
                (stringHash filename HASH_SEED2) (Z.of_nat i) e c (length t)
                (stringHash filename HASH_SEED0 mod Z.of_nat (length t)))
      as (j & e' & Hloop & Hj & He' & Hm').
    + lia.
    + apply Z.mod_pos_bound. lia.
    + exact Hc.
    + lia.
    + rewrite Nat2Z.id. exact He.
    + apply hashesMatch_named. repeat split; assumption.
    + rewrite <- Hh0. exact Hat.
    + intros k' Hk'. rewrite <- Hh0. apply Hbefore. exact Hk'.
    + exists (Z.to_nat j), e'. rewrite Z2Nat.id by lia.
      split; [exact Hloop|]. split; [lia|]. split; [exact He'|].
      apply hashesMatch_named. exact Hm'.
  - rewrite length_replicate. lia.
  - lia.
  - apply Forall_replicate. lia.
  - intros j e' Hj. lia.
Qed.

(** X6.  The index [buildHashTable] builds finds every entry it was built from:
    for the name of an entry among the first [fileCount] of the table, and
    as long as no entry stored under that name is tombstoned,
    [getFileIndex] returns the index of an entry of that name, the first in
    the table. *)
Theorem buildHashTable_finds_every_entry (p p' : Package) (filename : string)
    (i : nat) (e : FileEntry) :
  buildHashTable p = Done (true, p') ->
  m_fileEntries p !! i = Some e ->
  Z.of_nat i < fileCount (m_header p) ->
  named e filename ->
  Forall (fun e' => named e' filename -> isDeleted D e' = false) (m_fileEntries p) ->
  exists (j : nat) e',
    getFileIndex D p' filename = Done (Z.of_nat j)
    /\ (j <= i)%nat /\ m_fileEntries p' !! j = Some e' /\ named e' filename.
Proof.
  intros Hb He Hi Hn Hlive.
  destruct (buildHashTable_lookup p p' filename i e Hb He Hi Hn)
    as (j & e' & Hg & Hj & He' & Hn').
  rewrite (Forall_lookup_1 _ _ _ _ Hlive He' Hn') in Hg.
  exists j, e'. split; [exact Hg|]. split; [exact Hj|]. split; [|exact Hn'].
  destruct (buildHashTable_inv p true p' Hb) as [t ->]. exact He'.
Qed.

End IndexBuild.

(** ** What a mutation does to the lookups *)

Lemma splice_lookup {A : Type} (k : nat) (x : A) (l : list A) (i : Z) :
  (k <= length l)%nat -> 0 <= i ->
  (take k l ++ x :: drop k l) !! Z.to_nat (shifted (Z.of_nat k) i) = l !! Z.to_nat i.
Proof.
  intros Hk Hi. unfold shifted. destruct (i >=? Z.of_nat k) eqn:E.
  - rewrite lookup_app_r; rewrite length_take; [|lia].
    replace (Z.to_nat (i + 1) - k `min` length l)%nat with (S (Z.to_nat i - k)) by lia.
    simpl. rewrite lookup_drop. f_equal. lia.
  - rewrite lookup_app_l by (rewrite length_take; lia).
    apply lookup_take_lt. lia.
Qed.

Section Frames.

Context (D : Declarations).

Hypothesis flag_set : FILE_FLAG_DELETED D <> 0.

Lemma removeFile_lookup (p : Package) (filename : string) (b : bool) (p' : Package)
    (other : string) (i : Z) :
  removeFile D p filename = Done (b, p') ->
  getFileIndex D p other = Done i ->
  (0 <= i -> getFileIndex D p filename <> Done i) ->
  getFileIndex D p' other = Done i
  /\ (0 <= i -> m_fileEntries p' !! Z.to_nat i = m_fileEntries p !! Z.to_nat i).
Proof.
  intros H Hg Hne.
  apply removeFile_inv in H as [[_ ->]|(_ & Hrw & j & Hj & Hj0 & ->)]; [auto|].
  assert (0 <= i -> Z.to_nat j <> Z.to_nat i) as Hneq.
  { intros Hi Heq. apply (Hne Hi). rewrite Hj. f_equal. lia. }
  split.
  - unfold getFileIndex in Hg |- *. simpl.
    destruct (_ =? 0); [discriminate|].
    rewrite (getFileIndex_loop_alter D _ _ _ _ _ _ _ i _ flag_set Hg).
    destruct (0 <=? i) eqn:E0; [|reflexivity]. simpl.
    assert ((Z.to_nat i =? Z.to_nat j)%nat = false) as ->; [|reflexivity].
    apply Nat.eqb_neq. intros Heq. apply (Hneq ltac:(lia)). congruence.
  - intros Hi. simpl. apply list_lookup_alter_ne. apply Hneq. exact Hi.
Qed.

Lemma getFileIndex_loop_splice (k : nat) (x : FileEntry) (fuel : nat) :
  forall (table : list Z) (es : list FileEntry) (h0 h1 h2 start i : Z),
  (k <= length es)%nat ->
  getFileIndex_loop D fuel table es h0 h1 h2 start = Done i ->
  getFileIndex_loop D fuel (fixHashTable (Z.of_nat k) table)
    (take k es ++ x :: drop k es) h0 h1 h2 start
  = Done (shifted (Z.of_nat k) i).
Proof.
  induction fuel as [|fuel IH]; intros table es h0 h1 h2 start i Hk H; [discriminate|].
  simpl in H |- *. unfold fixHashTable at 1. rewrite list_lookup_fmap.
  destruct (table !! Z.to_nat start) as [fi|]; [|discriminate]. simpl.
  fold (shifted (Z.of_nat k) fi).
  destruct (fi <? 0) eqn:Hfi.
  { injection H as <-. unfold shifted.
    destruct (fi >=? Z.of_nat k) eqn:E; [lia|]. rewrite Hfi.
    destruct (-1 >=? Z.of_nat k) eqn:E'; [lia | reflexivity]. }
  assert ((shifted (Z.of_nat k) fi <? 0) = false) as ->
    by (unfold shifted; destruct (fi >=? Z.of_nat k); lia).
  rewrite splice_lookup by lia.
  destruct (es !! Z.to_nat fi) as [e|]; [|discriminate].
  destruct (hashesMatch e h0 h1 h2).
  - destruct (isDeleted D e); injection H as <-; [|reflexivity].
    unfold shifted. destruct (-1 >=? Z.of_nat k) eqn:E'; [lia | reflexivity].
  - rewrite length_fixHashTable. apply IH; assumption.
Qed.

Lemma getFileIndex_loop_append (x : FileEntry) (fuel : nat) :
  forall (table : list Z) (es : list FileEntry) (h0 h1 h2 start i : Z),
  getFileIndex_loop D fuel table es h0 h1 h2 start = Done i ->
  getFileIndex_loop D fuel table (es ++ [x]) h0 h1 h2 start = Done i.
Proof.
  induction fuel as [|fuel IH]; intros table es h0 h1 h2 start i H; [discriminate|].
  simpl in H |- *.
  destruct (table !! Z.to_nat start) as [fi|]; [|discriminate].
  destruct (fi <? 0); [exact H|].
  destruct (es !! Z.to_nat fi) as [e|] eqn:He; [|discriminate].
  rewrite (lookup_app_l_Some _ _ _ _ He).
  destruct (hashesMatch e h0 h1 h2); [exact H|]. apply IH. exact H.
Qed.

Lemma insertFile_lookup (p : Package) (entry : FileEntry) (filename : string)
    (p' : Package) (entry' : FileEntry) (other : string) (i : Z) :
  insertFile D p entry filename = Done (p', entry') ->
  getFileIndex D p other = Done i ->
  exists i', getFileIndex D p' other = Done i'
    /\ (i = -1 -> i' = -1)
    /\ (0 <= i -> 0 <= i'
        /\ m_fileEntries p' !! Z.to_nat i' = m_fileEntries p !! Z.to_nat i).
Proof.
  intros H Hg.
  apply insertFile_inv in H as [(k & e & He & _ & _ & _ & _ & _ & ->)|(_ & _ & ->)].
  - exists (shifted (Z.of_nat k) i).
    assert (k <= length (m_fileEntries p))%nat as Hk
      by (apply lookup_lt_Some in He; lia).
    split; [|split].
    + unfold getFileIndex in Hg |- *. simpl. rewrite length_fixHashTable.
      destruct (_ =? 0); [discriminate|].
      apply getFileIndex_loop_splice; assumption.
    + intros ->. unfold shifted. destruct (-1 >=? Z.of_nat k) eqn:E; [lia | reflexivity].
    + intros Hi. split; [unfold shifted; destruct (i >=? Z.of_nat k); lia|].
      simpl. apply splice_lookup; assumption.
  - exists i. split; [|split].
    + unfold getFileIndex in Hg |- *. simpl.
      destruct (_ =? 0); [discriminate|].
      apply getFileIndex_loop_append. exact Hg.
    + auto.
    + intros Hi. split; [exact Hi|]. simpl.
      destruct (getFileIndex_cases D p other i Hg) as [->|(_ & e & He & _)]; [lia|].
      rewrite He. apply lookup_app_l_Some. exact He.
Qed.

(** X7.  [removeFile] touches one name only: a name that [getFileIndex] finds
    at another entry than the one removed, or does not find, is answered as
    before, and the entry it is found at is unchanged; the hash table and
    the name table are unchanged, and the entry table keeps its length. *)
Theorem removeFile_keeps_other_names (p : Package) (filename : string) (b : bool)
    (p' : Package) (other : string) (i : Z) :
  removeFile D p filename = Done (b, p') ->
  getFileIndex D p other = Done i ->
  (0 <= i -> getFileIndex D p filename <> Done i) ->
  getFileIndex D p' other = Done i
  /\ (0 <= i -> m_fileEntries p' !! Z.to_nat i = m_fileEntries p !! Z.to_nat i)
  /\ m_hashTable p' = m_hashTable p
  /\ m_filenames p' = m_filenames p
  /\ length (m_fileEntries p') = length (m_fileEntries p).
Proof.
  intros H Hg Hne.
  destruct (removeFile_lookup p filename b p' other i H Hg Hne) as [Hg' He'].
  split; [exact Hg'|]. split; [exact He'|].
  apply removeFile_inv in H as [[_ ->]|(_ & _ & j & _ & _ & ->)]; [auto|].
  simpl. rewrite length_alter. auto.
Qed.

(** X8.  [addFile] keeps the names the index holds retrievable before the next
    flush, as [fixHashTable] is there for: a name found at an entry other
    than one [addFile] replaces is found again, at the same entry, whose
    index is one more when the new entry is spliced in before it; a name
    that was not found is still not found. *)
Theorem addFile_keeps_lookups (p : Package) (source : option Z) (filename : string)
    (flags : Z) (b : bool) (p' : Package) (other : string) (i : Z) :
  addFile D p source filename flags = Done (b, p') ->
  getFileIndex D p other = Done i ->
  (0 <= i -> getFileIndex D p filename <> Done i) ->
  exists i', getFileIndex D p' other = Done i'
    /\ (i = -1 -> i' = -1)
    /\ (0 <= i -> 0 <= i'
        /\ m_fileEntries p' !! Z.to_nat i' = m_fileEntries p !! Z.to_nat i).
Proof.
  intros H Hg Hne.
  apply addFile_inv in H
    as [[_ ->]|(_ & Hrw & n & p1 & p2 & entry' & _ & Hp1 & Hins & ->)].
  { exists i. auto. }
  assert (getFileIndex D p1 other = Done i
          /\ (0 <= i -> m_fileEntries p1 !! Z.to_nat i = m_fileEntries p !! Z.to_nat i))
    as [Hg1 He1].
  { destruct Hp1 as [->|[b1 Hrm]]; [auto|].
    eapply removeFile_lookup; eassumption. }
  destruct (insertFile_lookup _ _ _ _ _ other i Hins Hg1) as (i' & Hg2 & Hneg & Hpos).
  exists i'. split; [|split].
  - unfold getFileIndex in Hg2 |- *. exact Hg2.
  - exact Hneg.
  - intros Hi. destruct (Hpos Hi) as [Hi' He2]. split; [exact Hi'|].
    simpl. rewrite He2. apply He1. exact Hi.
Qed.

End Frames.

(** ** From a mutation to the next flush and after it *)

Section RoundTrips.

Context (D : Declarations).

Hypothesis flag_set : FILE_FLAG_DELETED D <> 0.

Lemma addFile_new_entry (p : Package) (source : option Z) (filename : string)
    (flags : Z) (p' : Package) :
  addFile D p source filename flags = Done (true, p') ->
  m_readonly p' = false /\ m_dirty p' = true
  /\ exists e, e ∈ m_fileEntries p' /\ isDeleted D e = false /\ named e filename.
Proof.
  intros H.
  apply addFile_inv in H
    as [[? _]|(_ & Hrw & n & p1 & p2 & entry' & _ & Hp1 & Hins & ->)]; [discriminate|].
  assert (m_readonly p1 = false) as Hrw1.
  { destruct Hp1 as [->|[b1 Hrm]]; [exact Hrw|].
    apply removeFile_inv in Hrm as [[_ ->]|(_ & _ & j & _ & _ & ->)]; exact Hrw. }
  assert (isDeleted D entry' = false /\ named entry' filename) as [Hl Hn].
  { apply insertFile_inv in Hins
      as [(k & e & _ & _ & _ & _ & _ & -> & _)|(_ & -> & _)];
      (split; [reflexivity | repeat split]). }
  assert (entry' ∈ m_fileEntries p2 /\ m_readonly p2 = m_readonly p1) as [Hin Hro2].
  { apply insertFile_inv in Hins
      as [(k & e & _ & _ & _ & _ & _ & _ & ->)|(_ & _ & ->)]; simpl;
      (split; [|reflexivity]); apply elem_of_app; right; apply list_elem_of_here. }
  simpl. split; [congruence|]. split; [reflexivity|]. exists entry'. auto.
Qed.

(** X9.  A file that [addFile] has taken is found after the next flush: on a
    package whose header counts its live entries and whose entry count
    stays within the capacity of the hash table, [flush] returns, and
    [hasFile] then returns true for the name. *)
Theorem addFile_then_flush_finds (p : Package) (source : option Z) (filename : string)
    (flags : Z) (p1 : Package) :
  serviceable D p -> withinCapacity p -> withinCapacity p1 ->
  addFile D p source filename flags = Done (true, p1) ->
  exists p2, flush D p1 = Done p2
    /\ m_dirty p2 = false
    /\ hasFile D p2 filename = Done true.
Proof.
  intros Hs Hcap Hcap1 Hadd.
  pose proof (addFile_serviceable D flag_set _ _ _ _ _ _ Hadd Hs Hcap) as (Hu & Hn & Hc).
  destruct (addFile_new_entry _ _ _ _ _ Hadd) as (Hrw & Hd & e & He & Hl & Hnamed).
  destruct (flush_compacts D p1 Hrw Hd (Hn Hrw) Hc Hcap1) as (t & Hfl & Hcur & _).
  cbv zeta in Hfl, Hcur. eexists. split; [exact Hfl|]. split; [reflexivity|].
  assert (e ∈ liveEntries D (m_fileEntries p1)) as Hin
    by (apply list_elem_of_filter; auto).
  apply list_elem_of_lookup in Hin as [i Hi].
  destruct (buildHashTable_lookup D _ _ filename i e Hcur Hi) as (j & e' & Hg & _ & He' & _).
  - simpl. rewrite Hc. apply lookup_lt_Some in Hi. lia.
  - exact Hnamed.
  - simpl in He'.
    rewrite (Forall_lookup_1 _ _ _ _ (liveEntries_all_live D _) He') in Hg.
    unfold hasFile. simpl m_dirty. cbv iota. rewrite Hg. simpl. f_equal.
    apply Z.geb_le. lia.
Qed.

(** X10.  A name that [removeFile] has removed is gone after the next flush,
    when no other live entry was stored under it: [flush] returns, the
    entry is dropped from the table, and [hasFile] returns false and
    [openFile] no file. *)
Theorem removeFile_then_flush_forgets (p : Package) (filename : string) (p1 : Package) :
  serviceable D p -> withinCapacity p ->
  removeFile D p filename = Done (true, p1) ->
  (forall (j : nat) e, m_fileEntries p !! j = Some e -> isDeleted D e = false ->
     named e filename -> getFileIndex D p filename = Done (Z.of_nat j)) ->
  exists p2, flush D p1 = Done p2
    /\ S (length (m_fileEntries p2)) = length (liveEntries D (m_fileEntries p))
    /\ hasFile D p2 filename = Done false
    /\ openFile D p2 filename = Done None.
Proof.
  intros Hs Hcap Hrm Huniq.
  destruct (removeFile_serviceable D flag_set _ _ _ _ Hrm Hs Hcap) as (Hs1 & Hcap1 & _).
  apply removeFile_inv in Hrm as [[? _]|(_ & Hrw & i & Hg & Hi & ->)]; [discriminate|].
  pose proof Hs1 as (Hu1 & Hn1 & Hc1).
  match type of Hs1 with
  | serviceable _ ?q =>
      destruct (flush_compacts D q Hrw eq_refl (Hn1 Hrw) Hc1 Hcap1) as (t & Hfl & _);
      cbv zeta in Hfl; simpl in Hfl;
      pose proof (flush_serviceable D q _ Hfl Hs1 Hcap1) as (Hu2 & _ & _)
  end.
  destruct (getFileIndex_found D p filename i Hg Hi) as (e0 & He0 & Hl0).
  eexists. split; [exact Hfl|]. split.
  { simpl. apply (liveEntries_alter D flag_set _ _ _ He0 Hl0). }
  assert (getFileIndex D
            (mkPackage (m_stream_is_open p) false false
               (set_filenameSize
                  (recountFilenameOffset D
                     (set_fileCount (m_header p) (wrap32 (fileCount (m_header p) - 1))))
                  (countFilenameSize
                     (liveNames D (alter (markDeleted D) (Z.to_nat i) (m_fileEntries p))
                        (m_filenames p))))
               (liveEntries D (alter (markDeleted D) (Z.to_nat i) (m_fileEntries p)))
               (liveNames D (alter (markDeleted D) (Z.to_nat i) (m_fileEntries p))
                  (m_filenames p)) t) filename = Done (-1)) as Habs.
  { apply getFileIndex_absent; [exact Hu2|]. simpl.
    apply Forall_forall. intros e He _ Hnamed.
    apply list_elem_of_filter in He as [Hlive He].
    apply list_elem_of_lookup in He as [j Hj].
    destruct (decide (Z.to_nat i = j)) as [<-|Hne].
    - rewrite list_lookup_alter, decide_True, He0 in Hj by reflexivity.
      injection Hj as <-. rewrite isDeleted_markDeleted in Hlive.
      destruct (FILE_FLAG_DELETED D =? 0) eqn:E; [lia | discriminate].
    - rewrite list_lookup_alter_ne in Hj by exact Hne.
      pose proof (Huniq j e Hj Hlive Hnamed) as Hg'.
      rewrite Hg in Hg'. injection Hg' as ->. apply Hne. lia. }
  unfold hasFile, openFile. simpl m_dirty. cbv iota. rewrite Habs. split; reflexivity.
Qed.

End RoundTrips.

(** ** The dirty flag and the read-only flag *)

Section Flags.

Context (D : Declarations).

(** X11.  Once [addFile] or [removeFile] has returned true the package
    answers no lookup until it is flushed: for every name [hasFile] returns
    false and [openFile] no file, [defrag] refuses, and [countFragmentSize]
    reports nothing. *)
Theorem mutation_blocks_reads (p : Package) (source : option Z) (filename : string)
    (flags : Z) (p' : Package) :
  addFile D p source filename flags = Done (true, p')
  \/ removeFile D p filename = Done (true, p') ->
  m_dirty p' = true
  /\ (forall other, hasFile D p' other = Done false /\ openFile D p' other = Done None)
  /\ (forall reopened, defrag D p' reopened = Done (false, p'))
  /\ (forall currentSize, countFragmentSize p' currentSize = (0, 0)).
Proof.
  intros H.
  assert (m_dirty p' = true) as Hd.
  { destruct H as [H|H].
    - apply addFile_inv in H as [[? _]|(_ & _ & n & p1 & p2 & e & _ & _ & _ & ->)];
        [discriminate | reflexivity].
    - apply removeFile_inv in H as [[? _]|(_ & _ & i & _ & _ & ->)];
        [discriminate | reflexivity]. }
  split; [exact Hd|].
  unfold hasFile, openFile, defrag, countFragmentSize. rewrite Hd, orb_true_r. auto.
Qed.

(** X12.  [flush] is idempotent: what a flush returns, a second flush returns
    unchanged. *)
Theorem flush_idempotent (p p' : Package) :
  flush D p = Done p' -> flush D p' = Done p'.
Proof.
  intros H. pose proof H as H'.
  apply flush_inv in H' as [->|(_ & _ & ns & t & _ & ->)]; [exact H|].
  unfold flush. simpl. rewrite orb_true_r. reflexivity.
Qed.

Lemma call_readonly (p : Package) (c : Call) :
  m_readonly p = true -> call D c p = Done p.
Proof.
  intros H. destruct c as [source filename flags | filename | | reopened];
    unfold call, addFile, removeFile, flush, defrag; rewrite H; reflexivity.
Qed.

Lemma Package_ctor_readonly (a : Archive) (readonly : bool) (p : Package) :
  Package_ctor D a readonly = Done p -> valid p = true ->
  readonly = true \/ version (a_header a) <> CURRENT_VERSION D ->
  m_readonly p = true.
Proof.
  intros H Hv Hro.
  destruct (Package_ctor_valid D a readonly p H Hv) as (Hl & t & ->).
  simpl. unfold afterNames.
  destruct (readFilenames_fields a (snd (afterEntries D a readonly)))
    as (_ & _ & -> & _).
  unfold afterEntries.
  destruct (readFileEntries_fields a (snd (afterHeader D a readonly)))
    as (_ & _ & -> & _).
  unfold loads in Hl. apply andb_true_iff in Hl as [Hl _].
  apply andb_true_iff in Hl as [_ Hl].
  unfold afterHeader, readHeader, initialPackage in Hl |- *.
  destruct (a_tellg_end a <? sizeof_PackageHeader D); [discriminate|].
  destruct (negb (sign (a_header a) =? PACKAGE_FILE_SIGN D) || _ || _ || _ || _ || _);
    [discriminate|].
  destruct (version (a_header a) =? CURRENT_VERSION D) eqn:E; simpl; [|reflexivity].
  destruct Hro as [->|Hne]; [reflexivity|]. apply Z.eqb_eq in E. contradiction.
Qed.

(** X13.  A package opened read-only, or from an archive of another version than
    [CURRENT_VERSION] whatever the caller asked for, is read-only, and
    stays as the open left it: [addFile], [removeFile], [flush] and
    [defrag] return without changing anything. *)
Theorem readonly_package_never_changes (a : Archive) (readonly : bool) (p : Package) :
  readonly = true \/ version (a_header a) <> CURRENT_VERSION D ->
  reachable D (fun _ => True) a readonly p ->
  m_readonly p = true
  /\ Package_ctor D a readonly = Done p
  /\ forall c, call D c p = Done p.
Proof.
  intros Hro Hreach.
  assert (m_readonly p = true /\ Package_ctor D a readonly = Done p) as [H1 H2].
  { induction Hreach as [p Hctor Hv _ | p c p' _ IH Hcall _].
    - split; [|exact Hctor]. eapply Package_ctor_readonly; eassumption.
    - destruct IH as [IH1 IH2]. rewrite (call_readonly p c IH1) in Hcall.
      injection Hcall as <-. auto. }
  split; [exact H1|]. split; [exact H2|]. intros c. apply call_readonly. exact H1.
Qed.

Lemma flush_clears_dirty (p p' : Package) :
  flush D p = Done p' -> m_readonly p = false -> m_dirty p' = false.
Proof.
  unfold flush. intros H Hro. rewrite Hro in H. simpl in H.
  destruct (m_dirty p) eqn:Hd; simpl in H; [|injection H as <-; exact Hd].
  destruct (flush_entries D _ _) as [[es ns]|]; simpl in H; [|discriminate].
  destruct (buildHashTable _) as [[b q]|]; simpl in H; [|discriminate].
  injection H as <-. reflexivity.
Qed.

(** X14.  When [addFile] returns false: exactly when the package is read-only,
    or the source file does not open, or the name is found and the
    replace flag is not given; and the package is then unchanged.  When it
    returns true the package is dirty and the entry table and the name
    table are one longer, also where an entry was replaced: the replaced
    entry stays in the table, tombstoned. *)
Theorem addFile_refuses_iff (p : Package) (source : option Z) (filename : string)
    (flags : Z) (b : bool) (p' : Package) :
  addFile D p source filename flags = Done (b, p') ->
  (b = false <->
     m_readonly p = true \/ source = None
     \/ (Z.land flags (FLAG_REPLACE D) = 0
         /\ exists i, getFileIndex D p filename = Done i /\ 0 <= i))
  /\ (b = false -> p' = p)
  /\ (b = true ->
      m_dirty p' = true
      /\ length (m_fileEntries p') = S (length (m_fileEntries p))
      /\ length (m_filenames p') = S (length (m_filenames p))).
Proof.
  intros H. split; [|split].
  - unfold addFile in H.
    destruct (m_readonly p) eqn:Hro.
    { injection H as <- <-. split; auto. }
    destruct source as [n|].
    2:{ injection H as <- <-. split; auto. }
    destruct (getFileIndex D p filename) as [i|f] eqn:Hg; simpl in H; [|discriminate].
    destruct (Z.geb_spec i 0) as [Hi|Hi].
    + destruct (Z.eqb_spec (Z.land flags (FLAG_REPLACE D)) 0) as [Hf|Hf]; simpl in H.
      * injection H as <- <-. split; [|auto]. intros _. right. right.
        split; [exact Hf|]. exists i. split; [reflexivity | lia].
      * destruct (removeFile D p filename) as [[b1 p1]|]; simpl in H; [|discriminate].
        destruct (insertFile D p1 _ filename) as [[p2 e]|]; simpl in H; [|discriminate].
        injection H as <- <-. split; [discriminate|].
        intros [?|[?|[? _]]]; [discriminate | discriminate | contradiction].
    + simpl in H.
      destruct (insertFile D p _ filename) as [[p2 e]|]; simpl in H; [|discriminate].
      injection H as <- <-. split; [discriminate|].
      intros [?|[?|(_ & j & Hj & Hj0)]]; [discriminate | discriminate |].
      injection Hj as <-. lia.
  - intros ->. apply addFile_inv in H as [[_ ?]|[? _]]; [assumption | discriminate].
  - intros ->.
    apply addFile_inv in H
      as [[? _]|(_ & Hrw & n & p1 & p2 & entry' & _ & Hp1 & Hins & ->)]; [discriminate|].
    assert (length (m_fileEntries p1) = length (m_fileEntries p)
            /\ length (m_filenames p1) = length (m_filenames p)) as [L1 L2].
    { destruct Hp1 as [->|[b1 Hrm]]; [auto|].
      apply removeFile_inv in Hrm as [[_ ->]|(_ & _ & j & _ & _ & ->)]; [auto|].
      simpl. rewrite length_alter. auto. }
    simpl. split; [reflexivity|].
    apply insertFile_inv in Hins
      as [(k & e & _ & _ & _ & _ & _ & _ & ->)|(_ & _ & ->)]; simpl.
    + rewrite !length_splice. lia.
    + rewrite !length_app. simpl. lia.
Qed.

(** X15.  When [defrag] returns false: either it has touched nothing, the
    package being read-only or dirty, or the file could not be reopened
    after the entries were packed and flushed, and the package is then
    left closed, that is invalid, with the dirty flag cleared. *)
Theorem defrag_failure_modes (p : Package) (reopened : bool) (p' : Package) :
  defrag D p reopened = Done (false, p') ->
  (p' = p /\ (m_readonly p = true \/ m_dirty p = true))
  \/ (m_readonly p = false /\ m_dirty p = false /\ reopened = false
      /\ valid p' = false /\ m_dirty p' = false
      /\ m_fileEntries p'
         = liveEntries D (fst (defrag_pack (m_fileEntries p) (headerSize (m_header p))))).
Proof.
  intros H. unfold defrag in H.
  destruct (m_readonly p) eqn:Hro; simpl in H.
  { injection H as <-. left. auto. }
  destruct (m_dirty p) eqn:Hd; simpl in H.
  { injection H as <-. left. auto. }
  right.
  destruct (defrag_pack (m_fileEntries p) (headerSize (m_header p))) as [es nextPos].
  destruct (flush D _) as [q|] eqn:Hq; simpl in H; [|discriminate].
  destruct reopened; [discriminate|]. injection H as <-.
  pose proof (flush_clears_dirty _ _ Hq Hro) as Hq'.
  repeat split; try assumption.
  simpl. apply flush_inv in Hq as [->|(_ & _ & ns & t & _ & ->)]; [discriminate|].
  reflexivity.
Qed.

End Flags.

(** ** Defragmenting and measuring *)

Lemma contentSize_nonneg (es : list FileEntry) :
  Forall (fun e => 0 <= fileSize e) es -> 0 <= contentSize es.
Proof.
  induction 1 as [|e es He _ IH]; [unfold contentSize; simpl; lia|].
  change (contentSize (e :: es)) with (fileSize e + contentSize es). lia.
Qed.

Lemma wrap64_add_l (a b : Z) : wrap64 (wrap64 a + b) = wrap64 (a + b).
Proof. unfold wrap64. apply Zplus_mod_idemp_l. Qed.

Lemma wrap64_range (a : Z) : 0 <= wrap64 a < 2 ^ 64.
Proof. unfold wrap64. apply Z.mod_pos_bound. lia. Qed.

Lemma defrag_pack_packed (es : list FileEntry) : forall (nextPos : Z),
  0 <= nextPos ->
  Forall (fun e => 0 <= fileSize e) es ->
  nextPos + contentSize es < 2 ^ 64 ->
  packed nextPos (fst (defrag_pack es nextPos))
  /\ snd (defrag_pack es nextPos) = nextPos + contentSize es
  /\ Forall2 relocated es (fst (defrag_pack es nextPos)).
Proof.
  induction es as [|e es IH]; intros nextPos Hn Hs Hb; simpl.
  { split; [exact I|]. split; [unfold contentSize; simpl; lia | constructor]. }
  apply Forall_cons in Hs as [Hse Hs].
  pose proof (contentSize_nonneg es Hs) as Hc.
  change (contentSize (e :: es)) with (fileSize e + contentSize es) in Hb |- *.
  set (e' := if negb (byteOffset e =? nextPos) then set_byteOffset e nextPos else e).
  assert (byteOffset e' = nextPos /\ relocated e e') as [Ho Hrel].
  { subst e'. destruct (byteOffset e =? nextPos) eqn:E; simpl.
    - split; [lia|]. repeat split.
    - split; [reflexivity|]. repeat split. }
  assert (fileSize e' = fileSize e) as Hsz by (destruct Hrel as (_ & _ & _ & _ & H); exact H).
  rewrite Hsz, wrap64_small by lia.
  specialize (IH (nextPos + fileSize e) ltac:(lia) Hs ltac:(lia)).
  destruct (defrag_pack es (nextPos + fileSize e)) as [rest endPos].
  simpl in *. destruct IH as (IH1 & IH2 & IH3).
  split; [split; [exact Ho | rewrite Hsz; exact IH1]|].
  split; [lia|]. constructor; assumption.
Qed.

Lemma countFragmentSize_loop_packed (es : list FileEntry) : forall (nextPos total : Z),
  packed nextPos es ->
  0 <= nextPos ->
  Forall (fun e => 0 <= fileSize e) es ->
  nextPos + contentSize es < 2 ^ 64 ->
  fst (countFragmentSize_loop es false 0 nextPos total) = (0, nextPos + contentSize es).
Proof.
  induction es as [|e es IH]; intros nextPos total Hp Hn Hs Hb; simpl.
  { unfold contentSize. simpl. f_equal. lia. }
  destruct Hp as [Ho Hp]. apply Forall_cons in Hs as [Hse Hs].
  pose proof (contentSize_nonneg es Hs) as Hc.
  change (contentSize (e :: es)) with (fileSize e + contentSize es) in Hb |- *.
  rewrite Ho, Z.eqb_refl. simpl.
  rewrite (wrap64_small (nextPos + fileSize e)) by lia.
  rewrite IH; [f_equal; lia | exact Hp | lia | exact Hs | lia].
Qed.

Lemma countFragmentSize_loop_total (es : list FileEntry) :
  forall (moving : bool) (bytesToMove nextPos total : Z),
  0 <= total < 2 ^ 64 ->
  snd (countFragmentSize_loop es moving bytesToMove nextPos total)
  = wrap64 (total + contentSize es).
Proof.
  induction es as [|e es IH]; intros moving bytesToMove nextPos total Ht; simpl.
  { unfold contentSize. simpl. rewrite Z.add_0_r, wrap64_small; [reflexivity | exact Ht]. }
  rewrite IH by apply wrap64_range.
  rewrite wrap64_add_l. f_equal.
  change (contentSize (e :: es)) with (fileSize e + contentSize es). lia.
Qed.

Section Defragmenting.

Context (D : Declarations).

Lemma relocated_live (es es' : list FileEntry) :
  Forall2 relocated es es' ->
  Forall (fun e => isDeleted D e = false) es ->
  Forall (fun e => isDeleted D e = false) es'.
Proof.
  induction 1 as [|e e' es es' (_ & _ & _ & Hf & _) _ IH]; intros Hl; [constructor|].
  apply Forall_cons in Hl as [He Hl]. constructor; [|apply IH; exact Hl].
  unfold isDeleted in *. rewrite Hf. exact He.
Qed.

Lemma liveNames_of_live (es : list FileEntry) : forall (ns : list string),
  Forall (fun e => isDeleted D e = false) es ->
  length ns = length es ->
  liveNames D es ns = ns.
Proof.
  induction es as [|e es IH]; intros [|n ns] Hl Hlen; try discriminate; [reflexivity|].
  apply Forall_cons in Hl as [He Hl]. simpl. rewrite He, IH; [reflexivity | exact Hl|].
  simpl in Hlen. lia.
Qed.

Lemma countFragmentSize_packed (p : Package) (currentSize : Z) :
  m_dirty p = false ->
  packed (headerSize (m_header p)) (m_fileEntries p) ->
  0 <= headerSize (m_header p) ->
  Forall (fun e => 0 <= fileSize e) (m_fileEntries p) ->
  fileEntryOffset (m_header p) = headerSize (m_header p) + contentSize (m_fileEntries p) ->
  fileEntryOffset (m_header p) < 2 ^ 64 ->
  snd (countFragmentSize p currentSize) = 0.
Proof.
  intros Hd Hp Hh Hs Hfeo Hb. unfold countFragmentSize. rewrite Hd.
  pose proof (countFragmentSize_loop_packed (m_fileEntries p) (headerSize (m_header p))
                (wrap32 (headerSize (m_header p)
                         + wrap32 (fileCount (m_header p) * fileEntrySize (m_header p))
                         + filenameSize (m_header p)))
                Hp Hh Hs ltac:(lia)) as Hloop.
  destruct (countFragmentSize_loop _ _ _ _ _) as [[b n] t]. simpl in *.
  injection Hloop as -> ->. rewrite <- Hfeo, Z.eqb_refl. reflexivity.
Qed.

(** X16.  [countFragmentSize] on a package that is not dirty: the result is the
    length of the stream less the header, the two tables as the header
    sizes them, and the bytes of all the files, as a [u64]; and where the
    files are packed from the end of the header up to the entry table,
    there is nothing to move. *)
Theorem countFragmentSize_measures (p : Package) (currentSize : Z) :
  m_dirty p = false ->
  let h := m_header p in
  fst (countFragmentSize p currentSize)
  = wrap64 (currentSize
            - wrap32 (headerSize h + wrap32 (fileCount h * fileEntrySize h) + filenameSize h)
            - contentSize (m_fileEntries p))
  /\ (packed (headerSize h) (m_fileEntries p) ->
      0 <= headerSize h ->
      Forall (fun e => 0 <= fileSize e) (m_fileEntries p) ->
      fileEntryOffset h = headerSize h + contentSize (m_fileEntries p) ->
      fileEntryOffset h < 2 ^ 64 ->
      snd (countFragmentSize p currentSize) = 0).
Proof.
  intros Hd h. unfold countFragmentSize. rewrite Hd. fold h.
  set (total := wrap32 (headerSize h + wrap32 (fileCount h * fileEntrySize h)
                        + filenameSize h)).
  assert (0 <= total < 2 ^ 64) as Ht.
  { subst total. unfold wrap32.
    pose proof (Z.mod_pos_bound (headerSize h + (fileCount h * fileEntrySize h) mod 2 ^ 32
                                 + filenameSize h) (2 ^ 32) ltac:(lia)). lia. }
  pose proof (countFragmentSize_loop_total (m_fileEntries p) false 0 (headerSize h) total Ht)
    as Htot.
  split.
  - destruct (countFragmentSize_loop _ _ _ _ _) as [[b n] t]. simpl in *. subst t.
    unfold wrap64. rewrite Zminus_mod_idemp_r. f_equal. lia.
  - intros Hp Hh Hs Hfeo Hb.
    pose proof (countFragmentSize_loop_packed (m_fileEntries p) (headerSize h) total
                  Hp Hh Hs ltac:(lia)) as Hloop.
    destruct (countFragmentSize_loop _ _ _ _ _) as [[b n] t]. simpl in *.
    injection Hloop as -> ->. rewrite <- Hfeo, Z.eqb_refl. reflexivity.
Qed.


End Defragmenting.

(** ** What stays retrievable *)

Lemma defrag_pack_relocated (es : list FileEntry) : forall (nextPos : Z),
  Forall2 relocated es (fst (defrag_pack es nextPos)).
Proof.
  induction es as [|e es IH]; intros nextPos; simpl; [constructor|].
  specialize (IH (wrap64 (nextPos + fileSize
    (if negb (byteOffset e =? nextPos) then set_byteOffset e nextPos else e)))).
  destruct (defrag_pack es _) as [rest endPos]. simpl in *.
  constructor; [|exact IH].
  destruct (negb (byteOffset e =? nextPos)); repeat split.
Qed.

Section Retrievable.

Context (D : Declarations).

Lemma getFileIndex_with_stream (p : Package) (b : bool) (filename : string) :
  getFileIndex D (with_stream p b) filename = getFileIndex D p filename.
Proof. reflexivity. Qed.

Lemma found_is_open (p : Package) (filename : string) (j : nat) (e : FileEntry) :
  m_dirty p = false ->
  getFileIndex D p filename = Done (Z.of_nat j) ->
  m_fileEntries p !! j = Some e ->
  hasFile D p filename = Done true
  /\ openFile D p filename = Done (Some (byteOffset e, fileSize e)).
Proof.
  intros Hd Hg He. unfold hasFile, openFile. rewrite Hd, Hg. simpl.
  destruct (Z.geb_spec (Z.of_nat j) 0) as [_|?]; [|lia].
  destruct (Z.ltb_spec (Z.of_nat j) 0) as [?|_]; [lia|].
  rewrite Nat2Z.id, He. auto.
Qed.

Lemma flush_lookup (p : Package) :
  m_readonly p = false -> m_dirty p = true ->
  length (m_filenames p) = length (m_fileEntries p) ->
  fileCount (m_header p) = Z.of_nat (length (liveEntries D (m_fileEntries p))) ->
  withinCapacity p ->
  exists p', flush D p = Done p'
    /\ m_dirty p' = false
    /\ m_fileEntries p' = liveEntries D (m_fileEntries p)
    /\ forall e filename,
         e ∈ m_fileEntries p -> isDeleted D e = false -> named e filename ->
         exists (j : nat) e',
           getFileIndex D p' filename = Done (Z.of_nat j)
           /\ m_fileEntries p' !! j = Some e' /\ named e' filename.
Proof.
  intros Hro Hd Hlen Hc Hcap.
  destruct (flush_compacts D p Hro Hd Hlen Hc Hcap) as (t & Hfl & Hcur & _).
  cbv zeta in Hfl, Hcur. eexists. split; [exact Hfl|]. split; [reflexivity|].
  split; [reflexivity|].
  intros e filename He Hl Hn.
  assert (e ∈ liveEntries D (m_fileEntries p)) as Hin
    by (apply list_elem_of_filter; auto).
  apply list_elem_of_lookup in Hin as [i Hi].
  destruct (buildHashTable_lookup D _ _ filename i e Hcur Hi) as (j & e' & Hg & _ & He' & Hn').
  - simpl. rewrite Hc. apply lookup_lt_Some in Hi. lia.
  - exact Hn.
  - simpl in He'.
    rewrite (Forall_lookup_1 _ _ _ _ (liveEntries_all_live D _) He') in Hg.
    exists j, e'. auto.
Qed.

(** X18.  After a flush every live file is found: on a writable, dirty
    package that has a name for every entry and whose header counts the
    live entries, at most [MAX_HASH_TABLE_SIZE] of them, [flush] returns,
    and for every name of which an entry that is not tombstoned stores the
    hashes, [hasFile] then returns true and [openFile] the byte range of a
    live entry that stores those hashes. *)
Theorem flush_keeps_live_files (p : Package) :
  m_readonly p = false -> m_dirty p = true ->
  length (m_filenames p) = length (m_fileEntries p) ->
  fileCount (m_header p) = Z.of_nat (length (liveEntries D (m_fileEntries p))) ->
  withinCapacity p ->
  exists p', flush D p = Done p'
    /\ forall e filename,
         e ∈ m_fileEntries p -> isDeleted D e = false -> named e filename ->
         hasFile D p' filename = Done true
         /\ exists e', e' ∈ m_fileEntries p /\ isDeleted D e' = false
              /\ named e' filename
              /\ openFile D p' filename = Done (Some (byteOffset e', fileSize e')).
Proof.
  intros Hro Hd Hlen Hc Hcap.
  destruct (flush_lookup p Hro Hd Hlen Hc Hcap) as (p' & Hfl & Hd' & Hes & Hall).
  exists p'. split; [exact Hfl|]. intros e filename He Hl Hn.
  destruct (Hall e filename He Hl Hn) as (j & e' & Hg & He' & Hn').
  destruct (found_is_open p' filename j e' Hd' Hg He') as [Hh Ho].
  split; [exact Hh|]. exists e'.
  assert (e' ∈ liveEntries D (m_fileEntries p)) as Hin.
  { rewrite <- Hes. apply list_elem_of_lookup. exists j. exact He'. }
  apply list_elem_of_filter in Hin as [Hl' Hin]. auto.
Qed.


End Retrievable.

(** ** Opening an archive *)

Section Opening.

Context (D : Declarations).

Lemma readFileEntries_loop_accepts (a : Archive) (h : PackageHeader) (n : nat) :
  forall (i nextOffset : Z),
  (fst (readFileEntries_loop a h n i nextOffset) = true
   <-> chained (fileEntryOffset h) nextOffset (recordsFrom a n i))
  /\ (fst (readFileEntries_loop a h n i nextOffset) = true ->
      snd (readFileEntries_loop a h n i nextOffset) = recordsFrom a n i).
Proof.
  induction n as [|n IH]; intros i nextOffset; simpl.
  { split; [split; auto | auto]. }
  destruct (Z.geb_spec nextOffset (fileEntryOffset h)) as [H1|H1]; simpl.
  { split; [split; [discriminate | intros [? _]; lia] | discriminate]. }
  destruct (Z.ltb_spec (byteOffset (a_fileEntry a i)) nextOffset) as [H2|H2]; simpl.
  { split; [split; [discriminate | intros (_ & ? & _); lia] | discriminate]. }
  specialize (IH (i + 1)
                (wrap64 (byteOffset (a_fileEntry a i) + fileSize (a_fileEntry a i)))).
  destruct (readFileEntries_loop a h n (i + 1) _) as [ok rest]. simpl in *.
  destruct IH as [IH1 IH2]. split.
  - rewrite IH1. split; [intros ?; repeat split; [lia | lia | assumption] | tauto].
  - intros Hok. f_equal. apply IH2. exact Hok.
Qed.

Lemma loads_accepted (a : Archive) (readonly : bool) :
  loads D a readonly = true <-> accepted D a.
Proof.
  unfold loads, afterEntries, afterHeader, readHeader, initialPackage, accepted.
  destruct (a_is_open a); [|split; [discriminate | intros [? _]; discriminate]].
  destruct (Z.ltb_spec (a_tellg_end a) (sizeof_PackageHeader D)) as [H1|H1].
  { simpl. split; [discriminate | intros (_ & ? & _); lia]. }
  destruct (Z.eqb_spec (sign (a_header a)) (PACKAGE_FILE_SIGN D)) as [H2|H2];
    [|simpl; split; [discriminate | intros (_ & _ & ? & _); contradiction]].
  destruct (Z.ltb_spec (headerSize (a_header a)) (sizeof_PackageHeader D)) as [H3|H3];
    [simpl; split; [discriminate | intros (_ & _ & _ & ? & _); lia]|].
  destruct (Z.ltb_spec (fileEntrySize (a_header a)) (sizeof_FileEntry D)) as [H4|H4];
    [simpl; split; [discriminate | intros (_ & _ & _ & _ & ? & _); lia]|].
  destruct (Z.ltb_spec (fileEntryOffset (a_header a)) (headerSize (a_header a)))
    as [H5|H5];
    [simpl; split; [discriminate | intros (_ & _ & _ & _ & _ & ? & _); lia]|].
  destruct (Z.gtb_spec
              (wrap64 (wrap32 (fileCount (a_header a) * fileEntrySize (a_header a))
                       + fileEntryOffset (a_header a))) (a_tellg_end a)) as [H6|H6];
    [simpl; split; [discriminate | intros (_ & _ & _ & _ & _ & _ & ? & _); lia]|].
  destruct (Z.gtb_spec (wrap64 (filenameOffset (a_header a) + filenameSize (a_header a)))
              (a_tellg_end a)) as [H7|H7];
    [simpl; split; [discriminate | intros (_ & _ & _ & _ & _ & _ & _ & ? & _); lia]|].
  simpl.
  assert (forall p1, m_header p1 = a_header a ->
            (fst (readFileEntries a p1) = true
             <-> chained (fileEntryOffset (a_header a)) (headerSize (a_header a))
                   (recordsFrom a (Z.to_nat (fileCount (a_header a))) 0))) as Hread.
  { intros p1 Hp1. unfold readFileEntries. rewrite Hp1.
    pose proof (proj1 (readFileEntries_loop_accepts a (a_header a)
                         (Z.to_nat (fileCount (a_header a))) 0
                         (headerSize (a_header a)))) as Hacc.
    destruct (readFileEntries_loop a (a_header a) _ 0 _) as [ok es]. exact Hacc. }
  destruct (negb (version (a_header a) =? CURRENT_VERSION D)); simpl;
    rewrite Hread by reflexivity; tauto.
Qed.

(** X20.  The open always returns.  The package it leaves is valid exactly when
    the stream opens, the header passes the checks of [readHeader], and
    the records pass those of [readFileEntries]; it then holds the header
    and the records of the archive, and is never dirty. *)
Theorem open_succeeds_iff (a : Archive) (readonly : bool) :
  exists p, Package_ctor D a readonly = Done p
    /\ m_dirty p = false
    /\ (valid p = true <-> accepted D a)
    /\ (valid p = true ->
        m_header p = a_header a
        /\ m_fileEntries p = recordsFrom a (Z.to_nat (fileCount (a_header a))) 0).
Proof.
  destruct (loads D a readonly) eqn:Hl.
  - assert (exists t, Package_ctor D a readonly
                      = Done (with_hashTable (afterNames D a readonly) t)) as [t Hctor].
    { destruct (Z_le_gt_dec (fileCount (a_header a)) MAX_HASH_TABLE_SIZE) as [Hc|Hc].
      - destruct (Package_ctor_within_capacity D a readonly Hl Hc) as (t & _ & H & _).
        exists t. exact H.
      - destruct (Package_ctor_over_capacity D a readonly Hl ltac:(lia)) as (_ & H & _ & Ht).
        exists []. rewrite H. f_equal. unfold with_hashTable. rewrite <- Ht.
        destruct (afterNames D a readonly); reflexivity. }
    destruct (afterNames_fields D a readonly Hl) as (Ho & Hd & Hh & _ & _ & He).
    eexists. split; [exact Hctor|]. simpl.
    split; [exact Hd|]. split.
    + unfold valid. simpl. rewrite Ho. split; [intros _; apply loads_accepted in Hl; exact Hl | auto].
    + intros _. split; [exact Hh|]. rewrite He.
      unfold loads in Hl. apply andb_true_iff in Hl as [Hl1 Hl2].
      apply andb_true_iff in Hl1 as [_ Hl1].
      unfold afterEntries in Hl2 |- *. unfold readFileEntries in Hl2 |- *.
      pose proof (readHeader_fields D a (initialPackage a readonly)) as Hf.
      cbv zeta in Hf. destruct Hf as (_ & _ & _ & _ & _ & Hhdr).
      fold (afterHeader D a readonly) in Hhdr. rewrite (Hhdr Hl1) in Hl2 |- *.
      pose proof (proj2 (readFileEntries_loop_accepts a (a_header a)
                           (Z.to_nat (fileCount (a_header a))) 0
                           (headerSize (a_header a)))) as Hacc.
      destruct (readFileEntries_loop a (a_header a) _ 0 _) as [ok es].
      simpl in *. apply Hacc. exact Hl2.
  - destruct (Package_ctor_rejects D a readonly Hl) as (p & Hctor & Hv & Hd & _).
    exists p. split; [exact Hctor|]. split; [exact Hd|]. rewrite Hv. split.
    + split; [discriminate|]. intros Hacc.
      apply (proj2 (loads_accepted a readonly)) in Hacc. congruence.
    + discriminate.
Qed.

End Opening.

(** ** Names by index *)

Lemma strncpy_length (n : nat) : forall (s : string),
  (String.length (strncpy n s) <= n)%nat.
Proof.
  induction n as [|n IH]; intros [|c s]; simpl; try lia.
  destruct (_ =? 0); simpl; [lia|]. specialize (IH s). lia.
Qed.

Lemma strncpy_fits (n : nat) : forall (s : string),
  (String.length (c_str s) <= n)%nat -> strncpy n s = c_str s.
Proof.
  induction n as [|n IH]; intros [|c s]; simpl; try reflexivity.
  - destruct (_ =? 0); simpl; [reflexivity | lia].
  - destruct (_ =? 0); simpl; [reflexivity|]. intros H. f_equal. apply IH. lia.
Qed.

Section NamesByIndex.

Context (D : Declarations).

(** X21.  At every point a caller can observe, [getFilenameByIndex] on a
    writable package gives, for an index inside the entry table, the name
    stored for that entry, cut to what a buffer of [bufferSize] bytes takes
    with its terminator; where the archive stores with every record the
    hashes of its name and the buffer is long enough, the string returned
    has the hashes the entry at that index stores. *)
Theorem getFilenameByIndex_names_entry (a : Archive) (readonly : bool) (p : Package)
    (bufferSize index : Z) :
  reachable D (fun _ => True) a readonly p ->
  m_readonly p = false ->
  0 <= index < Z.of_nat (length (m_fileEntries p)) ->
  0 < bufferSize < 2 ^ 32 ->
  exists name e result,
    m_filenames p !! Z.to_nat index = Some name
    /\ m_fileEntries p !! Z.to_nat index = Some e
    /\ getFilenameByIndex p bufferSize index = Done (true, result)
    /\ Z.of_nat (String.length result) < bufferSize
    /\ (Z.of_nat (String.length (c_str name)) < bufferSize -> result = c_str name)
    /\ (archiveNamed a -> Z.of_nat (String.length (c_str name)) < bufferSize ->
        named e result).
Proof.
  intros Hreach Hrw Hi Hb.
  destruct (reachable_names D (fun _ _ => True) (trivial_Pairing D) _ a readonly p
              (fun _ _ => I) Hreach) as [Hlen _].
  specialize (Hlen Hrw). apply Forall2_length in Hlen.
  assert (is_Some (m_fileEntries p !! Z.to_nat index)) as [e He]
    by (apply lookup_lt_is_Some; lia).
  assert (is_Some (m_filenames p !! Z.to_nat index)) as [name Hn]
    by (apply lookup_lt_is_Some; lia).
  exists name, e, (strncpy (Z.to_nat (wrap32 (bufferSize - 1))) name).
  rewrite (wrap32_small (bufferSize - 1)) by lia.
  split; [exact Hn|]. split; [exact He|]. split.
  { unfold getFilenameByIndex. rewrite Hn.
    destruct (Z.ltb_spec index (Z.of_nat (length (m_filenames p)))) as [_|Hge]; [|lia].
    destruct (Z.eqb_spec bufferSize 0) as [Hz|_]; [lia|].
    rewrite (wrap32_small (bufferSize - 1)) by lia. reflexivity. }
  split.
  { pose proof (strncpy_length (Z.to_nat (bufferSize - 1)) name). lia. }
  split.
  { intros Hfit. apply strncpy_fits. lia. }
  intros Hnamed Hfit. rewrite strncpy_fits by lia.
  destruct (reachable_names D named (named_Pairing D) _ a readonly p Hnamed Hreach)
    as [Hall _].
  pose proof (Forall2_lookup_lr _ _ _ _ _ _ (Hall Hrw) He Hn) as (H0 & H1 & H2).
  unfold named. rewrite !stringHash_c_str. auto.
Qed.

(** X22.  [getFilenameByIndex] returns false, with an empty string in the
    buffer, for an index at or past the end of the entry table, and, on a
    read-only package, for every index: a read-only open reads no names. *)
Theorem getFilenameByIndex_out_of_range (a : Archive) (readonly : bool) (p : Package)
    (bufferSize index : Z) :
  reachable D (fun _ => True) a readonly p ->
  0 < bufferSize -> 0 <= index ->
  m_readonly p = true \/ Z.of_nat (length (m_fileEntries p)) <= index ->
  getFilenameByIndex p bufferSize index = Done (false, EmptyString).
Proof.
  intros Hreach Hb Hi Hcase.
  destruct (reachable_names D (fun _ _ => True) (trivial_Pairing D) _ a readonly p
              (fun _ _ => I) Hreach) as [Hw Hr].
  assert (Z.of_nat (length (m_filenames p)) <= index \/ m_filenames p = []) as Hlen.
  { destruct (m_readonly p) eqn:Hro.
    - right. apply Hr. reflexivity.
    - left. destruct Hcase as [?|Hge]; [discriminate|].
      rewrite <- (Forall2_length _ _ _ (Hw eq_refl)). exact Hge. }
  unfold getFilenameByIndex.
  destruct (Z.eqb_spec bufferSize 0) as [Hz|_]; [lia|].
  destruct (Z.ltb_spec index (Z.of_nat (length (m_filenames p)))) as [Hlt|_]; [|reflexivity].
  destruct Hlen as [Hge|Hnil]; [lia|].
  rewrite Hnil in Hlt. simpl in Hlt. lia.
Qed.

End NamesByIndex.

(** ** What holds at every point a caller can observe *)

Section Observable.

Context (D : Declarations).

Hypothesis flag_set : FILE_FLAG_DELETED D <> 0.

Lemma reachable_clean_live (ok : Package -> Prop) (a : Archive) (readonly : bool)
    (p : Package) :
  archiveClean D a ->
  reachable D ok a readonly p ->
  m_dirty p = false -> Forall (fun e => isDeleted D e = false) (m_fileEntries p).
Proof.
  intros [_ Hclean]. induction 1 as [p Hctor Hv _ | p c p' _ IH Hcall _]; intros Hd.
  - destruct (Package_ctor_valid D a readonly p Hctor Hv) as (Hl & t & ->). simpl.
    pose proof (afterNames_entries D a readonly Hl) as Hloop.
    pose proof (readFileEntries_loop_from_archive _ _ _ _ _ _ Hloop) as Hfrom.
    eapply Forall_impl; [exact Hfrom|]. simpl. intros e [j ->]. apply Hclean.
  - destruct c as [source filename flags | filename | | reopened]; simpl in Hcall.
    + destruct (addFile D p source filename flags) as [[b q]|] eqn:E; simpl in Hcall;
        [|discriminate].
      injection Hcall as ->.
      apply addFile_inv in E as [[_ ->]|(_ & _ & n & p1 & p2 & e & _ & _ & _ & ->)];
        [auto | discriminate].
    + destruct (removeFile D p filename) as [[b q]|] eqn:E; simpl in Hcall;
        [|discriminate].
      injection Hcall as ->.
      apply removeFile_inv in E as [[_ ->]|(_ & _ & i & _ & _ & ->)];
        [auto | discriminate].
    + apply flush_inv in Hcall as [->|(_ & _ & ns & t & _ & ->)]; [auto|].
      simpl. apply liveEntries_all_live.
    + destruct (defrag D p reopened) as [[b q]|] eqn:E; simpl in Hcall; [|discriminate].
      injection Hcall as ->.
      apply defrag_inv in E as [[_ ->]|(_ & _ & p2 & Hfl & -> & _)]; [auto|].
      apply flush_inv in Hfl as [->|(_ & _ & ns & t & _ & ->)]; [discriminate|].
      simpl. apply liveEntries_all_live.
Qed.

(** X23.  At every point a caller can observe, on a package opened from an
    archive without tombstones and kept within the capacity of the hash
    table: the header counts the live entries, a writable package has one
    name for every entry, tombstoned or not, the hash index holds no index
    outside the entry table and has a free slot, and a package that is not
    dirty holds no tombstone. *)
Theorem header_counts_live_entries (a : Archive) (readonly : bool) (p : Package) :
  archiveClean D a ->
  reachable D withinCapacity a readonly p ->
  fileCount (m_header p) = Z.of_nat (length (liveEntries D (m_fileEntries p)))
  /\ (m_readonly p = false -> length (m_filenames p) = length (m_fileEntries p))
  /\ indexUsable p
  /\ (m_dirty p = false ->
      liveEntries D (m_fileEntries p) = m_fileEntries p
      /\ getFileCount p = fileCount (m_header p)).
Proof.
  intros Hclean Hreach.
  destruct (reachable_serviceable D flag_set a readonly p Hclean Hreach) as (Hu & Hn & Hc).
  split; [exact Hc|]. split; [exact Hn|]. split; [exact Hu|].
  intros Hd.
  pose proof (liveEntries_of_live D _ (reachable_clean_live _ a readonly p Hclean Hreach Hd))
    as Hall.
  split; [exact Hall|].
  unfold getFileCount. rewrite Hc, Hall. apply wrap32_small.
  pose proof (reachable_ok D _ _ _ _ Hreach) as Hcap.
  unfold withinCapacity, MAX_HASH_TABLE_SIZE in Hcap. rewrite Hc, Hall in Hcap. lia.
Qed.

(** X24.  At every point a caller can observe, on a package whose stored
    header size is the size of [PackageHeader] and whose entries stay
    inside the range of a [u64]: no two live entries share a byte, and no
    entry begins inside the header. *)
Theorem live_files_keep_apart (a : Archive) (readonly : bool) (p : Package) :
  reachable D (wellSized D) a readonly p ->
  liveDisjoint D (m_fileEntries p)
  /\ Forall (fun e => sizeof_PackageHeader D <= byteOffset e) (m_fileEntries p).
Proof.
  intros Hreach.
  destruct (reachable_layout D _ _ _ Hreach) as ((Hsorted & Habove & _) & _).
  destruct (reachable_ok D _ _ _ _ Hreach) as (Hhs & _ & _).
  split; [|rewrite <- Hhs; exact Habove].
  intros i j ei ej Hij Hi Hj Hli Hlj (x & Hxi & Hxj).
  destruct (Nat.lt_total i j) as [Hlt|[Heq|Hgt]]; [|lia|].
  - pose proof (StronglySorted_lookup _ _ Hsorted i j ei ej Hlt Hi Hj Hli Hlj). lia.
  - pose proof (StronglySorted_lookup _ _ Hsorted j i ej ei Hgt Hj Hi Hlj Hli). lia.
Qed.


End Observable.

(** ** The properties on the example archives *)

Lemma lookup_ignores_case_witness :
  getFileIndex exampleDecls exampleOpened "CD" = getFileIndex exampleDecls exampleOpened "cd"
  /\ hasFile exampleDecls exampleOpened "CD" = Done true.
Proof.
  destruct (lookup_ignores_case exampleDecls exampleOpened "CD" "cd" eq_refl)
    as (_ & Hg & Hh & _).
  split; [exact Hg|]. rewrite Hh. reflexivity.
Defined.

Lemma getFileIndex_result_witness :
  exists e, m_fileEntries exampleOpened !! 1%nat = Some e
    /\ isDeleted exampleDecls e = false /\ named e "cd".
Proof.
  destruct (getFileIndex_result exampleDecls exampleOpened "cd" 1 eq_refl)
    as [_ [H|(_ & e & He & Hl & Hn)]]; [discriminate H|].
  exists e. auto.
Defined.

Lemma absent_name_not_found_witness :
  hasFile exampleDecls exampleOpened "missing" = Done false
  /\ removeFile exampleDecls exampleOpened "missing" = Done (false, exampleOpened).
Proof.
  destruct (absent_name_not_found exampleDecls exampleOpened "missing")
    as (_ & Hh & _ & Hr).
  - unfold indexUsable. split; [simpl; lia|]. split; [vm_compute; lia|].
    apply Forall_forall. intros v Hv. vm_compute in Hv.
    repeat (apply elem_of_cons in Hv as [->|Hv]; [simpl; lia|]).
    apply elem_of_nil in Hv. contradiction.
  - repeat constructor; intros _ (H0 & _); vm_compute in H0; discriminate.
  - split; [exact Hh | exact Hr].
Defined.

Lemma removeFile_hides_name_witness :
  getFileIndex exampleDecls exampleOpened "cd" = Done 1
  /\ getFileIndex exampleDecls exampleRemovedCd "cd" = Done (-1)
  /\ removeFile exampleDecls exampleRemovedCd "cd" = Done (false, exampleRemovedCd).
Proof.
  split; [reflexivity|].
  destruct (removeFile_hides_name exampleDecls exampleOpened "cd" exampleRemovedCd)
    as (Hg & Hr & _).
  - discriminate.
  - reflexivity.
  - split; [exact Hg | exact Hr].
Defined.

Lemma buildHashTable_finds_every_entry_witness :
  exists (j : nat) e',
    getFileIndex exampleDecls exampleFlushed "b" = Done (Z.of_nat j)
    /\ (j <= 2)%nat /\ m_fileEntries exampleFlushed !! j = Some e' /\ named e' "b".
Proof.
  apply (buildHashTable_finds_every_entry exampleDecls exampleFlushed exampleFlushed
           "b" 2 (entryNamed "b" 80 10)).
  - vm_compute. reflexivity.
  - reflexivity.
  - simpl. lia.
  - repeat split.
  - repeat constructor.
Defined.

Lemma exampleArchive_clean : archiveClean exampleDecls exampleArchive.
Proof.
  split; [simpl; lia|]. intros i. unfold exampleArchive. simpl.
  destruct (i =? 0); [reflexivity|]. destruct (i =? 1); reflexivity.
Qed.

Lemma emptyArchive_clean : archiveClean exampleDecls emptyArchive.
Proof. split; [simpl; lia | reflexivity]. Qed.

Lemma exampleOpened_serviceable : serviceable exampleDecls exampleOpened.
Proof.
  apply (Package_ctor_serviceable exampleDecls exampleArchive false).
  - vm_compute. reflexivity.
  - reflexivity.
  - exact exampleArchive_clean.
  - unfold withinCapacity, MAX_HASH_TABLE_SIZE. simpl. lia.
Qed.

Lemma emptyOpened_serviceable : serviceable exampleDecls emptyOpened.
Proof.
  apply (Package_ctor_serviceable exampleDecls emptyArchive false).
  - vm_compute. reflexivity.
  - reflexivity.
  - exact emptyArchive_clean.
  - unfold withinCapacity, MAX_HASH_TABLE_SIZE. simpl. lia.
Qed.

Lemma removeFile_keeps_other_names_witness :
  getFileIndex exampleDecls exampleRemovedCd "b" = Done 2
  /\ getFileIndex exampleDecls exampleRemovedCd "a" = Done 0.
Proof.
  split.
  - apply (removeFile_keeps_other_names exampleDecls ltac:(discriminate)
             exampleOpened "cd" true exampleRemovedCd "b" 2).
    + reflexivity.
    + reflexivity.
    + intros _. vm_compute. discriminate.
  - apply (removeFile_keeps_other_names exampleDecls ltac:(discriminate)
             exampleOpened "cd" true exampleRemovedCd "a" 0).
    + reflexivity.
    + reflexivity.
    + intros _. vm_compute. discriminate.
Defined.

Lemma addFile_keeps_lookups_witness :
  exists i', getFileIndex exampleDecls exampleSpliced "b" = Done i'
    /\ 0 <= i'
    /\ m_fileEntries exampleSpliced !! Z.to_nat i' = Some (entryNamed "b" 80 10).
Proof.
  destruct (addFile_keeps_lookups exampleDecls ltac:(discriminate)
              exampleRemovedCd (Some 5) "n" 0 true exampleSpliced "b" 2)
    as (i' & Hg & _ & Hpos).
  - reflexivity.
  - reflexivity.
  - intros _. vm_compute. discriminate.
  - destruct (Hpos ltac:(lia)) as [Hi' He]. exists i'.
    split; [exact Hg|]. split; [exact Hi' | exact He].
Defined.

Lemma addFile_then_flush_finds_witness :
  exists p2, flush exampleDecls emptyAddedA = Done p2
    /\ m_dirty p2 = false
    /\ hasFile exampleDecls p2 "a" = Done true.
Proof.
  apply (addFile_then_flush_finds exampleDecls ltac:(discriminate)
           emptyOpened (Some 5) "a" 0 emptyAddedA).
  - exact emptyOpened_serviceable.
  - unfold withinCapacity, MAX_HASH_TABLE_SIZE. simpl. lia.
  - unfold withinCapacity, MAX_HASH_TABLE_SIZE. simpl. lia.
  - reflexivity.
Defined.

Lemma removeFile_then_flush_forgets_witness :
  exists p2, flush exampleDecls exampleRemovedCd = Done p2
    /\ S (length (m_fileEntries p2)) = 3%nat
    /\ hasFile exampleDecls p2 "cd" = Done false
    /\ openFile exampleDecls p2 "cd" = Done None.
Proof.
  apply (removeFile_then_flush_forgets exampleDecls ltac:(discriminate)
           exampleOpened "cd" exampleRemovedCd).
  - exact exampleOpened_serviceable.
  - unfold withinCapacity, MAX_HASH_TABLE_SIZE. simpl. lia.
  - reflexivity.
  - intros j e Hj _ (H0 & _).
    destruct j as [|[|[|j]]]; simpl in Hj; try discriminate;
      injection Hj as <-; try reflexivity; vm_compute in H0; discriminate.
Defined.

Lemma mutation_blocks_reads_witness :
  hasFile exampleDecls exampleRemovedCd "a" = Done false
  /\ openFile exampleDecls exampleRemovedCd "a" = Done None
  /\ defrag exampleDecls exampleRemovedCd true = Done (false, exampleRemovedCd).
Proof.
  destruct (mutation_blocks_reads exampleDecls exampleOpened None "cd" 0 exampleRemovedCd)
    as (_ & Hread & Hdefrag & _).
  - right. reflexivity.
  - destruct (Hread "a") as [Hh Ho].
    split; [exact Hh|]. split; [exact Ho | exact (Hdefrag true)].
Defined.

Lemma flush_idempotent_witness :
  flush exampleDecls exampleFlushed = Done exampleFlushed.
Proof.
  apply (flush_idempotent exampleDecls exampleSpliced exampleFlushed).
  vm_compute. reflexivity.
Defined.

Lemma readonly_package_never_changes_witness :
  m_readonly exampleReadonly = true
  /\ call exampleDecls (CallAddFile (Some 5) "n" 0) exampleReadonly = Done exampleReadonly.
Proof.
  destruct (readonly_package_never_changes exampleDecls exampleArchive true exampleReadonly)
    as (Hro & _ & Hcall).
  - left. reflexivity.
  - apply reachable_open; [vm_compute; reflexivity | reflexivity | exact I].
  - split; [exact Hro | apply Hcall].
Defined.

Lemma countFragmentSize_measures_witness :
  countFragmentSize exampleDefragged 173 = (0, 0)
  /\ fst (countFragmentSize exampleOpened 203) = 30.
Proof.
  split.
  - destruct (countFragmentSize_measures exampleDefragged 173 eq_refl) as [H1 H2].
    rewrite (surjective_pairing (countFragmentSize exampleDefragged 173)).
    rewrite H1, H2.
    + reflexivity.
    + simpl. repeat split.
    + simpl. lia.
    + repeat constructor; simpl; lia.
    + reflexivity.
    + simpl. lia.
  - rewrite (proj1 (countFragmentSize_measures exampleOpened 203 eq_refl)). reflexivity.
Defined.


Lemma getFilenameByIndex_names_entry_witness :
  getFilenameByIndex exampleSpliced 16 2 = Done (true, "n")
  /\ getFilenameByIndex exampleSpliced 2 1 = Done (true, "c").
Proof.
  split.
  - destruct (getFilenameByIndex_names_entry exampleDecls exampleArchive false
                exampleSpliced 16 2
                (exampleSpliced_reachable (fun _ => True) I I I) eq_refl)
      as (name & e & result & Hn & _ & Hg & _ & Hfit & _).
    + simpl. lia.
    + lia.
    + injection Hn as <-. rewrite Hg, Hfit; [reflexivity | simpl; lia].
  - destruct (getFilenameByIndex_names_entry exampleDecls exampleArchive false
                exampleSpliced 2 1
                (exampleSpliced_reachable (fun _ => True) I I I) eq_refl)
      as (name & e & result & Hn & _ & Hg & _ & _ & _).
    + simpl. lia.
    + lia.
    + rewrite Hg. unfold getFilenameByIndex in Hg. simpl in Hg. symmetry. exact Hg.
Defined.

Lemma getFilenameByIndex_out_of_range_witness :
  getFileCount exampleReadonly = 3
  /\ getFilenameByIndex exampleReadonly 16 0 = Done (false, EmptyString)
  /\ getFilenameByIndex exampleSpliced 16 4 = Done (false, EmptyString).
Proof.
  split; [reflexivity|]. split.
  - apply (getFilenameByIndex_out_of_range exampleDecls exampleArchive true).
    + apply reachable_open; [vm_compute; reflexivity | reflexivity | exact I].
    + lia.
    + lia.
    + left. reflexivity.
  - apply (getFilenameByIndex_out_of_range exampleDecls exampleArchive false).
    + exact (exampleSpliced_reachable (fun _ => True) I I I).
    + lia.
    + lia.
    + right. simpl. lia.
Defined.

Lemma exampleSpliced_within_capacity :
  reachable exampleDecls withinCapacity exampleArchive false exampleSpliced.
Proof.
  apply exampleSpliced_reachable; unfold withinCapacity, MAX_HASH_TABLE_SIZE; simpl; lia.
Qed.

Lemma header_counts_live_entries_witness :
  fileCount (m_header exampleSpliced)
  = Z.of_nat (length (liveEntries exampleDecls (m_fileEntries exampleSpliced)))
  /\ getFileCount exampleSpliced = 4.
Proof.
  split; [|reflexivity].
  apply (header_counts_live_entries exampleDecls ltac:(discriminate)
           exampleArchive false exampleSpliced exampleArchive_clean
           exampleSpliced_within_capacity).
Defined.

Lemma live_files_keep_apart_witness :
  liveDisjoint exampleDecls (m_fileEntries exampleSpliced)
  /\ Forall (fun e => 40 <= byteOffset e) (m_fileEntries exampleSpliced).
Proof.
  destruct wellSized_examples as (W1 & W2 & W3).
  exact (live_files_keep_apart exampleDecls exampleArchive false exampleSpliced
           (exampleSpliced_reachable (wellSized exampleDecls) W1 W2 W3)).
Defined.


Lemma addFile_refuses_iff_witness :
  addFile exampleDecls exampleOpened (Some 5) "cd" 0 = Done (false, exampleOpened)
  /\ (m_readonly exampleOpened = true \/ Some 5 = None
      \/ (Z.land 0 (FLAG_REPLACE exampleDecls) = 0
          /\ exists i, getFileIndex exampleDecls exampleOpened "cd" = Done i /\ 0 <= i)).
Proof.
  split; [reflexivity|].
  apply (addFile_refuses_iff exampleDecls exampleOpened (Some 5) "cd" 0 false exampleOpened);
    reflexivity.
Defined.

Lemma defrag_failure_modes_witness :
  exists p', defrag exampleDecls exampleOpened false = Done (false, p')
    /\ valid p' = false /\ m_dirty p' = false
    /\ byteOffset <$> m_fileEntries p' = [40; 50; 60].
Proof.
  eexists. split; [vm_compute; reflexivity|].
  destruct (defrag_failure_modes exampleDecls exampleOpened false _
              ltac:(vm_compute; reflexivity))
    as [[_ [H|H]]|(_ & _ & _ & Hv & Hd & _)]; [discriminate H | discriminate H|].
  split; [exact Hv|]. split; [exact Hd | reflexivity].
Defined.

Lemma flush_keeps_live_files_witness :
  exists p', flush exampleDecls exampleSpliced = Done p'
    /\ hasFile exampleDecls p' "n" = Done true
    /\ hasFile exampleDecls p' "b" = Done true.
Proof.
  destruct (flush_keeps_live_files exampleDecls exampleSpliced)
    as (p' & Hfl & Hall).
  - reflexivity.
  - reflexivity.
  - reflexivity.
  - reflexivity.
  - unfold withinCapacity, MAX_HASH_TABLE_SIZE. simpl. lia.
  - exists p'. split; [exact Hfl|]. split.
    + apply (Hall (entryNamed "n" 50 5) "n"); [|reflexivity | repeat split].
      apply list_elem_of_lookup. exists 2%nat. reflexivity.
    + apply (Hall (entryNamed "b" 80 10) "b"); [|reflexivity | repeat split].
      apply list_elem_of_lookup. exists 3%nat. reflexivity.
Defined.

